(** * OurRecipes: the recipe importer and the similarity engine

    A shallow embedding of [recipe-app.jsx]: the text import path
    ([parseText], [parseRecipeBlock]), the JSON paths ([toJSON],
    [parseJSON]), the import handlers ([handleImport], [handlePasteImport])
    with their writes to the store, [findSimilarRecipes], the list view
    ([filteredRecipes], [toggleTagFilter]), the handlers of the recipe form,
    the RTF exporter and [linkifyText]; with it the splitter, the block
    parser and the import handler of the older copy of the program, which
    the repository keeps.

    The program is regular expressions and string methods.  Strings are
    lists of UTF-16 code units, patterns are terms of a small syntax, and a
    backtracking matcher gives them the meaning they have in the language;
    [match], [replace] and [split] are built on it.  What belongs to the
    host and not to the program (numbers, the Unicode case mappings, the
    JSON codec, the clock) is a parameter, [Host]; a reference host runs the
    examples.  A call that can throw returns in [res]. *)

From Stdlib Require Import List NArith ZArith QArith Bool Lia String Ascii.
From Stdlib Require Import Permutation Sorted.
Import ListNotations.

Local Open Scope N_scope.
Local Open Scope list_scope.

(** ** JavaScript strings

    A JavaScript string is a sequence of UTF-16 code units; [length],
    [charAt], the regular expressions (none has the [u] flag) and [trim] all
    see code units.  Literals are written as Rocq strings, which are UTF-8
    bytes, and decoded by [js]. *)

Definition str := list N.

Fixpoint bytes (s : string) : list N :=
  match s with
  | EmptyString => []
  | String a s' => N_of_ascii a :: bytes s'
  end.

(** UTF-8 bytes to code points (well-formed input; a stray byte is kept). *)
Fixpoint utf8_decode (bs : list N) : list N :=
  match bs with
  | [] => []
  | b :: rest =>
      if b <? 192 then b :: utf8_decode rest
      else if b <? 224 then
        match rest with
        | c1 :: rest1 => ((b - 192) * 64 + (c1 - 128)) :: utf8_decode rest1
        | _ => [b]
        end
      else if b <? 240 then
        match rest with
        | c1 :: c2 :: rest2 =>
            ((b - 224) * 4096 + (c1 - 128) * 64 + (c2 - 128)) :: utf8_decode rest2
        | _ => [b]
        end
      else
        match rest with
        | c1 :: c2 :: c3 :: rest3 =>
            ((b - 240) * 262144 + (c1 - 128) * 4096 + (c2 - 128) * 64 + (c3 - 128))
              :: utf8_decode rest3
        | _ => [b]
        end
  end.

(** Code points to UTF-16 code units (surrogate pairs above the BMP). *)
Definition utf16_units (cp : N) : list N :=
  if cp <? 65536 then [cp]
  else [55296 + (cp - 65536) / 1024; 56320 + (cp - 65536) mod 1024].

Definition js (s : string) : str := flat_map utf16_units (utf8_decode (bytes s)).

Definition LF : N := 10.
Definition CR : N := 13.

(** [a === b] on strings *)
Fixpoint str_eqb (a b : str) : bool :=
  match a, b with
  | [], [] => true
  | x :: a', y :: b' => (x =? y) && str_eqb a' b'
  | _, _ => false
  end.

(** ECMAScript WhiteSpace and LineTerminator code units: what [\s] matches
    and what [trim] removes. *)
Definition is_space (c : N) : bool :=
  ((9 <=? c) && (c <=? 13)) || (c =? 32) || (c =? 160) || (c =? 5760)
  || ((8192 <=? c) && (c <=? 8202)) || (c =? 8232) || (c =? 8233)
  || (c =? 8239) || (c =? 8287) || (c =? 12288) || (c =? 65279).

Definition is_line_terminator (c : N) : bool :=
  (c =? 10) || (c =? 13) || (c =? 8232) || (c =? 8233).

Definition is_digit (c : N) : bool := (48 <=? c) && (c <=? 57).

Fixpoint trimStart (s : str) : str :=
  match s with
  | c :: s' => if is_space c then trimStart s' else s
  | [] => []
  end.

Definition trimEnd (s : str) : str := rev (trimStart (rev s)).

(** [String.prototype.trim] *)
Definition trim (s : str) : str := trimEnd (trimStart s).

(** [s.split(c)] for a one-character separator [c]: always at least one
    piece, the empty string gives one empty piece. *)
Fixpoint split_chr (c : N) (s : str) : list str :=
  match s with
  | [] => [[]]
  | x :: s' =>
      if x =? c then [] :: split_chr c s'
      else match split_chr c s' with
           | p :: ps => (x :: p) :: ps
           | [] => [[x]]
           end
  end.

(** [parts.join(sep)] *)
Fixpoint join (sep : str) (parts : list str) : str :=
  match parts with
  | [] => []
  | [p] => p
  | p :: ps => p ++ sep ++ join sep ps
  end.

Fixpoint startsWith (s p : str) : bool :=
  match p, s with
  | [], _ => true
  | a :: p', b :: s' => (a =? b) && startsWith s' p'
  | _ :: _, [] => false
  end.

(** [s.includes(sub)] *)
Fixpoint includes (s sub : str) : bool :=
  startsWith s sub ||
  match s with
  | [] => false
  | _ :: s' => includes s' sub
  end.

(** [s.charAt(0)] and [s.slice(1)] *)
Definition charAt0 (s : str) : str := firstn 1 s.
Definition slice1 (s : str) : str := skipn 1 s.

(** JavaScript truthiness of a string *)
Definition truthy (s : str) : bool := negb (str_eqb s []).

(** ** Regular expressions

    The subset of ECMAScript patterns the source uses, interpreted by the
    backtracking semantics of the language: ordered alternation, greedy and
    lazy quantifiers, capturing groups, positive lookahead, [^] and [$]. *)

Inductive citem : Type :=
| CChar (c : N)
| CRange (lo hi : N)
| CSpace
| CNotSpace
| CDigit.

Inductive regex : Type :=
| REmpty
| RChar (c : N)
| RSet (neg : bool) (items : list citem)
| RDot
| RSeq (r1 r2 : regex)
| RAlt (r1 r2 : regex)
| RRep (min : nat) (max : option nat) (greedy : bool) (r : regex)
| RGroup (i : nat) (r : regex)
| RLook (r : regex)
| RBol
| REol.

Record flags : Type := Flags { ignoreCase : bool; multiline : bool }.

Definition no_flags := Flags false false.
Definition flag_i := Flags true false.
Definition flag_im := Flags true true.

(** With the [i] flag and no [u] flag a code unit is compared through its
    upper-case form, and a code unit outside ASCII never folds into ASCII:
    for the patterns of the source, whose letters are all ASCII, this is
    ASCII case folding. *)
Definition canon (fl : flags) (c : N) : N :=
  if ignoreCase fl && (97 <=? c) && (c <=? 122) then c - 32 else c.

Definition swap_case (c : N) : N :=
  if (97 <=? c) && (c <=? 122) then c - 32
  else if (65 <=? c) && (c <=? 90) then c + 32
  else c.

Definition in_item (it : citem) (c : N) : bool :=
  match it with
  | CChar a => a =? c
  | CRange lo hi => (lo <=? c) && (c <=? hi)
  | CSpace => is_space c
  | CNotSpace => negb (is_space c)
  | CDigit => is_digit c
  end.

Definition in_set (fl : flags) (items : list citem) (c : N) : bool :=
  existsb (fun it => in_item it c || (ignoreCase fl && in_item it (swap_case c))) items.

(** Captures: group number to captured text; an absent entry is
    [undefined]. *)
Definition caps := list (nat * str).

Fixpoint cap (i : nat) (cs : caps) : option str :=
  match cs with
  | [] => None
  | (j, s) :: cs' => if Nat.eqb i j then Some s else cap i cs'
  end.

Definition set_cap (i : nat) (s : str) (cs : caps) : caps :=
  (i, s) :: filter (fun p => negb (Nat.eqb (fst p) i)) cs.

Fixpoint groups_of (r : regex) : list nat :=
  match r with
  | RSeq a b | RAlt a b => groups_of a ++ groups_of b
  | RRep _ _ _ a | RLook a => groups_of a
  | RGroup i a => i :: groups_of a
  | _ => []
  end.

Definition clear_caps (gs : list nat) (cs : caps) : caps :=
  filter (fun p => negb (existsb (Nat.eqb (fst p)) gs)) cs.

Definition has_group (i : nat) (r : regex) : bool := existsb (Nat.eqb i) (groups_of r).

(** A sufficient condition, read off the pattern, for group [i] to be
    defined after every successful match of [r]. *)
Fixpoint always_captures (i : nat) (r : regex) : bool :=
  match r with
  | RSeq a b => (always_captures i a && negb (has_group i b)) || always_captures i b
  | RAlt a b => always_captures i a && always_captures i b
  | RRep min max _ a =>
      negb (Nat.eqb min 0)
      && match max with Some O => false | _ => true end
      && always_captures i a
  | RGroup j a => Nat.eqb i j || always_captures i a
  | RLook a => always_captures i a
  | _ => false
  end.

(** A matcher state is the code unit before the current position ([None] at
    index 0) and the rest of the input. *)
Definition mresult := option (str * caps).
Definition mcont := option N -> str -> caps -> mresult.

Definition at_bol (fl : flags) (prev : option N) : bool :=
  match prev with
  | None => true
  | Some c => multiline fl && is_line_terminator c
  end.

Definition at_eol (fl : flags) (s : str) : bool :=
  match s with
  | [] => true
  | c :: _ => multiline fl && is_line_terminator c
  end.

Definition or_else (a : mresult) (b : unit -> mresult) : mresult :=
  match a with
  | Some r => Some r
  | None => b tt
  end.

Definition matcher := option N -> str -> caps -> mcont -> mresult.

(** What a matcher does to group [i] on every path that succeeds: the
    continuation was entered, with the group defined when [sets], and
    with the group as it was when the pattern does not contain it. *)
Definition capture_behaviour (i : nat) (m : matcher) (sets touches : bool) : Prop :=
  forall prev s cs (k : mcont) res,
    m prev s cs k = Some res ->
    exists p' s' cs',
      k p' s' cs' = Some res
      /\ (sets = true -> cap i cs' <> None)
      /\ (touches = false -> cap i cs' = cap i cs).

(** [a] is what is left of [b] after some of its code units. *)
Definition Suffix (a b : str) : Prop := exists p, b = p ++ a.

Definition is_suffix (a b : str) : bool :=
  str_eqb (skipn (List.length b - List.length a) b) a.

(** A matcher that enters its continuation only at suffixes of its input *)
Definition forward_only (m : matcher) : Prop :=
  forall prev s cs (k k' : mcont),
    (forall p' s' cs', Suffix s' s -> k p' s' cs' = k' p' s' cs') ->
    m prev s cs k = m prev s cs k'.

(** [p] is a run of consecutive code units of [t]. *)
Definition Infix (p t : str) : Prop := exists a b, t = a ++ p ++ b.

(** Every captured text is a run of [input]. *)
Definition captures_within (input : str) (cs : caps) : Prop :=
  Forall (fun c => Infix (snd c) input) cs.

(** A matcher that enters its continuation at a suffix of where it
    started, with captures that are runs of [input]. *)
Definition stays_within (input : str) (m : matcher) : Prop :=
  forall prev s cs (k : mcont) res,
    Suffix s input -> captures_within input cs ->
    m prev s cs k = Some res ->
    exists p' s' cs',
      k p' s' cs' = Some res /\ Suffix s' s /\ captures_within input cs'.

(** The iterations of a quantified atom [m] whose groups are [gs]: the
    captures of the atom are reset before each iteration, and an iteration
    beyond [min] that consumes nothing is rejected.  There are at most
    [min + length s] iterations, so [fuel] never runs out when it starts
    above that. *)
Fixpoint repeat_matcher (m : matcher) (gs : list nat) (greedy : bool) (k : mcont)
         (fuel : nat) (min : nat) (max : option nat)
         (prev : option N) (s : str) (cs : caps) {struct fuel} : mresult :=
  match fuel with
  | O => None
  | S fuel' =>
      match max with
      | Some O => k prev s cs
      | _ =>
          let iter := fun _ : unit =>
            m prev s (clear_caps gs cs)
              (fun p' s' cs' =>
                 if Nat.eqb min 0 && Nat.eqb (List.length s') (List.length s)
                 then None
                 else repeat_matcher m gs greedy k fuel' (Nat.pred min)
                                     (option_map Nat.pred max) p' s' cs') in
          if negb (Nat.eqb min 0) then iter tt
          else if greedy then or_else (iter tt) (fun _ => k prev s cs)
          else or_else (k prev s cs) iter
      end
  end.

(** The matcher, in continuation-passing style as in the language
    definition. *)
Fixpoint rmatch (fl : flags) (r : regex) (prev : option N) (s : str) (cs : caps)
         (k : mcont) {struct r} : mresult :=
  match r with
  | REmpty => k prev s cs
  | RChar c =>
      match s with
      | x :: s' => if canon fl x =? canon fl c then k (Some x) s' cs else None
      | [] => None
      end
  | RSet neg items =>
      match s with
      | x :: s' => if xorb neg (in_set fl items x) then k (Some x) s' cs else None
      | [] => None
      end
  | RDot =>
      match s with
      | x :: s' => if is_line_terminator x then None else k (Some x) s' cs
      | [] => None
      end
  | RSeq a b => rmatch fl a prev s cs (fun p' s' cs' => rmatch fl b p' s' cs' k)
  | RAlt a b => or_else (rmatch fl a prev s cs k) (fun _ => rmatch fl b prev s cs k)
  | RRep min max greedy a =>
      repeat_matcher (rmatch fl a) (groups_of a) greedy k
                     (S (min + List.length s)) min max prev s cs
  | RGroup i a =>
      rmatch fl a prev s cs
        (fun p' s' cs' =>
           k p' s' (set_cap i (firstn (List.length s - List.length s') s) cs'))
  | RLook a =>
      match rmatch fl a prev s cs (fun _ s' cs' => Some (s', cs')) with
      | Some (_, cs') => k prev s cs'
      | None => None
      end
  | RBol => if at_bol fl prev then k prev s cs else None
  | REol => if at_eol fl s then k prev s cs else None
  end.

(** One attempt at the current position: the rest of the input after the
    match and the captures. *)
Definition exec_at (fl : flags) (r : regex) (prev : option N) (s : str) : mresult :=
  rmatch fl r prev s [] (fun _ s' cs' => Some (s', cs')).

Definition last_of (prev : option N) (m : str) : option N :=
  match rev m with
  | c :: _ => Some c
  | [] => prev
  end.

(** The result of a successful search: the text before the match, the
    matched text, the captures and the text after. *)
Record found : Type := Found { before : str; matched : str; groups : caps; after : str }.

Fixpoint search_from (fl : flags) (r : regex) (prev : option N) (acc : str) (s : str)
  : option found :=
  match exec_at fl r prev s with
  | Some (s', cs) =>
      Some (Found (rev acc) (firstn (List.length s - List.length s') s) cs s')
  | None =>
      match s with
      | [] => None
      | x :: s' => search_from fl r (Some x) (x :: acc) s'
      end
  end.

(** [s.match(re)] for a pattern without the [g] flag *)
Definition str_match (fl : flags) (r : regex) (s : str) : option found :=
  search_from fl r None [] s.

(** [re.test(s)], also the truth value of [s.match(re)] *)
Definition test (fl : flags) (r : regex) (s : str) : bool :=
  match str_match fl r s with Some _ => true | None => false end.

(** [s.replace(re, by)] for a pattern without the [g] flag and a replacement
    text without [$]: only the first match is replaced. *)
Definition replace (fl : flags) (r : regex) (by_ : str) (s : str) : str :=
  match str_match fl r s with
  | Some f => before f ++ by_ ++ after f
  | None => s
  end.

(** [s.replace(re, by)] for a pattern with the [g] flag: every match, left
    to right; after an empty match the scan moves one code unit on. *)
Fixpoint replace_loop (fuel : nat) (fl : flags) (r : regex) (by_ : str)
         (prev : option N) (s : str) : str :=
  match fuel with
  | O => s
  | S fuel' =>
      match search_from fl r prev [] s with
      | None => s
      | Some f =>
          match matched f, after f with
          | [], [] => before f ++ by_
          | [], x :: rest => before f ++ by_ ++ x :: replace_loop fuel' fl r by_ (Some x) rest
          | m, rest =>
              before f ++ by_ ++
              replace_loop fuel' fl r by_ (last_of prev (before f ++ m)) rest
          end
      end
  end.

Definition replaceAll (fl : flags) (r : regex) (by_ : str) (s : str) : str :=
  replace_loop (S (List.length s)) fl r by_ None s.

(** [s.split(re)]: at each index the pattern is tried at that index only; a
    match that ends where the current piece starts is skipped.  No pattern
    the source splits on has a capturing group, so no capture is spliced
    into the result. *)
Fixpoint split_loop (fuel : nat) (fl : flags) (r : regex) (prev : option N)
         (piece : str) (s : str) : list str :=
  match fuel with
  | O => [rev piece ++ s]
  | S fuel' =>
      match s with
      | [] => [rev piece]
      | x :: s' =>
          match exec_at fl r prev s with
          | None => split_loop fuel' fl r (Some x) (x :: piece) s'
          | Some (rest, _) =>
              if Nat.eqb (List.length rest) (List.length s) && match piece with [] => true | _ => false end
              then split_loop fuel' fl r (Some x) (x :: piece) s'
              else rev piece ::
                   split_loop fuel' fl r
                     (last_of prev (firstn (List.length s - List.length rest) s)) [] rest
          end
      end
  end.

Definition split_re (fl : flags) (r : regex) (s : str) : list str :=
  match s with
  | [] => match exec_at fl r None [] with Some _ => [] | None => [[]] end
  | _ => split_loop (2 * List.length s + 2) fl r None [] s
  end.

(** *** Writing patterns *)

Definition ch (s : string) : N := hd 0 (js s).

Definition lit (s : string) : regex :=
  fold_right (fun c r => RSeq (RChar c) r) REmpty (js s).

Definition seq (rs : list regex) : regex := fold_right RSeq REmpty rs.

Fixpoint alt (rs : list regex) : regex :=
  match rs with
  | [] => REmpty
  | [r] => r
  | r :: rs' => RAlt r (alt rs')
  end.

Definition star (r : regex) : regex := RRep 0 None true r.
Definition plus (r : regex) : regex := RRep 1 None true r.
Definition opt (r : regex) : regex := RRep 0 (Some 1%nat) true r.
Definition lazy_star (r : regex) : regex := RRep 0 None false r.

(** The literal members of a character class *)
Definition chars (s : string) : list citem := map CChar (js s).

Definition one_of (items : list citem) : regex := RSet false items.
Definition none_of (items : list citem) : regex := RSet true items.

Definition ws : regex := one_of [CSpace].
Definition digit : regex := one_of [CDigit].
Definition not_newline : regex := none_of [CChar LF].
(** [[\s\S]], any code unit *)
Definition any : regex := one_of [CSpace; CNotSpace].

(** A word with an optional final letter, as in [instructions?] *)
Definition word_opt (w last : string) : regex := RSeq (lit w) (opt (lit last)).

(** ** Exceptions

    A JavaScript call either returns or throws; the importer can throw a
    [SyntaxError] (from [JSON.parse]) or a [TypeError] (a property read on
    [undefined] or [null], a call of something that is not a function). *)

Inductive exn : Type := TypeError | SyntaxError.

Inductive res (A : Type) : Type :=
| Ok (a : A)
| Throw (e : exn).

Arguments Ok {A} a.
Arguments Throw {A} e.

Definition bind {A B : Type} (m : res A) (f : A -> res B) : res B :=
  match m with
  | Ok a => f a
  | Throw e => Throw e
  end.

Notation "x <- m ;; k" := (bind m (fun x => k))
  (at level 61, m at next level, right associativity).

Definition res_map {A B : Type} (f : A -> B) (m : res A) : res B :=
  x <- m ;; Ok (f x).

(** [match[i].m()] : reading group [i] of a match and calling a method on
    it throws when the group did not take part in the match. *)
Definition group (i : nat) (f : found) : res str :=
  match cap i (groups f) with
  | Some s => Ok s
  | None => Throw TypeError
  end.

(** ** Values and the host

    [jsval] is the part of the JavaScript value universe that
    [JSON.parse] produces and [JSON.stringify] consumes, with [undefined]
    for absent properties.  An object is its list of own properties, as
    [JSON.parse] leaves them: distinct keys. *)

#[warnings="-register-all"] Inductive jsval (number : Type) : Type :=
| JUndefined
| JNull
| JBool (b : bool)
| JNum (n : number)
| JStr (s : str)
| JArr (items : list (jsval number))
| JObj (props : list (str * jsval number)).

Arguments JUndefined {number}.
Arguments JNull {number}.
Arguments JBool {number} b.
Arguments JNum {number} n.
Arguments JStr {number} s.
Arguments JArr {number} items.
Arguments JObj {number} props.

(** What the program takes from its host: numbers (IEEE doubles, kept
    abstract), the Unicode case mappings of [toLowerCase] and [toUpperCase],
    the JSON codec, and the successive values of
    [Date.now() + Math.random()]. *)
Class Host : Type := {
  number : Type;
  num_truthy : number -> bool;
  num_eqb : number -> number -> bool;
  toLowerCase : str -> str;
  toUpperCase : str -> str;
  JSON_parse : str -> option (jsval number);
  JSON_stringify : jsval number -> str;
  clock : nat -> number
}.

(** ** The tag taxonomy ([TAG_CATEGORIES]) *)

Inductive tagCat : Type := type | region | meal | source.

Definition TAG_KEYS : list tagCat := [type; region; meal; source].

Definition key (c : tagCat) : string :=
  match c with
  | type => "type"
  | region => "region"
  | meal => "meal"
  | source => "source"
  end.

Definition options (c : tagCat) : list str :=
  match c with
  | type => map js ["spicy"; "comfort"; "quick"; "few ingredients"; "overnight";
                    "salad"; "slow-cooking"; "oven"; "barbecue"; "big crowd"]%string
  | region => map js ["Asia"; "France"; "Latin America"; "North America"; "Italy";
                      "Middle East"; "Other"]%string
  | meal => map js ["brekkie"; "lunch/dinner"; "snack"; "dessert"]%string
  | source => map js ["Ottolenghi"; "Jamie Oliver"; "family"; "Other"]%string
  end.

Record tagset : Type := Tags {
  tags_type : list str;
  tags_region : list str;
  tags_meal : list str;
  tags_source : list str
}.

Definition no_tags : tagset := Tags [] [] [] [].

(** [tags[c]] and [tags[c] = v] *)
Definition tags_get (t : tagset) (c : tagCat) : list str :=
  match c with
  | type => tags_type t
  | region => tags_region t
  | meal => tags_meal t
  | source => tags_source t
  end.

Definition tags_set (t : tagset) (c : tagCat) (v : list str) : tagset :=
  match c with
  | type => Tags v (tags_region t) (tags_meal t) (tags_source t)
  | region => Tags (tags_type t) v (tags_meal t) (tags_source t)
  | meal => Tags (tags_type t) (tags_region t) v (tags_source t)
  | source => Tags (tags_type t) (tags_region t) (tags_meal t) v
  end.

(** ** Recipes *)

(** A recipe id is a number (made by the parser) or a string (given by the
    store). *)
Inductive ident (number : Type) : Type :=
| IdNum (n : number)
| IdStr (s : str).

Record recipe (number : Type) : Type := Recipe {
  id : ident number;
  title : str;
  category : str;
  servings : str;
  ingredients : list str;
  instructions : str;
  notes : str;
  tags : tagset
}.

Arguments IdNum {number} n.
Arguments IdStr {number} s.
Arguments Recipe {number} id title category servings ingredients instructions notes tags.
Arguments id {number} r.
Arguments title {number} r.
Arguments category {number} r.
Arguments servings {number} r.
Arguments ingredients {number} r.
Arguments instructions {number} r.
Arguments notes {number} r.
Arguments tags {number} r.

(** ** The block parser ([parseRecipeBlock]) *)

Section Parser.
Context `{Host}.

(** [block.split('\n').map(l => l.trim()).filter(l => l)] *)
Definition block_lines (block : str) : list str :=
  filter truthy (map trim (split_chr LF block)).

(** *** Title extraction *)

(** [/^[=#*\-\s═]+/] *)
Definition re_title_lead : regex := seq [RBol; plus (one_of (chars "=#*-═" ++ [CSpace]))].
(** [/[=#*\-═]+$/] *)
Definition re_title_trail : regex := seq [plus (one_of (chars "=#*-═")); REol].

Definition title_case (w : str) : str := charAt0 w ++ toLowerCase (slice1 w).

Definition clean_title (line : str) : str :=
  let s := replace no_flags re_title_lead [] line in
  let s := replace no_flags re_title_trail [] s in
  let s := replaceAll no_flags (lit "**") [] s in
  let s := replaceAll no_flags (lit "__") [] s in
  let s := toUpperCase (trim s) in
  join (js " ") (map title_case (split_chr 32 s)).

Definition title_ok (cleaned : str) : bool :=
  (3 <=? List.length cleaned)%nat && (List.length cleaned <=? 100)%nat
  && negb (includes (toLowerCase cleaned) (js "ingredient"))
  && negb (includes (toLowerCase cleaned) (js "instructions"))
  && negb (includes (toLowerCase cleaned) (js "serves")).

(** The loop over [lines[0 .. min(5, lines.length) - 1]]: the first cleaned
    line that qualifies, the empty string when none does. *)
Fixpoint first_title (candidates : list str) : str :=
  match candidates with
  | [] => []
  | line :: rest =>
      if title_ok (clean_title line) then clean_title line else first_title rest
  end.

Definition extract_title (lines : list str) : str := first_title (firstn 5 lines).

(** *** Category detection *)

Inductive category_rule : Type :=
| Direct
| Keyword (category : string).

Definition categoryPatterns : list (regex * category_rule) :=
  [ (seq [lit "category"; plus (one_of [CChar (ch ":"); CSpace]);
          RGroup 1 (plus (one_of [CRange (ch "a") (ch "z"); CRange (ch "A") (ch "Z"); CSpace]))],
     Direct);
    (alt [lit "breakfast"; lit "brekkie"], Keyword "Breakfast");
    (alt [lit "dessert"; lit "sweet"; lit "cake"; lit "cookie"], Keyword "Dessert");
    (alt [lit "soup"; lit "stew"; lit "broth"], Keyword "Soup");
    (lit "salad", Keyword "Salad");
    (alt [lit "snack"; lit "appetizer"; lit "starter"], Keyword "Snack");
    (alt [lit "drink"; lit "beverage"; lit "smoothie"], Keyword "Drink") ].

Fixpoint detect_category (patterns : list (regex * category_rule)) (block : str)
  : res str :=
  match patterns with
  | [] => Ok (js "Main")
  | (pattern, rule) :: rest =>
      match str_match flag_i pattern block with
      | Some m =>
          match rule with
          | Direct => c <- group 1 m ;; Ok (trim c)
          | Keyword cat => Ok (js cat)
          end
      | None => detect_category rest block
      end
  end.

(** *** Servings extraction *)

Definition servingsPatterns : list (flags * regex) :=
  [ (flag_i,
     seq [alt [word_opt "serve" "s"; word_opt "serving" "s"; word_opt "make" "s";
               word_opt "yield" "s"];
          plus (one_of [CChar (ch ":"); CSpace]);
          RGroup 1 (plus not_newline)]);
    (flag_i,
     seq [alt [lit "for"; word_opt "feed" "s"];
          plus (one_of [CChar (ch ":"); CSpace]);
          RGroup 1 (seq [plus digit; star ws;
                         alt [lit "people"; word_opt "person" "s"; word_opt "serving" "s"]])]) ].

(** A loop over patterns that keeps the trimmed group 1 of the first one
    that matches, or [dflt]. *)
Fixpoint first_group (patterns : list (flags * regex)) (dflt : str) (block : str)
  : res str :=
  match patterns with
  | [] => Ok dflt
  | (fl, pattern) :: rest =>
      match str_match fl pattern block with
      | Some m => s <- group 1 m ;; Ok (trim s)
      | None => first_group rest dflt block
      end
  end.

(** *** Tag extraction *)

(** [new RegExp(`${tagCat}[:\\s]+([^\n]+)`, 'i')] *)
Definition re_tag (c : tagCat) : regex :=
  seq [lit (key c); plus (one_of [CChar (ch ":"); CSpace]); RGroup 1 (plus not_newline)].

Definition is_option (c : tagCat) (t : str) : bool :=
  existsb (fun opt => str_eqb (toLowerCase opt) t) (options c).

(** [V] is an option of category [c], as written or in lower case. *)
Definition option_up_to_case (c : tagCat) (V : str) : Prop :=
  exists opt, In opt (options c) /\ (V = opt \/ V = toLowerCase opt).

(** The body of the [forEach] over the category keys. *)
Definition extract_tag (block : str) (tags : tagset) (c : tagCat) : res tagset :=
  tags1 <-
    match str_match flag_i (re_tag c) block with
    | Some m =>
        g <- group 1 m ;;
        let foundTags :=
          map (fun t => toLowerCase (trim t)) (split_re no_flags (one_of (chars ",|")) g) in
        Ok (tags_set tags c (filter (is_option c) foundTags))
    | None => Ok tags
    end ;;
  match tags_get tags1 c with
  | [] =>
      let blockLower := toLowerCase block in
      Ok (tags_set tags1 c
            (tags_get tags1 c ++
             filter (fun option => includes blockLower (toLowerCase option)) (options c)))
  | _ => Ok tags1
  end.

Fixpoint forEach_tag (block : str) (tags : tagset) (cs : list tagCat) : res tagset :=
  match cs with
  | [] => Ok tags
  | c :: rest => tags' <- extract_tag block tags c ;; forEach_tag block tags' rest
  end.

Definition extract_tags (block : str) : res tagset := forEach_tag block no_tags TAG_KEYS.

(** *** Ingredients extraction *)

(** [\n\s*(?:h1|h2|...)\s*[:|\n]], the line of a section header *)
Definition header_line (headers : list regex) : regex :=
  seq [RChar LF; star ws; alt headers; star ws; one_of (chars ":|" ++ [CChar LF])].

Definition instruction_headers : list regex :=
  [word_opt "instruction" "s"; word_opt "direction" "s"; word_opt "step" "s";
   lit "method"; lit "preparation"].

Definition note_headers : list regex := [word_opt "note" "s"; word_opt "tip" "s"].

Definition serving_headers : list regex := [word_opt "serve" "s"; word_opt "make" "s"].

(** [head[:\s]*\n+([\s\S]*?)(?=\n\s*(?:stops)\s*[:|\n]|$)] *)
Definition section_re (head : regex) (stops : list regex) : regex :=
  seq [head; star (one_of [CChar (ch ":"); CSpace]); plus (RChar LF);
       RGroup 1 (lazy_star any);
       RLook (alt [header_line stops; REol])].

Definition re_ingredients : regex :=
  section_re (word_opt "ingredient" "s")
             (instruction_headers ++ note_headers ++ serving_headers).

Definition re_youll_need : regex :=
  section_re (seq [lit "you"; alt [lit "'ll"; lit " will"]; lit " need"])
             (instruction_headers ++ note_headers).

Definition re_what_you_need : regex :=
  section_re (lit "what you need") (instruction_headers ++ note_headers).

Definition bullets : list citem := chars "•*◦○▪▫●➤➢▸►▹".

(** [/((?:^|\n)[\s\-•*◦○▪▫●➤➢▸►▹][\s]*[^\n]+)+(?=\n\s*(?:...)\s*[:|\n])/im] *)
Definition re_list : regex :=
  seq [plus (RGroup 1 (seq [alt [RBol; RChar LF];
                            one_of (CSpace :: CChar (ch "-") :: bullets);
                            star ws; plus not_newline]));
       RLook (header_line instruction_headers)].

(** [/^[\s\-•*◦○▪▫●➤➢▸►▹\d.)\]]+/] *)
Definition re_marker : regex :=
  seq [RBol; plus (one_of (CSpace :: CChar (ch "-") :: bullets ++ CDigit :: chars ".)]"))].

(** [/^[\d]+\s*[\/.\s]*[\d]*/] *)
Definition re_quantity : regex :=
  seq [RBol; plus digit; star ws; star (one_of (chars "/." ++ [CSpace])); star digit].

(** [/^(ingredients?|you('ll| will) need|for the|topping|what you need)[:]*$/] *)
Definition re_ingredient_header : regex :=
  seq [RBol;
       RGroup 1 (alt [word_opt "ingredient" "s";
                      seq [lit "you"; RGroup 2 (alt [lit "'ll"; lit " will"]); lit " need"];
                      lit "for the"; lit "topping"; lit "what you need"]);
       star (RChar (ch ":")); REol].

Definition clean_ingredient (line : str) : str :=
  trim (replace no_flags re_quantity [] (replace no_flags re_marker [] line)).

Definition keep_ingredient (line : str) : bool :=
  let lower := toLowerCase line in
  (1 <? List.length line)%nat && (List.length line <? 200)%nat
  && negb (test no_flags re_ingredient_header lower).

(** The chain of [if (!ingMatch)]: the text of the ingredient section, if
    one is found. *)
Definition find_ingredients (block : str) : option (res str) :=
  match str_match flag_i re_ingredients block with
  | Some m => Some (group 1 m)
  | None =>
  match str_match flag_i re_youll_need block with
  | Some m => Some (group 1 m)
  | None =>
  match str_match flag_i re_what_you_need block with
  | Some m => Some (group 1 m)
  | None =>
  match str_match flag_im re_list block with
  | Some listMatch => Some (Ok (matched listMatch))
  | None => None
  end end end end.

Definition extract_ingredients (block : str) : res (list str) :=
  match find_ingredients block with
  | Some ingMatch1 =>
      span <- ingMatch1 ;;
      Ok (filter keep_ingredient (map clean_ingredient (split_chr LF span)))
  | None => Ok []
  end.

(** *** Instructions extraction *)

Definition instrPatterns : list regex :=
  [ section_re (alt instruction_headers)
               (note_headers
                ++ [seq [lit "chef"; opt (lit "'"); opt (lit "s"); lit " "; word_opt "note" "s"]]
                ++ serving_headers);
    section_re (alt [lit "how to make"; lit "to prepare"; lit "what to do"])
               (note_headers ++ serving_headers) ].

(** [/^\d+[\.\)]\s*/g] *)
Definition re_step_number : regex := seq [RBol; plus digit; one_of (chars ".)"); star ws].

Definition tidy_instructions (span : str) : str :=
  let lines := filter (fun line => (0 <? List.length line)%nat)
                      (map trim (split_re no_flags (plus (RChar LF)) span)) in
  let s := join (js " ") lines in
  let s := replaceAll no_flags (plus ws) (js " ") s in
  trim (replaceAll no_flags re_step_number [] s).

(** The loop over [instrPatterns]: it stops at the first pattern that
    matches, whatever text that leaves. *)
Fixpoint find_instructions (patterns : list regex) (block : str) : res str :=
  match patterns with
  | [] => Ok []
  | pattern :: rest =>
      match str_match flag_i pattern block with
      | Some m => span <- group 1 m ;; Ok (tidy_instructions span)
      | None => find_instructions rest block
      end
  end.

(** [/ingredients?[:\s]*\n/i] *)
Definition re_after_ingredients : regex :=
  seq [word_opt "ingredient" "s"; star (one_of [CChar (ch ":"); CSpace]); RChar LF].

(** [/^[\s\-•*◦○▪▫●]/] *)
Definition re_still_bullet : regex :=
  seq [RBol; one_of (CSpace :: CChar (ch "-") :: chars "•*◦○▪▫●")].

(** The lines after the ingredients header that are neither bullets nor
    blank, trimmed. *)
Definition remaining_lines (afterIngredients : str) : list str :=
  filter (fun line => (0 <? List.length line)%nat)
    (map trim
       (filter (fun line => negb (test no_flags re_still_bullet (trim line)))
               (split_chr LF afterIngredients))).

(** [if (!instructions && ingredients.length > 0) { ... }] *)
Definition fallback_instructions (block : str) (ingredients : list str)
           (instructions : str) : str :=
  if negb (truthy instructions) && (0 <? List.length ingredients)%nat then
    match nth_error (split_re flag_i re_after_ingredients block) 1 with
    | Some afterIngredients =>
        if truthy afterIngredients then
          match remaining_lines afterIngredients with
          | [] => instructions
          | instrLines =>
              trim (replaceAll no_flags (plus ws) (js " ") (join (js " ") instrLines))
          end
        else instructions
    | None => instructions
    end
  else instructions.

(** *** Notes extraction *)

Definition notesPatterns : list (flags * regex) :=
  [ (flag_i,
     seq [alt [word_opt "note" "s"; word_opt "tip" "s";
               seq [lit "chef"; opt (lit "'"); opt (lit "s"); lit " "; word_opt "note" "s"]];
          star (one_of [CChar (ch ":"); CSpace]);
          RGroup 1 (plus RDot)]);
    (no_flags, seq [lit "💡"; star ws; RGroup 1 (plus RDot)]) ].

Definition extract_notes (block : str) : res str := first_group notesPatterns [] block.

(** *** The parser *)

Definition NO_INSTRUCTIONS : str := js "No instructions provided".

(** [parseRecipeBlock(block)]; [now] is the value of
    [Date.now() + Math.random()] when the record is built. *)
Definition parseRecipeBlock (now : number) (block : str) : res (option (recipe number)) :=
  let lines := block_lines block in
  if (List.length lines <? 3)%nat then Ok None else
  let title := extract_title lines in
  if negb (truthy title) then Ok None else
  category <- detect_category categoryPatterns block ;;
  servings <- first_group servingsPatterns [] block ;;
  tags <- extract_tags block ;;
  ingredients <- extract_ingredients block ;;
  found_instructions <- find_instructions instrPatterns block ;;
  let instructions := fallback_instructions block ingredients found_instructions in
  notes <- extract_notes block ;;
  if truthy title && (0 <? List.length ingredients)%nat then
    Ok (Some (Recipe (IdNum now) title category servings ingredients
                     (if truthy instructions then instructions else NO_INSTRUCTIONS)
                     notes tags))
  else Ok None.

(** ** The block splitter and the text import path ([parseText]) *)

(** [text.replace(/\r\n/g, '\n').replace(/\r/g, '\n').replace(/\n{4,}/g, '\n\n\n')] *)
Definition normalize (text : str) : str :=
  let text := replaceAll no_flags (RChar CR) [LF] (replaceAll no_flags (seq [RChar CR; RChar LF]) [LF] text) in
  replaceAll no_flags (RRep 4 None true (RChar LF)) [LF; LF; LF] text.

(** 1. [/\n\s*[=\-*]{5,}\s*\n/] *)
Definition re_separator : regex :=
  seq [RChar LF; star ws; RRep 5 None true (one_of (chars "=-*")); star ws; RChar LF].

(** 2. [/\n\n+(?=[A-Z][A-Za-z\s]{3,50}(?:\n|$))/] *)
Definition re_blank_then_title : regex :=
  seq [RChar LF; plus (RChar LF);
       RLook (seq [one_of [CRange (ch "A") (ch "Z")];
                   RRep 3 (Some 50%nat) true
                        (one_of [CRange (ch "A") (ch "Z"); CRange (ch "a") (ch "z"); CSpace]);
                   alt [RChar LF; REol]])].

(** 3. [/(?:^|\n)#{1,3}\s+/] *)
Definition re_heading : regex :=
  seq [alt [RBol; RChar LF]; RRep 1 (Some 3%nat) true (RChar (ch "#")); plus ws].

(** [if (blocks.length === 1) blocks = text.split(re)] *)
Definition split_if_single (re : regex) (text : str) (blocks : list str) : list str :=
  if Nat.eqb (List.length blocks) 1 then split_re no_flags re text else blocks.

Definition split_blocks (text : str) : list str :=
  let blocks := split_re no_flags re_separator text in
  let blocks := split_if_single re_blank_then_title text blocks in
  split_if_single re_heading text blocks.

Definition MIN_BLOCK_LENGTH : nat := 30.

(** [blocks.map(b => b.trim()).filter(b => b.length > 30)] *)
Definition candidate_blocks (text : str) : list str :=
  filter (fun b => (MIN_BLOCK_LENGTH <? List.length b)%nat)
         (map trim (split_blocks (normalize text))).

(** The loop over the blocks, for any block parser: [n] counts the records
    built so far, each of which read the clock once. *)
Fixpoint parse_blocks (parser : number -> str -> res (option (recipe number))) (n : nat)
         (blocks : list str) : res (list (recipe number)) :=
  match blocks with
  | [] => Ok []
  | block :: rest =>
      r <- parser (clock n) block ;;
      match r with
      | Some recipe =>
          recipes <- parse_blocks parser (S n) rest ;; Ok (recipe :: recipes)
      | None => parse_blocks parser n rest
      end
  end.

Definition parseText_with (parser : number -> str -> res (option (recipe number))) (text : str)
  : res (list (recipe number)) :=
  parse_blocks parser 0 (candidate_blocks text).

Definition parseText (text : str) : res (list (recipe number)) :=
  parseText_with parseRecipeBlock text.

End Parser.

(** ** The older splitter

    The repository keeps an earlier [parseText] next to the current one: a
    single pass over one pattern with four alternatives, and a higher length
    threshold. *)

Module Legacy.
Section Splitter.
Context `{Host}.

(** [/\n{2,}(?=[A-Z])|(?:^|\n)={3,}|(?:^|\n)-{3,}|(?:^|\n)#{1,2}\s+/] *)
Definition re_split : regex :=
  alt [seq [RRep 2 None true (RChar LF); RLook (one_of [CRange (ch "A") (ch "Z")])];
       seq [alt [RBol; RChar LF]; RRep 3 None true (RChar (ch "="))];
       seq [alt [RBol; RChar LF]; RRep 3 None true (RChar (ch "-"))];
       seq [alt [RBol; RChar LF]; RRep 1 (Some 2%nat) true (RChar (ch "#")); plus ws]].

Definition normalize (text : str) : str :=
  replaceAll no_flags (RChar CR) [LF] (replaceAll no_flags (seq [RChar CR; RChar LF]) [LF] text).

Definition MIN_BLOCK_LENGTH : nat := 50.

Definition candidate_blocks (text : str) : list str :=
  filter (fun b => (MIN_BLOCK_LENGTH <? List.length b)%nat)
         (map trim (split_re no_flags re_split (normalize text))).

Definition parseText_with (parser : number -> str -> res (option (recipe number))) (text : str)
  : res (list (recipe number)) :=
  parse_blocks parser 0 (candidate_blocks text).

End Splitter.
End Legacy.

(** What an import handler reports; [Imported] carries the records whose
    number the status shows. *)
Inductive importStatus (number : Type) : Type :=
| Imported (recipes : list (jsval number))
| NoRecipesFound
| CouldNotParse.

Arguments Imported {number} recipes.
Arguments NoRecipesFound {number}.
Arguments CouldNotParse {number}.

(** ** The JSON paths ([toJSON], [parseJSON]) *)

Section Json.
Context `{Host}.

Definition value : Type := jsval number.

(** The truth value of a value, as [||] sees it *)
Definition js_truthy (v : value) : bool :=
  match v with
  | JUndefined | JNull => false
  | JBool b => b
  | JNum n => num_truthy n
  | JStr s => truthy s
  | JArr _ | JObj _ => true
  end.

Definition or_default (v dflt : value) : value := if js_truthy v then v else dflt.

Fixpoint lookup (k : str) (props : list (str * value)) : value :=
  match props with
  | [] => JUndefined
  | (k', v) :: rest => if str_eqb k k' then v else lookup k rest
  end.

(** [v[k]] where [v] is any value and [k] is none of the names the
    prototypes define: [undefined] unless [v] is an object that has [k];
    reading a property of [null] or [undefined] throws. *)
Definition prop (v : value) (k : string) : res value :=
  match v with
  | JUndefined | JNull => Throw TypeError
  | JObj props => Ok (lookup (js k) props)
  | _ => Ok JUndefined
  end.

(** The same read where it cannot throw, for stating properties of
    records. *)
Definition field (k : string) (v : value) : value :=
  match v with
  | JObj props => lookup (js k) props
  | _ => JUndefined
  end.

Definition strings (l : list str) : value := JArr (map JStr l).

Definition tags_value (t : tagset) : value :=
  JObj (map (fun c => (js (key c), strings (tags_get t c))) TAG_KEYS).

Definition ident_value (i : ident number) : value :=
  match i with
  | IdNum n => JNum n
  | IdStr s => JStr s
  end.

(** A recipe as the JavaScript object it is *)
Definition recipe_value (r : recipe number) : value :=
  JObj [ (js "id", ident_value (id r));
         (js "title", JStr (title r));
         (js "category", JStr (category r));
         (js "servings", JStr (servings r));
         (js "ingredients", strings (ingredients r));
         (js "instructions", JStr (instructions r));
         (js "notes", JStr (notes r));
         (js "tags", tags_value (tags r)) ].


(** [Array.isArray(r.ingredients) ? r.ingredients
     : (r.ingredients || '').split(',').map(i => i.trim())] *)
Definition import_ingredients (v : value) : res value :=
  match v with
  | JArr _ => Ok v
  | _ =>
      match or_default v (JStr []) with
      | JStr s => Ok (strings (map trim (split_chr (ch ",") s)))
      | _ => Throw TypeError
      end
  end.

(** The object literal that [parseJSON] maps every element to. *)
Definition import_record (now : number) (r : value) : res value :=
  title <- prop r "title" ;;
  category <- prop r "category" ;;
  servings <- prop r "servings" ;;
  ingredients <- prop r "ingredients" ;;
  ingredients <- import_ingredients ingredients ;;
  instructions <- prop r "instructions" ;;
  notes <- prop r "notes" ;;
  tags <- prop r "tags" ;;
  Ok (JObj [ (js "id", JNum now);
             (js "title", or_default title (JStr (js "Untitled Recipe")));
             (js "category", or_default category (JStr (js "Main")));
             (js "servings", or_default servings (JStr []));
             (js "ingredients", ingredients);
             (js "instructions", or_default instructions (JStr []));
             (js "notes", or_default notes (JStr []));
             (js "tags", or_default tags (tags_value no_tags)) ]).

Fixpoint import_records (n : nat) (recipes : list value) : res (list value) :=
  match recipes with
  | [] => Ok []
  | r :: rest =>
      o <- import_record (clock n) r ;;
      os <- import_records (S n) rest ;;
      Ok (o :: os)
  end.

Definition parseJSON (text : str) : res (list value) :=
  match JSON_parse text with
  | None => Throw SyntaxError
  | Some data =>
      let recipes := match data with JArr items => items | _ => [data] end in
      import_records 0 recipes
  end.

(** ** The importer ([handleImport])

    The file import handler: the sign-in guard, the choice of the path,
    the writes to the store, and the status it reports. *)

Definition sniff_json (content : str) : bool :=
  let trimmed := trim content in
  startsWith trimmed (js "[") || startsWith trimmed (js "{").

Definition import_payload (content : str) : res (list value) :=
  if sniff_json content then parseJSON content
  else recipes <- parseText content ;; Ok (map recipe_value recipes).

(** The validation invariant of a record: a title that is a non-empty
    string, ingredients that are a non-empty list. *)
Definition valid_record (v : value) : Prop :=
  (exists t, field "title" v = JStr t /\ t <> [])
  /\ (exists items, field "ingredients" v = JArr items /\ items <> []).


(** The loop that follows a non-empty import: one [add] to the store per
    record, in order.  [accepted n] is whether the store takes the [n]-th
    document of the import; [await] throws at the first one it refuses, and
    the records after it are not sent. *)
Fixpoint add_to_store (accepted : nat -> bool) (n : nat) (imported : list value) : bool :=
  match imported with
  | [] => true
  | _ :: rest => accepted n && add_to_store accepted (S n) rest
  end.

(** The [try] block of an import handler once the parser has run:
    whatever is thrown in it, by the parser or by the store, is caught and
    reported as a parse failure. *)
Definition import_report (payload : res (list value)) (accepted : nat -> bool)
  : importStatus number :=
  match payload with
  | Throw _ => CouldNotParse
  | Ok [] => NoRecipesFound
  | Ok imported =>
      if add_to_store accepted 0 imported then Imported imported else CouldNotParse
  end.

(** [handleImport] on a file whose text is [content].  [user] is the id of
    the signed-in user; when nobody is signed in the handler asks for the
    sign-in, reads nothing and sets no status. *)
Definition handleImport (user : option str) (accepted : nat -> bool) (content : str)
  : option (importStatus number) :=
  match user with
  | None => None
  | Some _ => Some (import_report (import_payload content) accepted)
  end.

End Json.

(** ** The similarity engine ([findSimilarRecipes]) *)

Record scored (number : Type) : Type := Scored {
  scored_recipe : recipe number;
  similarity : Q;
  sharedCount : nat;
  sharedIngredients : list str
}.

Arguments Scored {number} scored_recipe similarity sharedCount sharedIngredients.
Arguments scored_recipe {number} s.
Arguments similarity {number} s.
Arguments sharedCount {number} s.
Arguments sharedIngredients {number} s.

Section Similarity.
Context `{Host}.

(** [a === b] on ids *)
Definition ident_eqb (a b : ident number) : bool :=
  match a, b with
  | IdNum x, IdNum y => num_eqb x y
  | IdStr x, IdStr y => str_eqb x y
  | _, _ => false
  end.

Definition has (set : list str) (x : str) : bool := existsb (str_eqb x) set.

(** [new Set(l)] as the list of its elements in insertion order *)
Fixpoint new_Set (l : list str) : list str :=
  match l with
  | [] => []
  | x :: l' => x :: filter (fun y => negb (str_eqb x y)) (new_Set l')
  end.


(** The score is a quotient of two list lengths; a double holds it to the
    nearest representable value, which orders the quotients as the
    rationals do. *)
Definition score (recipeIngredients : list str) (r : recipe number) : scored number :=
  let otherIngredients := map toLowerCase (ingredients r) in
  let sharedCount := List.length (filter (has recipeIngredients) otherIngredients) in
  let totalUnique := List.length (new_Set (recipeIngredients ++ otherIngredients)) in
  let similarity :=
    if (0 <? totalUnique)%nat
    then Qmake (Z.of_nat sharedCount) (Pos.of_nat totalUnique)
    else 0%Q in
  Scored r similarity sharedCount (filter (has recipeIngredients) otherIngredients).

(** [l.sort((a, b) => b.similarity - a.similarity)]: [sort] is stable, so
    the result is that of inserting each item before the first one that
    does not score higher. *)
Fixpoint insert_desc (x : scored number) (l : list (scored number)) : list (scored number) :=
  match l with
  | [] => [x]
  | y :: l' =>
      if Qle_bool (similarity y) (similarity x) then x :: l
      else y :: insert_desc x l'
  end.

Definition sort_desc (l : list (scored number)) : list (scored number) :=
  fold_right insert_desc [] l.

Definition DEFAULT_MAX_RESULTS : nat := 4.

Definition findSimilarRecipes (recipe_ : option (recipe number))
           (allRecipes : list (recipe number)) (maxResults : nat) : list (scored number) :=
  match recipe_ with
  | None => []
  | Some recipe =>
      if Nat.eqb (List.length allRecipes) 0 then [] else
      let recipeIngredients := new_Set (map toLowerCase (ingredients recipe)) in
      firstn maxResults
        (sort_desc
           (filter (fun item => (2 <=? sharedCount item)%nat)
              (map (score recipeIngredients)
                 (filter (fun r => negb (ident_eqb (id r) (id recipe))) allRecipes))))
  end.

(** *** The score in the words of the specification

    Follows the specification: the two ingredient sets are compared without
    regard to case; the shared count is the size of their intersection, the
    score that size over the size of their union, 0 when the union is
    empty. *)

Definition ingredient_set (r : recipe number) : list str :=
  new_Set (map toLowerCase (ingredients r)).

Definition intersection_size (a b : list str) : nat := List.length (filter (has a) b).

Definition union_size (a b : list str) : nat := List.length (new_Set (a ++ b)).

Definition jaccard (a b : list str) : Q :=
  if (0 <? union_size a b)%nat
  then Qmake (Z.of_nat (intersection_size a b)) (Pos.of_nat (union_size a b))
  else 0%Q.

(** [a] comes no later than [b] in the ranking. *)
Definition ranks_before (a b : scored number) : Prop := (similarity b <= similarity a)%Q.

End Similarity.

(** ** The recipe list ([categories], [filteredRecipes], [toggleTagFilter])

    What the list view shows, as a function of the recipes and of the three
    filters of the component state; the recipes are records whose fields
    have the types the text path gives them. *)

Section View.
Context `{Host}.

(** [l.includes(x)] on an array of strings *)
Definition arr_includes (l : list str) (x : str) : bool := existsb (str_eqb x) l.

Definition ALL : str := js "All".

(** [['All', ...new Set(recipes.map(r => r.category))]] *)
Definition categories (recipes : list (recipe number)) : list str :=
  ALL :: new_Set (map category recipes).

(** [Object.values(activeTagFilters).some(arr => arr.length > 0)] *)
Definition hasActiveFilters (activeTagFilters : tagset) : bool :=
  existsb (fun c => (0 <? List.length (tags_get activeTagFilters c))%nat) TAG_KEYS.

(** [Object.values(activeTagFilters).flat().length] *)
Definition activeFilterCount (activeTagFilters : tagset) : nat :=
  List.length (List.concat (map (tags_get activeTagFilters) TAG_KEYS)).

Definition matchesSearch (searchQuery : str) (recipe : recipe number) : bool :=
  str_eqb searchQuery []
  || includes (toLowerCase (title recipe)) (toLowerCase searchQuery)
  || existsb (fun ing => includes (toLowerCase ing) (toLowerCase searchQuery))
             (ingredients recipe)
  || includes (toLowerCase (category recipe)) (toLowerCase searchQuery).

Definition matchesCategory (selectedCategory : str) (recipe : recipe number) : bool :=
  str_eqb selectedCategory ALL || str_eqb (category recipe) selectedCategory.

(** The body of the [every] over the entries of [activeTagFilters] *)
Definition matchesTagCategory (activeTagFilters : tagset) (recipe : recipe number)
           (category : tagCat) : bool :=
  let selectedTags := tags_get activeTagFilters category in
  if Nat.eqb (List.length selectedTags) 0 then true
  else
    let recipeTags := tags_get (tags recipe) category in
    existsb (fun tag => arr_includes recipeTags tag) selectedTags.

Definition matchesTags (activeTagFilters : tagset) (recipe : recipe number) : bool :=
  forallb (matchesTagCategory activeTagFilters recipe) TAG_KEYS.

Definition filteredRecipes (recipes : list (recipe number)) (searchQuery selectedCategory : str)
           (activeTagFilters : tagset) : list (recipe number) :=
  filter (fun recipe =>
            matchesSearch searchQuery recipe
            && matchesCategory selectedCategory recipe
            && matchesTags activeTagFilters recipe)
         recipes.

(** [current.includes(tag) ? current.filter(t => t !== tag) : [...current, tag]] *)
Definition toggle (tag : str) (current : list str) : list str :=
  if arr_includes current tag
  then filter (fun t => negb (str_eqb t tag)) current
  else current ++ [tag].

(** The state update of [toggleTagFilter(category, tag)] *)
Definition toggleTagFilter (category : tagCat) (tag : str) (prev : tagset) : tagset :=
  tags_set prev category (toggle tag (tags_get prev category)).

(** The three filters of the component state *)
Record filters : Type := Filters {
  searchQuery : str;
  selectedCategory : str;
  activeTagFilters : tagset
}.

(** The state that [clearAllFilters] sets, which is also the initial one *)
Definition clearAllFilters : filters := Filters [] ALL no_tags.

Definition shown (recipes : list (recipe number)) (f : filters) : list (recipe number) :=
  filteredRecipes recipes (searchQuery f) (selectedCategory f) (activeTagFilters f).

End View.

(** ** The recipe form ([handleAddRecipe], [handleEditRecipe],
       [handleUpdateRecipe], [handleDeleteRecipe])

    The handlers of the form as functions of the component state.  What
    the store answers is an argument: the id of the new document, or
    whether the write went through. *)

(** A time stamp member: what [serverTimestamp()] returns, a token that
    the store replaces by its own time when it writes the document, or a
    time read from the store. *)
Inductive stamp (number : Type) : Type :=
| ServerTimestamp
| StoreTime (t : number).

Arguments ServerTimestamp {number}.
Arguments StoreTime {number} t.

(** A recipe of the component's list: the fields of a parsed recipe and
    the members that the handlers of the store add.  [servings], [notes],
    [tags] and the members of the store are absent from some records. *)
Module Catalog.

Record recipe (number : Type) : Type := Recipe {
  id : ident number;
  title : str;
  category : str;
  servings : option str;
  ingredients : list str;
  instructions : str;
  notes : option str;
  tags : option tagset;
  createdAt : option (stamp number);
  createdBy : option str;
  updatedAt : option (stamp number)
}.

Arguments Recipe {number} id title category servings ingredients instructions notes tags
  createdAt createdBy updatedAt.
Arguments id {number} r.
Arguments title {number} r.
Arguments category {number} r.
Arguments servings {number} r.
Arguments ingredients {number} r.
Arguments instructions {number} r.
Arguments notes {number} r.
Arguments tags {number} r.
Arguments createdAt {number} r.
Arguments createdBy {number} r.
Arguments updatedAt {number} r.

(** [{ ...r, updatedAt: serverTimestamp() }] *)
Definition stamped {number : Type} (r : recipe number) : recipe number :=
  Recipe (id r) (title r) (category r) (servings r) (ingredients r) (instructions r)
         (notes r) (tags r) (createdAt r) (createdBy r) (Some ServerTimestamp).

End Catalog.

Record form : Type := Form {
  form_title : str;
  form_category : str;
  form_servings : str;
  form_ingredients : str;
  form_instructions : str;
  form_notes : str;
  form_tags : tagset
}.

Definition EMPTY_FORM : form := Form [] (js "Main") [] [] [] [] no_tags.

Record component (number : Type) : Type := Component {
  recipes : list (Catalog.recipe number);
  selectedRecipe : option (Catalog.recipe number);
  newRecipe : form;
  isAddingNew : bool;
  isEditing : bool;
  editingRecipeId : option (ident number)
}.

Arguments Component {number} recipes selectedRecipe newRecipe isAddingNew isEditing
  editingRecipeId.
Arguments recipes {number} c.
Arguments selectedRecipe {number} c.
Arguments newRecipe {number} c.
Arguments isAddingNew {number} c.
Arguments isEditing {number} c.
Arguments editingRecipeId {number} c.

Section Form.
Context `{Host}.

(** [text.split('\n').map(i => i.trim()).filter(i => i)] *)
Definition ingredient_lines (text : str) : list str :=
  filter truthy (map trim (split_chr LF text)).

(** [v || dflt] where [v] is a member that may be absent *)
Definition or_missing {A : Type} (holds : A -> bool) (v : option A) (dflt : A) : A :=
  match v with
  | Some a => if holds a then a else dflt
  | None => dflt
  end.

(** [handleAddRecipe]; [user] is the id of the signed-in user, [docRef]
    the id the store gave the new document, [None] when the store refused
    it. *)
Definition handleAddRecipe (user : option str) (docRef : option str) (st : component number)
  : component number :=
  match user with
  | None => st
  | Some uid =>
      if negb (truthy (trim (form_title (newRecipe st)))) then st else
      let f := newRecipe st in
      match docRef with
      | Some docId =>
          let newRecipeWithId :=
            Catalog.Recipe (IdStr docId) (form_title f) (form_category f)
                           (Some (form_servings f))
                           (ingredient_lines (form_ingredients f)) (form_instructions f)
                           (Some (form_notes f)) (Some (form_tags f))
                           (Some ServerTimestamp) (Some uid) None in
          Component (recipes st ++ [newRecipeWithId]) (selectedRecipe st) EMPTY_FORM false
              (isEditing st) (editingRecipeId st)
      | None => st
      end
  end.

(** [handleDeleteRecipe(id)]; [confirmed] is the answer to the
    confirmation dialog, [deleted] whether the store deleted the
    document. *)
Definition handleDeleteRecipe (user : option str) (confirmed deleted : bool)
           (id_ : ident number) (st : component number) : component number :=
  match user with
  | None => st
  | Some _ =>
      if negb confirmed then st else
      if deleted then
        Component (filter (fun r => negb (ident_eqb (Catalog.id r) id_)) (recipes st)) None
            (newRecipe st) (isAddingNew st) (isEditing st) (editingRecipeId st)
      else st
  end.

(** [handleEditRecipe]: reading a field of [selectedRecipe] throws when no
    recipe is selected; an absent [servings], [notes] or [tags] is given
    its default in the form. *)
Definition handleEditRecipe (user : option str) (st : component number)
  : res (component number) :=
  match user with
  | None => Ok st
  | Some _ =>
      match selectedRecipe st with
      | None => Throw TypeError
      | Some selected =>
          Ok (Component (recipes st) None
                  (Form (Catalog.title selected) (Catalog.category selected)
                        (or_missing truthy (Catalog.servings selected) [])
                        (join [LF] (Catalog.ingredients selected))
                        (Catalog.instructions selected)
                        (or_missing truthy (Catalog.notes selected) [])
                        (or_missing (fun _ => true) (Catalog.tags selected) no_tags))
                  (isAddingNew st) true (Some (Catalog.id selected)))
      end
  end.

(** [r.id === editingRecipeId] *)
Definition is_edited (editing : option (ident number)) (r : Catalog.recipe number) : bool :=
  match editing with
  | Some i => ident_eqb (Catalog.id r) i
  | None => false
  end.

(** [{ ...r, ...updatedRecipe }]: the members of the form and a new
    [updatedAt] over those of [r]; [id], [createdAt] and [createdBy] are
    those of [r]. *)
Definition merge_update (r : Catalog.recipe number) (f : form) : Catalog.recipe number :=
  Catalog.Recipe (Catalog.id r) (form_title f) (form_category f) (Some (form_servings f))
                 (ingredient_lines (form_ingredients f)) (form_instructions f)
                 (Some (form_notes f)) (Some (form_tags f))
                 (Catalog.createdAt r) (Catalog.createdBy r) (Some ServerTimestamp).

(** [handleUpdateRecipe]; [updated] is whether the store updated the
    document. *)
Definition handleUpdateRecipe (user : option str) (updated : bool) (st : component number)
  : component number :=
  match user with
  | None => st
  | Some _ =>
      if negb (truthy (trim (form_title (newRecipe st)))) then st else
      let f := newRecipe st in
      if updated then
        let updatedRecipes :=
          map (fun r => if is_edited (editingRecipeId st) r then merge_update r f else r)
              (recipes st) in
        Component updatedRecipes (selectedRecipe st) EMPTY_FORM (isAddingNew st) false None
      else st
  end.

(** [handlePasteImport]: the file import handler without the choice of
    the path; the pasted text always takes the text path.  The statuses
    are those of the file import, with the word text for the word file in
    their messages. *)
Definition handlePasteImport (user : option str) (accepted : nat -> bool) (pasteText : str)
  : option (importStatus number) :=
  match user with
  | None => None
  | Some _ =>
      Some (import_report (imported <- parseText pasteText ;; Ok (map recipe_value imported))
                          accepted)
  end.

(** An ingredient the form gives back as it took it: not empty, no white
    space at either end, on one line. *)
Definition form_safe (i : str) : bool :=
  truthy i && str_eqb (trim i) i && negb (existsb (N.eqb LF) i).

End Form.

(** The only white space in [s] is the space. *)
Definition plain_spaces (s : str) : Prop :=
  forall c, In c s -> is_space c = true -> c = 32.

(** ** Line ends

    A text as another system writes it: each line feed replaced by
    [line_end], which is a carriage return and a line feed, or a carriage
    return alone. *)

Definition with_line_end (line_end : str) (text : str) : str :=
  flat_map (fun c => if c =? LF then line_end else [c]) text.

(** ** The RTF exporter ([toRTF]) *)

(** [s.replace(re, by)] for a pattern with the [g] flag and a replacement
    that is computed from the matched text, as the replacement pattern
    [$&] asks. *)
Fixpoint replace_loop_with (fuel : nat) (fl : flags) (r : regex) (by_ : str -> str)
         (prev : option N) (s : str) : str :=
  match fuel with
  | O => s
  | S fuel' =>
      match search_from fl r prev [] s with
      | None => s
      | Some f =>
          match matched f, after f with
          | [], [] => before f ++ by_ []
          | [], x :: rest =>
              before f ++ by_ [] ++ x :: replace_loop_with fuel' fl r by_ (Some x) rest
          | m, rest =>
              before f ++ by_ m ++
              replace_loop_with fuel' fl r by_ (last_of prev (before f ++ m)) rest
          end
      end
  end.

Definition replaceAll_with (fl : flags) (r : regex) (by_ : str -> str) (s : str) : str :=
  replace_loop_with (S (List.length s)) fl r by_ None s.

Definition BACKSLASH : N := 92.
Definition OPEN_BRACE : N := 123.
Definition CLOSE_BRACE : N := 125.

(** The code units of the class [[\\{}]] *)
Definition rtf_special (c : N) : bool :=
  (c =? BACKSLASH) || (c =? OPEN_BRACE) || (c =? CLOSE_BRACE).

(** [text.replace(/[\\{}]/g, '\\$&').replace(/\n/g, '\\line ')] *)
Definition escapeRTF (text : str) : str :=
  replaceAll no_flags (RChar LF) (js "\line ")
    (replaceAll_with no_flags (one_of [CChar BACKSLASH; CChar OPEN_BRACE; CChar CLOSE_BRACE])
                     (fun m => BACKSLASH :: m) text).

Section Rtf.
Context `{Host}.

(** [Object.entries(r.tags).filter(([_, tags]) => tags.length > 0)
      .map(([cat, tags]) => `${cat}: ${tags.join(', ')}`).join(' | ')] *)
Definition rtf_tagText (t : tagset) : str :=
  join (js " | ")
       (map (fun cat => js (key cat) ++ js ": " ++ join (js ", ") (tags_get t cat))
            (filter (fun cat => (0 <? List.length (tags_get t cat))%nat) TAG_KEYS)).

(** What the body of [recipes.forEach] appends for one recipe *)
Definition rtf_recipe (r : recipe number) : str :=
  js "\pard\sb400\sa200{\f0\fs36\cf2\b " ++ escapeRTF (title r) ++ js "}\par "
  ++ js "{\f1\fs20\cf1\i " ++ escapeRTF (category r) ++ js "}\par "
  ++ (let tagText := rtf_tagText (tags r) in
      if truthy tagText then js "{\f1\fs18\cf1 " ++ escapeRTF tagText ++ js "}\par " else [])
  ++ js "\par{\f1\fs24\b Ingredients}\par "
  ++ flat_map (fun i => js "{\f1\fs22 \bullet  " ++ escapeRTF i ++ js "}\par ") (ingredients r)
  ++ js "\par{\f1\fs24\b Instructions}\par "
  ++ js "{\f1\fs22 " ++ escapeRTF (instructions r) ++ js "}\par "
  ++ (if truthy (notes r)
      then js "\par{\f1\fs20\cf1\i Note: " ++ escapeRTF (notes r) ++ js "}\par "
      else [])
  ++ js "\par\pard\brdrb\brdrs\brdrw10\brsp20\par ".

Definition toRTF (recipes : list (recipe number)) : str :=
  js "{\rtf1\ansi\deff0 {\fonttbl{\f0 Georgia;}{\f1 Arial;}}"
  ++ js "{\colortbl;\red139\green115\blue85;\red74\green64\blue53;}"
  ++ flat_map rtf_recipe recipes
  ++ js "}".

End Rtf.

(** The group structure of an RTF text: a backslash takes the code unit
    after it with it, [{] opens a group and [}] closes the last one that is
    open.  [rtf_depth d s] is the number of groups open after [s] when [d]
    were open before it; there is none when [s] closes a group that is not
    open or ends on a backslash. *)
Fixpoint rtf_depth (depth : nat) (s : str) : option nat :=
  match s with
  | [] => Some depth
  | c :: s' =>
      if c =? BACKSLASH then
        match s' with
        | _ :: s'' => rtf_depth depth s''
        | [] => None
        end
      else if c =? OPEN_BRACE then rtf_depth (S depth) s'
      else if c =? CLOSE_BRACE then
        match depth with
        | O => None
        | S d => rtf_depth d s'
        end
      else rtf_depth depth s'
  end.

(** ** Links in a text ([linkifyText]) *)

(** [s.split(re)] for a pattern with the capturing groups [1 .. n]: after
    each piece come the captures of the match that ended it, [undefined]
    for a group that took no part in it. *)
Fixpoint split_captures_loop (fuel : nat) (fl : flags) (r : regex) (n : nat)
         (prev : option N) (piece : str) (s : str) : list (option str) :=
  match fuel with
  | O => [Some (rev piece ++ s)]
  | S fuel' =>
      match s with
      | [] => [Some (rev piece)]
      | x :: s' =>
          match exec_at fl r prev s with
          | None => split_captures_loop fuel' fl r n (Some x) (x :: piece) s'
          | Some (rest, cs) =>
              if Nat.eqb (List.length rest) (List.length s)
                 && match piece with [] => true | _ => false end
              then split_captures_loop fuel' fl r n (Some x) (x :: piece) s'
              else Some (rev piece) ::
                   map (fun i => cap i cs) (List.seq 1 n) ++
                   split_captures_loop fuel' fl r n
                     (last_of prev (firstn (List.length s - List.length rest) s)) [] rest
          end
      end
  end.

Definition split_captures (fl : flags) (r : regex) (n : nat) (s : str) : list (option str) :=
  match s with
  | [] => match exec_at fl r None [] with Some _ => [] | None => [Some []] end
  | _ => split_captures_loop (2 * List.length s + 2) fl r n None [] s
  end.

(** [/(https?:\/\/[^\s]+)/g] *)
Definition urlRegex : regex :=
  RGroup 1 (seq [lit "http"; opt (lit "s"); lit "://"; plus (none_of [CSpace])]).

(** An element of the result: a piece of text, or a link whose address and
    whose text are both [href]. *)
Inductive part : Type :=
| Plain (text : str)
| Link (href : str).

Definition part_text (p : part) : str :=
  match p with
  | Plain text => text
  | Link href => href
  end.

(** The body of [parts.map]: [part.match] throws on [undefined]. *)
Definition linkify_part (p : option str) : res part :=
  match p with
  | None => Throw TypeError
  | Some s => Ok (if test no_flags urlRegex s then Link s else Plain s)
  end.

Fixpoint map_res {A B : Type} (f : A -> res B) (l : list A) : res (list B) :=
  match l with
  | [] => Ok []
  | a :: l' => b <- f a ;; bs <- map_res f l' ;; Ok (b :: bs)
  end.

(** What [linkifyText] returns: the text itself when it is empty, else the
    list of its parts. *)
Inductive linkified : Type :=
| AsIs (text : str)
| Parts (parts : list part).

(** The text that a result displays *)
Definition displayed (l : linkified) : str :=
  match l with
  | AsIs text => text
  | Parts parts => List.concat (map part_text parts)
  end.

Definition linkifyText (text : str) : res linkified :=
  if negb (truthy text) then Ok (AsIs text)
  else parts <- map_res linkify_part (split_captures no_flags urlRegex 1 text) ;;
       Ok (Parts parts).

(** ** The older block parser

    The [parseRecipeBlock] and [parseText] of the older copy.  The title,
    the category, the tags and the notes are extracted as in the current
    copy; the ingredients and the instructions are found by other patterns,
    no servings are read, and nothing is tried when no instructions header
    matches. *)

Module LegacyParser.

Record recipe (number : Type) : Type := Recipe {
  id : ident number;
  title : str;
  category : str;
  ingredients : list str;
  instructions : str;
  notes : str;
  tags : tagset
}.

Arguments Recipe {number} id title category ingredients instructions notes tags.
Arguments id {number} r.
Arguments title {number} r.
Arguments category {number} r.
Arguments ingredients {number} r.
Arguments instructions {number} r.
Arguments notes {number} r.
Arguments tags {number} r.

Section Block.
Context `{Host}.

(** [(?=\n(?:stops)|$)] *)
Definition until (stops : list regex) : regex :=
  RLook (alt [seq [RChar LF; alt stops]; REol]).

(** [head[:\s]*\n([\s\S]*?)(?=\n(?:stops)|$)] *)
Definition section_re (head : regex) (stops : list regex) : regex :=
  seq [head; star (one_of [CChar (ch ":"); CSpace]); RChar LF;
       RGroup 1 (lazy_star any); until stops].

Definition re_ingredients : regex :=
  section_re (word_opt "ingredient" "s") (instruction_headers ++ note_headers).

Definition re_youll_need : regex :=
  section_re (seq [lit "you"; alt [lit "'ll"; lit " will"]; lit " need"])
             (instruction_headers ++ note_headers).

Definition bullets : list citem := chars "•*◦○▪▫●".

(** [/((?:^|\n)[\s\-•*◦○▪▫●\d.]+[^\n]+)+(?=\n(?:...))/im] *)
Definition re_list : regex :=
  seq [plus (RGroup 1 (seq [alt [RBol; RChar LF];
                            plus (one_of (CSpace :: CChar (ch "-") :: bullets
                                          ++ [CDigit; CChar (ch ".")]));
                            plus not_newline]));
       RLook (seq [RChar LF; alt instruction_headers])].

(** [/^[\s\-•*◦○▪▫●\d.)\]]+/] *)
Definition re_marker : regex :=
  seq [RBol; plus (one_of (CSpace :: CChar (ch "-") :: bullets ++ CDigit :: chars ".)]"))].

(** [/^[\d]+\s*[\/.\s*[\d]+/]: the bracket that opens after the white
    space closes after the last [\d], so that the class holds the slash, the
    full stop, white space, the asterisk, the opening bracket and the
    digits. *)
Definition re_quantity : regex :=
  seq [RBol; plus digit; star ws; plus (one_of (chars "/.*[" ++ [CSpace; CDigit]))].

(** [/^(ingredients?|you('ll| will) need|for the|topping)$/] *)
Definition re_ingredient_header : regex :=
  seq [RBol;
       RGroup 1 (alt [word_opt "ingredient" "s";
                      seq [lit "you"; RGroup 2 (alt [lit "'ll"; lit " will"]); lit " need"];
                      lit "for the"; lit "topping"]);
       REol].

Definition clean_ingredient (line : str) : str :=
  trim (replace no_flags re_quantity [] (replace no_flags re_marker [] line)).

Definition keep_ingredient (line : str) : bool :=
  (0 <? List.length line)%nat && (List.length line <? 150)%nat
  && negb (test no_flags re_ingredient_header (toLowerCase line)).

Definition find_ingredients (block : str) : option (res str) :=
  match str_match flag_i re_ingredients block with
  | Some m => Some (group 1 m)
  | None =>
  match str_match flag_i re_youll_need block with
  | Some m => Some (group 1 m)
  | None =>
  match str_match flag_im re_list block with
  | Some listMatch => Some (Ok (matched listMatch))
  | None => None
  end end end.

Definition extract_ingredients (block : str) : res (list str) :=
  match find_ingredients block with
  | Some ingMatch1 =>
      span <- ingMatch1 ;;
      Ok (filter keep_ingredient (map clean_ingredient (split_chr LF span)))
  | None => Ok []
  end.

(** [head[:\s]*\n?([\s\S]*?)(?=\n(?:stops)|$)] *)
Definition instr_re (head : regex) (stops : list regex) : regex :=
  seq [head; star (one_of [CChar (ch ":"); CSpace]); opt (RChar LF);
       RGroup 1 (lazy_star any); until stops].

Definition instrPatterns : list regex :=
  [ instr_re (alt instruction_headers)
             (note_headers
              ++ [seq [lit "chef"; opt (lit "'"); opt (lit "s"); lit " "; word_opt "note" "s"]]);
    instr_re (alt [lit "how to make"; lit "to prepare"]) note_headers ].

(** [/^\d+\.\s*/gm] *)
Definition re_step_number : regex := seq [RBol; plus digit; RChar (ch "."); star ws].

Definition flag_m : flags := Flags false true.

Definition tidy_instructions (span : str) : str :=
  let s := replaceAll no_flags (plus (RChar LF)) (js " ") span in
  let s := replaceAll no_flags (plus ws) (js " ") s in
  trim (replaceAll flag_m re_step_number [] s).

Fixpoint find_instructions (patterns : list regex) (block : str) : res str :=
  match patterns with
  | [] => Ok []
  | pattern :: rest =>
      match str_match flag_i pattern block with
      | Some m => span <- group 1 m ;; Ok (tidy_instructions span)
      | None => find_instructions rest block
      end
  end.

Definition parseRecipeBlock (now : number) (block : str) : res (option (recipe number)) :=
  let lines := block_lines block in
  if (List.length lines <? 3)%nat then Ok None else
  let title := extract_title lines in
  if negb (truthy title) then Ok None else
  category <- detect_category categoryPatterns block ;;
  tags <- extract_tags block ;;
  ingredients <- extract_ingredients block ;;
  instructions <- find_instructions instrPatterns block ;;
  notes <- extract_notes block ;;
  if truthy title && (0 <? List.length ingredients)%nat then
    Ok (Some (Recipe (IdNum now) title category ingredients
                     (if truthy instructions then instructions else NO_INSTRUCTIONS)
                     notes tags))
  else Ok None.

Fixpoint parse_blocks (n : nat) (blocks : list str) : res (list (recipe number)) :=
  match blocks with
  | [] => Ok []
  | block :: rest =>
      r <- parseRecipeBlock (clock n) block ;;
      match r with
      | Some recipe => recipes <- parse_blocks (S n) rest ;; Ok (recipe :: recipes)
      | None => parse_blocks n rest
      end
  end.

Definition parseText (text : str) : res (list (recipe number)) :=
  parse_blocks 0 (Legacy.candidate_blocks text).

(** A recipe of the older copy as the JavaScript object it is *)
Definition recipe_value (r : recipe number) : value :=
  JObj [ (js "id", ident_value (id r));
         (js "title", JStr (title r));
         (js "category", JStr (category r));
         (js "ingredients", strings (ingredients r));
         (js "instructions", JStr (instructions r));
         (js "notes", JStr (notes r));
         (js "tags", tags_value (tags r)) ].

(** The object literal that the older [parseJSON] maps every element to:
    that of the current copy without [servings]. *)
Definition import_record (now : number) (r : value) : res value :=
  title <- prop r "title" ;;
  category <- prop r "category" ;;
  ingredients <- prop r "ingredients" ;;
  ingredients <- import_ingredients ingredients ;;
  instructions <- prop r "instructions" ;;
  notes <- prop r "notes" ;;
  tags <- prop r "tags" ;;
  Ok (JObj [ (js "id", JNum now);
             (js "title", or_default title (JStr (js "Untitled Recipe")));
             (js "category", or_default category (JStr (js "Main")));
             (js "ingredients", ingredients);
             (js "instructions", or_default instructions (JStr []));
             (js "notes", or_default notes (JStr []));
             (js "tags", or_default tags (tags_value no_tags)) ]).

Fixpoint import_records (n : nat) (recipes : list value) : res (list value) :=
  match recipes with
  | [] => Ok []
  | r :: rest =>
      o <- import_record (clock n) r ;;
      os <- import_records (S n) rest ;;
      Ok (o :: os)
  end.

Definition parseJSON (text : str) : res (list value) :=
  match JSON_parse text with
  | None => Throw SyntaxError
  | Some data =>
      let recipes := match data with JArr items => items | _ => [data] end in
      import_records 0 recipes
  end.

Definition import_payload (content : str) : res (list value) :=
  if sniff_json content then parseJSON content
  else recipes <- parseText content ;; Ok (map recipe_value recipes).

(** The older [handleImport]: nobody signs in, and the records go to
    [saveRecipes], which catches what the storage throws; the status is
    that of the parse. *)
Definition handleImport (content : str) : importStatus number :=
  match import_payload content with
  | Throw _ => CouldNotParse
  | Ok [] => NoRecipesFound
  | Ok imported => Imported imported
  end.

End Block.
End LegacyParser.

(** ** A reference host

    A host to run the program on: the case mappings of Basic Latin and
    Latin-1, whole numbers, a clock that ticks, and a JSON codec for the
    values above (numbers without fraction or exponent). *)

Module Reference.

Definition lower_unit (c : N) : N :=
  if ((65 <=? c) && (c <=? 90)) || ((192 <=? c) && (c <=? 222) && negb (c =? 215))
  then c + 32 else c.

Definition upper_unit (c : N) : str :=
  if ((97 <=? c) && (c <=? 122)) || ((224 <=? c) && (c <=? 254) && negb (c =? 247))
  then [c - 32]
  else if c =? 223 then [83; 83]
  else if c =? 255 then [376]
  else if c =? 181 then [924]
  else [c].

Definition lower (s : str) : str := map lower_unit s.
Definition upper (s : str) : str := flat_map upper_unit s.

(** *** Writing JSON *)

Fixpoint digits_loop (fuel : nat) (n : N) (acc : str) : str :=
  match fuel with
  | O => acc
  | S fuel' =>
      if n <? 10 then (48 + n) :: acc
      else digits_loop fuel' (n / 10) ((48 + n mod 10) :: acc)
  end.

Definition decimal (z : Z) : str :=
  let n := Z.abs_N z in
  (if (z <? 0)%Z then js "-" else []) ++ digits_loop (S (N.to_nat (N.log2 n))) n [].

Definition hex_digit (n : N) : N := if n <? 10 then 48 + n else 87 + n.

Definition escape_u (c : N) : str :=
  js "\u" ++ map hex_digit [c / 4096; (c / 256) mod 16; (c / 16) mod 16; c mod 16].

Definition is_high (c : N) : bool := (55296 <=? c) && (c <=? 56319).
Definition is_low (c : N) : bool := (56320 <=? c) && (c <=? 57343).

Definition escape_unit (c : N) : str :=
  if c =? 34 then js "\" ++ [34]
  else if c =? 92 then js "\\"
  else if c =? 8 then js "\b"
  else if c =? 12 then js "\f"
  else if c =? 10 then js "\n"
  else if c =? 13 then js "\r"
  else if c =? 9 then js "\t"
  else if (c <? 32) || is_low c || is_high c then escape_u c
  else [c].

Fixpoint escape (s : str) : str :=
  match s with
  | [] => []
  | c :: s' =>
      match s' with
      | d :: s'' =>
          if is_high c && is_low d then c :: d :: escape s''
          else escape_unit c ++ escape s'
      | [] => escape_unit c
      end
  end.

Definition quote (s : str) : str := [34] ++ escape s ++ [34].

Definition is_undefined {number : Type} (v : jsval number) : bool :=
  match v with JUndefined => true | _ => false end.

(** [JSON.stringify(v, null, 2)] below the top level, at indentation
    [indent]; a member whose value is [undefined] is left out. *)
Fixpoint stringify_at (indent : str) (v : jsval Z) : str :=
  let inner := indent ++ js "  " in
  let lines (items : list str) : str :=
    [LF] ++ inner ++ join (js "," ++ [LF] ++ inner) items ++ [LF] ++ indent in
  match v with
  | JUndefined | JNull => js "null"
  | JBool true => js "true"
  | JBool false => js "false"
  | JNum z => decimal z
  | JStr s => quote s
  | JArr items =>
      match map (stringify_at inner) items with
      | [] => js "[]"
      | shown => js "[" ++ lines shown ++ js "]"
      end
  | JObj props =>
      match flat_map (fun '(k, v) =>
                        if is_undefined v then []
                        else [quote k ++ js ": " ++ stringify_at inner v]) props with
      | [] => js "{}"
      | shown => js "{" ++ lines shown ++ js "}"
      end
  end.

Definition stringify (v : jsval Z) : str := stringify_at [] v.

(** *** Reading JSON *)

Fixpoint skip_ws (s : str) : str :=
  match s with
  | c :: s' => if (c =? 32) || (c =? 9) || (c =? 10) || (c =? 13) then skip_ws s' else s
  | [] => []
  end.

Definition hex_value (c : N) : option N :=
  if is_digit c then Some (c - 48)
  else if (97 <=? c) && (c <=? 102) then Some (c - 87)
  else if (65 <=? c) && (c <=? 70) then Some (c - 55)
  else None.

Definition hex4 (a b c d : N) : option N :=
  match hex_value a, hex_value b, hex_value c, hex_value d with
  | Some a, Some b, Some c, Some d => Some (a * 4096 + b * 256 + c * 16 + d)
  | _, _, _, _ => None
  end.

Definition unescape (e : N) : option N :=
  if (e =? 34) || (e =? 92) || (e =? 47) then Some e
  else if e =? 98 then Some 8
  else if e =? 102 then Some 12
  else if e =? 110 then Some 10
  else if e =? 114 then Some 13
  else if e =? 116 then Some 9
  else None.

(** The text after an opening quote, up to the closing one *)
Fixpoint read_string (s : str) : option (str * str) :=
  match s with
  | [] => None
  | c :: s' =>
      if c =? 34 then Some ([], s')
      else if c =? 92 then
        match s' with
        | e :: s'' =>
            if e =? 117 then
              match s'' with
              | a :: b :: c' :: d :: rest =>
                  match hex4 a b c' d, read_string rest with
                  | Some u, Some (t, rest') => Some (u :: t, rest')
                  | _, _ => None
                  end
              | _ => None
              end
            else
              match unescape e, read_string s'' with
              | Some u, Some (t, rest') => Some (u :: t, rest')
              | _, _ => None
              end
        | [] => None
        end
      else if c <? 32 then None
      else match read_string s' with
           | Some (t, rest') => Some (c :: t, rest')
           | None => None
           end
  end.

Fixpoint read_digits (s : str) (acc : N) : N * str :=
  match s with
  | c :: s' => if is_digit c then read_digits s' (acc * 10 + (c - 48)) else (acc, s)
  | [] => (acc, [])
  end.

Definition continues_number (s : str) : bool :=
  match s with
  | c :: _ => is_digit c || (c =? 46) || (c =? 101) || (c =? 69)
  | [] => false
  end.

(** A whole number: no leading zero, no fraction, no exponent *)
Definition read_natural (s : str) : option (N * str) :=
  match s with
  | c :: s' =>
      if c =? 48 then if continues_number s' then None else Some (0, s')
      else if is_digit c then
        let (n, rest) := read_digits s 0 in
        if continues_number rest then None else Some (n, rest)
      else None
  | [] => None
  end.

Definition read_number (s : str) : option (Z * str) :=
  match s with
  | c :: s' =>
      if c =? 45 then
        match read_natural s' with
        | Some (n, rest) => Some (Z.opp (Z.of_N n), rest)
        | None => None
        end
      else
        match read_natural s with
        | Some (n, rest) => Some (Z.of_N n, rest)
        | None => None
        end
  | [] => None
  end.

(** A later member with the same key overwrites the value of the earlier
    one, in place. *)
Definition add_member (k : str) (v : jsval Z) (later : list (str * jsval Z))
  : list (str * jsval Z) :=
  match find (fun p => str_eqb k (fst p)) later with
  | Some (_, v') => (k, v') :: filter (fun p => negb (str_eqb k (fst p))) later
  | None => (k, v) :: later
  end.

Inductive mode : Type := AValue | Elements | Members.

(** What a reader returns: a value, the elements of an array up to its
    bracket, or the members of an object up to its brace. *)
Inductive parsed : Type :=
| PValue (v : jsval Z)
| PElements (items : list (jsval Z))
| PMembers (props : list (str * jsval Z)).

Fixpoint read (fuel : nat) (m : mode) (s : str) : option (parsed * str) :=
  match fuel with
  | O => None
  | S fuel' =>
      let s := skip_ws s in
      match m with
      | AValue =>
          if startsWith s (js "null") then Some (PValue JNull, skipn 4 s)
          else if startsWith s (js "true") then Some (PValue (JBool true), skipn 4 s)
          else if startsWith s (js "false") then Some (PValue (JBool false), skipn 5 s)
          else
            match s with
            | [] => None
            | c :: s' =>
                if c =? 34 then
                  match read_string s' with
                  | Some (t, rest) => Some (PValue (JStr t), rest)
                  | None => None
                  end
                else if c =? 91 then
                  match skip_ws s' with
                  | d :: rest =>
                      if d =? 93 then Some (PValue (JArr []), rest)
                      else match read fuel' Elements s' with
                           | Some (PElements items, rest') => Some (PValue (JArr items), rest')
                           | _ => None
                           end
                  | [] => None
                  end
                else if c =? 123 then
                  match skip_ws s' with
                  | d :: rest =>
                      if d =? 125 then Some (PValue (JObj []), rest)
                      else match read fuel' Members s' with
                           | Some (PMembers props, rest') => Some (PValue (JObj props), rest')
                           | _ => None
                           end
                  | [] => None
                  end
                else
                  match read_number s with
                  | Some (z, rest) => Some (PValue (JNum z), rest)
                  | None => None
                  end
            end
      | Elements =>
          match read fuel' AValue s with
          | Some (PValue v, rest) =>
              match skip_ws rest with
              | c :: rest' =>
                  if c =? 44 then
                    match read fuel' Elements rest' with
                    | Some (PElements items, rest'') => Some (PElements (v :: items), rest'')
                    | _ => None
                    end
                  else if c =? 93 then Some (PElements [v], rest')
                  else None
              | [] => None
              end
          | _ => None
          end
      | Members =>
          match s with
          | q :: s' =>
              if q =? 34 then
                match read_string s' with
                | Some (k, rest) =>
                    match skip_ws rest with
                    | colon :: rest1 =>
                        if colon =? 58 then
                          match read fuel' AValue rest1 with
                          | Some (PValue v, rest2) =>
                              match skip_ws rest2 with
                              | c :: rest3 =>
                                  if c =? 44 then
                                    match read fuel' Members rest3 with
                                    | Some (PMembers props, rest4) =>
                                        Some (PMembers (add_member k v props), rest4)
                                    | _ => None
                                    end
                                  else if c =? 125 then Some (PMembers [(k, v)], rest3)
                                  else None
                              | [] => None
                              end
                          | _ => None
                          end
                        else None
                    | [] => None
                    end
                | None => None
                end
              else None
          | [] => None
          end
      end
  end.

(** [JSON.parse(text)]: one value and nothing but white space after it. *)
Definition parse (text : str) : option (jsval Z) :=
  match read (2 * List.length text + 2) AValue text with
  | Some (PValue v, rest) =>
      match skip_ws rest with
      | [] => Some v
      | _ => None
      end
  | _ => None
  end.

(** *** The values the codec reads back

    JSON data: no [undefined], and no key twice in an object. *)








(** The [n]-th reading of the clock, in whole milliseconds *)
Definition tick (n : nat) : Z := (1700000000000 + Z.of_nat n)%Z.

Definition host : Host := {|
  number := Z;
  num_truthy := fun z => negb (z =? 0)%Z;
  num_eqb := Z.eqb;
  toLowerCase := lower;
  toUpperCase := upper;
  JSON_parse := parse;
  JSON_stringify := stringify;
  clock := tick
|}.

End Reference.

(** A text given by its lines *)
Definition text_of (lines : list string) : str := join [LF] (map js lines).

(** ** Scenarios

    The texts that the examples below run the program on. *)

(** The end-to-end scenario of the specification *)
Definition tomato_soup : str :=
  text_of ["Tomato Soup"; ""; "Ingredients:"; "- tomatoes"; "- onion"; "- garlic"; "";
           "Instructions:"; "Sauté onion and garlic, add tomatoes, simmer 20 minutes."]%string.

(** A title and an inline ingredients line *)
Definition two_lines : str := text_of ["Pancakes"; "Ingredients: flour, eggs, milk"]%string.

(** Two lines from which both a title and an ingredient are extracted *)
Definition two_lines_usable : str := text_of ["You will need:"; "- eggs"]%string.

(** A recipe without instructions *)
Definition fruit_bowl : str := text_of ["Fruit Bowl"; "Ingredients:"; "- apples"; "- pears"]%string.

(** A double-quoted word of a JSON text *)
Definition quoted (s : string) : str := [34] ++ js s ++ [34].

(** [[{"title": "Toast", "ingredients": []}]] *)
Definition json_without_ingredients : str :=
  js "[{" ++ quoted "title" ++ js ": " ++ quoted "Toast" ++ js ", "
     ++ quoted "ingredients" ++ js ": []}]".

(** An array whose second element is [null] *)
Definition json_null_element : str :=
  js "[{" ++ quoted "title" ++ js ": " ++ quoted "Toast" ++ js "}, null]".



(** The sample recipe of the import guide *)
Definition guacamole : str :=
  text_of ["CLASSIC GUACAMOLE"; "Category: Snack"; "Type: quick, few ingredients";
           "Region: Latin America"; "";
           "INGREDIENTS:"; "- 3 ripe avocados"; "- 1 lime, juiced"; "- 1/2 teaspoon salt";
           "- 2 tablespoons cilantro"; "- 1 tomato, diced"; "";
           "DIRECTIONS:";
           "Mash avocados in a bowl. Add lime juice and salt. Mix in cilantro and tomato. Serve immediately with tortilla chips.";
           "";
           "NOTES: Best made fresh, doesn't store well."]%string.

(** Two recipes with a separator line between them *)
Definition two_recipes (separator : string) : str :=
  text_of ["Tomato Soup"; "Ingredients:"; "- tomatoes"; "- onion"; "Instructions:";
           "Simmer for 20 minutes."; separator;
           "Green Salad"; "Ingredients:"; "- lettuce"; "- cucumber"; "Instructions:";
           "Toss and serve at once."]%string.

(** A recipe and a candidate that names one of its ingredients twice *)
Definition shortbread : recipe Z :=
  Recipe (IdNum 1%Z) (js "Shortbread") (js "Dessert") []
         [js "Butter"; js "flour"; js "milk"] (js "Bake.") [] no_tags.

Definition toffee : recipe Z :=
  Recipe (IdNum 2%Z) (js "Toffee") (js "Dessert") []
         [js "butter"; js "sugar"; js "Butter"] (js "Boil.") [] no_tags.

(** A candidate that names each ingredient once *)
Definition plain_toffee : recipe Z :=
  Recipe (IdNum 3%Z) (js "Toffee") (js "Dessert") []
         [js "butter"; js "sugar"; js "Milk"] (js "Boil.") [] no_tags.

(** A recipe with two tags of one category, and a selection of one of them *)
Definition quick_curry : recipe Z :=
  Recipe (IdNum 4%Z) (js "Curry") (js "Main") []
         [js "rice"; js "chili"] (js "Fry.") []
         (Tags [js "spicy"; js "quick"] [js "Asia"] [] []).

Definition spicy_selected : tagset := Tags [js "spicy"] [] [] [].

(** A recipe as the store keeps it: written by the user [uid], under the
    document id [docId] *)
Definition kept (docId uid : string) (r : recipe Z) : Catalog.recipe Z :=
  Catalog.Recipe (IdStr (js docId)) (title r) (category r) (Some (servings r))
                 (ingredients r) (instructions r) (Some (notes r)) (Some (tags r))
                 (Some (StoreTime 1700000000000%Z)) (Some (js uid)) None.

(** The component with two recipes, the first one open *)
Definition shortbread_open : component Z :=
  Component [kept "doc1" "ada" shortbread; kept "doc2" "ada" toffee]
      (Some (kept "doc1" "ada" shortbread)) EMPTY_FORM false false None.

(** The component with two recipes and a new one typed into the form *)
Definition porridge_typed : component Z :=
  Component [kept "doc1" "ada" shortbread; kept "doc2" "ada" toffee] None
      (Form (js "Porridge") (js "Breakfast") (js "2")
            (text_of ["oats"; "  milk "; ""]%string) (js "Simmer.") [] no_tags)
      true false None.

(** A store that takes every document, and one that refuses the second *)
Definition takes_all (n : nat) : bool := true.



(** * Properties *)

(** ** Strings *)

Lemma str_eqb_eq (a b : str) : str_eqb a b = true <-> a = b.
Proof.
  revert b. induction a as [|x a IH]; intros [|y b]; simpl; split; try congruence.
  - intros E. apply andb_true_iff in E. destruct E as [Exy E].
    apply N.eqb_eq in Exy. apply IH in E. congruence.
  - intros E. inversion E; subst. rewrite N.eqb_refl. simpl. now apply IH.
Qed.

Lemma truthy_nonempty (s : str) : truthy s = true <-> s <> [].
Proof. destruct s; unfold truthy; simpl; split; congruence. Qed.

(** ** Captures of a successful match *)

Lemma cap_filter (i : nat) (f : nat * str -> bool) (cs : caps) :
  (forall x, f (i, x) = true) -> cap i (filter f cs) = cap i cs.
Proof.
  intros Hf. induction cs as [|[j x] cs IH]; simpl; [reflexivity|].
  destruct (Nat.eqb i j) eqn:E.
  - apply Nat.eqb_eq in E. subst j. rewrite Hf. simpl. now rewrite Nat.eqb_refl.
  - destruct (f (j, x)); simpl; [rewrite E|]; exact IH.
Qed.

Lemma cap_set_cap (i j : nat) (x : str) (cs : caps) :
  cap i (set_cap j x cs) = if Nat.eqb i j then Some x else cap i cs.
Proof.
  unfold set_cap. simpl. destruct (Nat.eqb i j) eqn:E; [reflexivity|].
  apply cap_filter. intros y. simpl. now rewrite E.
Qed.

Lemma cap_clear_caps (i : nat) (gs : list nat) (cs : caps) :
  existsb (Nat.eqb i) gs = false -> cap i (clear_caps gs cs) = cap i cs.
Proof.
  intros Hgs. apply cap_filter. intros x. simpl.
  now rewrite Hgs.
Qed.

Lemma repeat_matcher_captures (i : nat) (m : matcher) (gs : list nat)
      (sets : bool) (greedy : bool) (k : mcont) :
  capture_behaviour i m sets (existsb (Nat.eqb i) gs) ->
  forall fuel min max prev s cs res,
    repeat_matcher m gs greedy k fuel min max prev s cs = Some res ->
    exists p' s' cs',
      k p' s' cs' = Some res
      /\ (sets = true ->
          cap i cs <> None \/ (min <> 0%nat /\ max <> Some 0%nat) ->
          cap i cs' <> None)
      /\ (existsb (Nat.eqb i) gs = false -> cap i cs' = cap i cs).
Proof.
  intros Hm. induction fuel as [|fuel IH]; intros min max prev s cs res Hrun;
    [discriminate|].
  assert (Hstop : k prev s cs = Some res -> min = 0%nat \/ max = Some 0%nat ->
                  exists p' s' cs',
                    k p' s' cs' = Some res
                    /\ (sets = true ->
                        cap i cs <> None \/ (min <> 0%nat /\ max <> Some 0%nat) ->
                        cap i cs' <> None)
                    /\ (existsb (Nat.eqb i) gs = false -> cap i cs' = cap i cs)).
  { intros Hk Hz. exists prev, s, cs. repeat split; auto.
    intros _ [Hc|[Hmin Hmax]]; [exact Hc|]. destruct Hz; contradiction. }
  simpl in Hrun.
  match type of Hrun with
  | context [m prev s ?c ?k'] => set (it := m prev s c k') in *
  end.
  assert (Hiter : it = Some res ->
            exists p' s' cs',
              k p' s' cs' = Some res
              /\ (sets = true ->
                  cap i cs <> None \/ (min <> 0%nat /\ max <> Some 0%nat) ->
                  cap i cs' <> None)
              /\ (existsb (Nat.eqb i) gs = false -> cap i cs' = cap i cs)).
  { intros Hit. apply Hm in Hit. destruct Hit as (p1 & s1 & cs1 & Hk & Hset & Hkeep).
    destruct (Nat.eqb min 0 && Nat.eqb (List.length s1) (List.length s));
      [discriminate|].
    apply IH in Hk. destruct Hk as (p2 & s2 & cs2 & Hk & Hset2 & Hkeep2).
    exists p2, s2, cs2. repeat split; auto.
    intros Hg. rewrite Hkeep2, Hkeep by exact Hg. now apply cap_clear_caps. }
  clearbody it.
  assert (Hmin : Nat.eqb min 0 = true -> min = 0%nat) by apply Nat.eqb_eq.
  destruct max as [[|mx]|]; [apply Hstop; auto| |];
    (destruct (Nat.eqb min 0); simpl in Hrun; [|apply Hiter, Hrun]);
    (destruct greedy; unfold or_else in Hrun;
     [ destruct it; [apply Hiter; exact Hrun | apply Hstop; auto]
     | destruct (k prev s cs); [apply Hstop; auto | apply Hiter, Hrun] ]).
Qed.

Lemma rmatch_captures (i : nat) (fl : flags) (r : regex) :
  capture_behaviour i (rmatch fl r) (always_captures i r) (has_group i r).
Proof.
  unfold capture_behaviour, has_group.
  induction r as [ | c | neg items | | a IHa b IHb | a IHa b IHb
                 | min max greedy a IHa | j a IHa | a IHa | | ];
    intros prev s cs k res Hrun; cbn [rmatch] in Hrun.
  - exists prev, s, cs. simpl. repeat split; auto; discriminate.
  - destruct s as [|x s']; [discriminate|].
    destruct (canon fl x =? canon fl c); [|discriminate].
    exists (Some x), s', cs. simpl. repeat split; auto; discriminate.
  - destruct s as [|x s']; [discriminate|].
    destruct (xorb neg (in_set fl items x)); [|discriminate].
    exists (Some x), s', cs. simpl. repeat split; auto; discriminate.
  - destruct s as [|x s']; [discriminate|].
    destruct (is_line_terminator x); [discriminate|].
    exists (Some x), s', cs. simpl. repeat split; auto; discriminate.
  - apply IHa in Hrun. destruct Hrun as (p1 & s1 & cs1 & Hb & Hset1 & Hkeep1).
    apply IHb in Hb. destruct Hb as (p2 & s2 & cs2 & Hk & Hset2 & Hkeep2).
    exists p2, s2, cs2. simpl. rewrite existsb_app. repeat split; auto.
    + intros Hs. apply orb_true_iff in Hs. destruct Hs as [Hs|Hs]; [|auto].
      apply andb_true_iff in Hs. destruct Hs as [Hsa Hnb].
      apply negb_true_iff in Hnb. rewrite Hkeep2 by exact Hnb. auto.
    + intros Hg. apply orb_false_iff in Hg. destruct Hg as [Hga Hgb].
      rewrite Hkeep2, Hkeep1; auto.
  - unfold or_else in Hrun. simpl. rewrite existsb_app.
    destruct (rmatch fl a prev s cs k) eqn:Ea.
    + rewrite <- Hrun in *. apply IHa in Ea.
      destruct Ea as (p1 & s1 & cs1 & Hk & Hset1 & Hkeep1).
      exists p1, s1, cs1. repeat split; auto.
      * intros Hs. apply andb_true_iff in Hs. tauto.
      * intros Hg. apply orb_false_iff in Hg. tauto.
    + apply IHb in Hrun. destruct Hrun as (p1 & s1 & cs1 & Hk & Hset1 & Hkeep1).
      exists p1, s1, cs1. repeat split; auto.
      * intros Hs. apply andb_true_iff in Hs. tauto.
      * intros Hg. apply orb_false_iff in Hg. tauto.
  - eapply repeat_matcher_captures in Hrun; [|exact IHa].
    destruct Hrun as (p1 & s1 & cs1 & Hk & Hset1 & Hkeep1).
    exists p1, s1, cs1. simpl. repeat split; auto.
    intros Hs. apply andb_true_iff in Hs. destruct Hs as [Hs Hsa].
    apply andb_true_iff in Hs. destruct Hs as [Hmin Hmax].
    apply Hset1; [exact Hsa|]. right. split.
    + intros ->. discriminate.
    + intros ->. discriminate.
  - apply IHa in Hrun. destruct Hrun as (p1 & s1 & cs1 & Hk & Hset1 & Hkeep1).
    eexists _, _, _. split; [exact Hk|]. rewrite cap_set_cap.
    cbn [always_captures groups_of existsb]. split.
    + intros Hs. destruct (Nat.eqb i j); [discriminate|]. simpl in Hs. auto.
    + intros Hg. apply orb_false_iff in Hg. destruct Hg as [Hij Hg].
      rewrite Hij. auto.
  - destruct (rmatch fl a prev s cs (fun _ s' cs' => Some (s', cs'))) as [[s1 cs1]|] eqn:Ea;
      [|discriminate].
    apply IHa in Ea. destruct Ea as (p2 & s2 & cs2 & Heq & Hset & Hkeep).
    inversion Heq; subst. exists prev, s, cs1. simpl. auto.
  - destruct (at_bol fl prev); [|discriminate].
    exists prev, s, cs. simpl. repeat split; auto; discriminate.
  - destruct (at_eol fl s); [|discriminate].
    exists prev, s, cs. simpl. repeat split; auto; discriminate.
Qed.

Lemma search_from_captures (i : nat) (fl : flags) (r : regex) (s : str) :
  always_captures i r = true ->
  forall prev acc f, search_from fl r prev acc s = Some f -> cap i (groups f) <> None.
Proof.
  intros Hset. induction s as [|x s IH]; intros prev acc f Hf; simpl in Hf.
  - destruct (exec_at fl r prev []) as [[s' cs]|] eqn:E; [|discriminate].
    inversion Hf; subst; simpl. apply rmatch_captures with (i := i) in E.
    destruct E as (p' & s'' & cs' & Heq & Hc & _). inversion Heq; subst. auto.
  - destruct (exec_at fl r prev (x :: s)) as [[s' cs]|] eqn:E.
    + inversion Hf; subst; simpl. apply rmatch_captures with (i := i) in E.
      destruct E as (p' & s'' & cs' & Heq & Hc & _). inversion Heq; subst. auto.
    + eapply IH; eauto.
Qed.

(** Reading group 1 of a match of a pattern that always captures it does
    not throw. *)
Lemma group_defined (fl : flags) (r : regex) (s : str) (f : found) :
  always_captures 1 r = true -> str_match fl r s = Some f -> exists g, group 1 f = Ok g.
Proof.
  intros Hset Hf. unfold group.
  pose proof (search_from_captures 1 fl r s Hset None [] f Hf) as Hc.
  destruct (cap 1 (groups f)) as [g|]; [eauto|contradiction].
Qed.

(** ** The loop counters

    A matcher only moves forward: its result depends on its continuation
    only at suffixes of the current input.  Hence the iterations of a
    quantifier are bounded as [rmatch] assumes, a match splits the text into
    what is before, the match and what is after, and the counters of the
    quantifier, of the global replacement and of the split never run out: a
    larger counter gives the same result. *)

Lemma Suffix_refl (s : str) : Suffix s s.
Proof. now exists []. Qed.

Lemma Suffix_tail (x : N) (s : str) : Suffix s (x :: s).
Proof. now exists [x]. Qed.

Lemma Suffix_trans (a b c : str) : Suffix a b -> Suffix b c -> Suffix a c.
Proof. intros [p ->] [q ->]. exists (q ++ p). now rewrite app_assoc. Qed.

Lemma Suffix_length (a b : str) : Suffix a b -> (List.length a <= List.length b)%nat.
Proof. intros [p ->]. rewrite length_app. lia. Qed.

Lemma Suffix_split (a b : str) :
  Suffix a b -> firstn (List.length b - List.length a) b ++ a = b.
Proof.
  intros [p ->]. rewrite length_app.
  replace (List.length p + List.length a - List.length a)%nat with (List.length p) by lia.
  now rewrite firstn_app, firstn_all, Nat.sub_diag, firstn_0, app_nil_r.
Qed.

Lemma is_suffix_Suffix (a b : str) : is_suffix a b = true <-> Suffix a b.
Proof.
  unfold is_suffix. split.
  - intros E. apply str_eqb_eq in E.
    exists (firstn (List.length b - List.length a) b).
    pose proof (firstn_skipn (List.length b - List.length a) b) as Hcut.
    rewrite E in Hcut. symmetry. exact Hcut.
  - intros [p ->]. apply str_eqb_eq. rewrite length_app.
    replace (List.length p + List.length a - List.length a)%nat with (List.length p) by lia.
    now rewrite skipn_app, skipn_all, Nat.sub_diag.
Qed.

Lemma repeat_matcher_forward (m : matcher) (gs : list nat) (greedy : bool) :
  forward_only m ->
  forall fuel1 fuel2 min max prev s cs (k k' : mcont),
    (min + List.length s < fuel1)%nat -> (min + List.length s < fuel2)%nat ->
    (forall p' s' cs', Suffix s' s -> k p' s' cs' = k' p' s' cs') ->
    repeat_matcher m gs greedy k fuel1 min max prev s cs
    = repeat_matcher m gs greedy k' fuel2 min max prev s cs.
Proof.
  intros Hm. induction fuel1 as [|fuel1 IH]; intros fuel2 min max prev s cs k k' H1 H2 Hk;
    [lia|].
  destruct fuel2 as [|fuel2]; [lia|]. cbn [repeat_matcher].
  assert (Hiter :
            m prev s (clear_caps gs cs)
              (fun p' s' cs' =>
                 if Nat.eqb min 0 && Nat.eqb (List.length s') (List.length s) then None
                 else repeat_matcher m gs greedy k fuel1 (Nat.pred min)
                                     (option_map Nat.pred max) p' s' cs')
            = m prev s (clear_caps gs cs)
                (fun p' s' cs' =>
                   if Nat.eqb min 0 && Nat.eqb (List.length s') (List.length s) then None
                   else repeat_matcher m gs greedy k' fuel2 (Nat.pred min)
                                       (option_map Nat.pred max) p' s' cs')).
  { apply Hm. intros p' s' cs' Hsuf. pose proof (Suffix_length _ _ Hsuf) as Hlen.
    destruct (Nat.eqb min 0) eqn:Emin; simpl.
    - apply Nat.eqb_eq in Emin. subst min.
      destruct (Nat.eqb (List.length s') (List.length s)) eqn:Elen; [reflexivity|].
      apply Nat.eqb_neq in Elen. apply IH; simpl; try lia.
      intros; apply Hk; eapply Suffix_trans; eauto.
    - apply Nat.eqb_neq in Emin. apply IH; try lia.
      intros; apply Hk; eapply Suffix_trans; eauto. }
  rewrite Hiter, (Hk prev s cs) by apply Suffix_refl. reflexivity.
Qed.

Lemma rmatch_forward (fl : flags) (r : regex) : forward_only (rmatch fl r).
Proof.
  unfold forward_only.
  induction r as [ | c | neg items | | a IHa b IHb | a IHa b IHb
                 | min max greedy a IHa | j a IHa | a IHa | | ];
    intros prev s cs k k' Hk; cbn [rmatch].
  - apply Hk, Suffix_refl.
  - destruct s as [|x s']; [reflexivity|].
    destruct (canon fl x =? canon fl c); [|reflexivity]. apply Hk, Suffix_tail.
  - destruct s as [|x s']; [reflexivity|].
    destruct (xorb neg (in_set fl items x)); [|reflexivity]. apply Hk, Suffix_tail.
  - destruct s as [|x s']; [reflexivity|].
    destruct (is_line_terminator x); [reflexivity|]. apply Hk, Suffix_tail.
  - apply IHa. intros p' s' cs' Hsuf. apply IHb.
    intros; apply Hk; eapply Suffix_trans; eauto.
  - rewrite (IHa prev s cs k k' Hk), (IHb prev s cs k k' Hk). reflexivity.
  - apply repeat_matcher_forward; try (simpl; lia); assumption.
  - apply IHa. intros p' s' cs' Hsuf. apply Hk, Hsuf.
  - destruct (rmatch fl a prev s cs (fun _ s' cs' => Some (s', cs'))) as [[? cs']|];
      [apply Hk, Suffix_refl|reflexivity].
  - destruct (at_bol fl prev); [apply Hk, Suffix_refl|reflexivity].
  - destruct (at_eol fl s); [apply Hk, Suffix_refl|reflexivity].
Qed.

(** Any counter above [min + length s] gives the result of [rmatch]. *)
Lemma quantifier_counter_suffices (fl : flags) (min : nat) (max : option nat)
      (greedy : bool) (a : regex) (fuel : nat) prev s cs (k : mcont) :
  (min + List.length s < fuel)%nat ->
  repeat_matcher (rmatch fl a) (groups_of a) greedy k fuel min max prev s cs
  = rmatch fl (RRep min max greedy a) prev s cs k.
Proof.
  intros Hfuel. cbn [rmatch].
  apply repeat_matcher_forward;
    [apply rmatch_forward | exact Hfuel | simpl; lia | reflexivity].
Qed.

(** A match ends at a suffix of the text it starts at. *)
Lemma exec_at_forward (fl : flags) (r : regex) prev s s' cs :
  exec_at fl r prev s = Some (s', cs) -> Suffix s' s.
Proof.
  unfold exec_at. intros Hrun.
  rewrite (rmatch_forward fl r prev s []
             (fun _ s' cs' => Some (s', cs'))
             (fun _ s' cs' => if is_suffix s' s then Some (s', cs') else None))
    in Hrun.
  - apply (rmatch_captures 0 fl r) in Hrun.
    destruct Hrun as (p1 & s1 & cs1 & Hk & _).
    destruct (is_suffix s1 s) eqn:E; [|discriminate].
    inversion Hk; subst. now apply is_suffix_Suffix.
  - intros p1 s1 cs1 Hsuf. apply is_suffix_Suffix in Hsuf. now rewrite Hsuf.
Qed.

(** A search cuts the text in three. *)
Lemma search_from_splits (fl : flags) (r : regex) (s : str) :
  forall prev acc f,
    search_from fl r prev acc s = Some f ->
    before f ++ matched f ++ after f = rev acc ++ s
    /\ Suffix (after f) s.
Proof.
  assert (Hhere : forall prev acc s s' cs,
             exec_at fl r prev s = Some (s', cs) ->
             let f := Found (rev acc) (firstn (List.length s - List.length s') s) cs s' in
             before f ++ matched f ++ after f = rev acc ++ s /\ Suffix (after f) s).
  { intros prev acc s0 s' cs E. apply exec_at_forward in E. cbn [before matched after].
    split; [|exact E]. now rewrite (Suffix_split _ _ E). }
  induction s as [|x s IH]; intros prev acc f Hf; cbn [search_from] in Hf.
  - destruct (exec_at fl r prev []) as [[s' cs]|] eqn:E; [|discriminate].
    injection Hf as <-. exact (Hhere prev acc [] s' cs E).
  - destruct (exec_at fl r prev (x :: s)) as [[s' cs]|] eqn:E.
    + injection Hf as <-. exact (Hhere prev acc (x :: s) s' cs E).
    + apply IH in Hf. destruct Hf as [Hcut Hsuf]. split.
      * rewrite Hcut. simpl. now rewrite <- app_assoc.
      * eapply Suffix_trans; [exact Hsuf|apply Suffix_tail].
Qed.

(** The counter of the global replacement: one above the length of the
    text is enough. *)
Lemma replace_counter_suffices (fl : flags) (r : regex) (by_ : str) :
  forall fuel1 fuel2 prev s,
    (List.length s < fuel1)%nat -> (List.length s < fuel2)%nat ->
    replace_loop fuel1 fl r by_ prev s = replace_loop fuel2 fl r by_ prev s.
Proof.
  induction fuel1 as [|fuel1 IH]; intros fuel2 prev s H1 H2; [lia|].
  destruct fuel2 as [|fuel2]; [lia|]. cbn [replace_loop].
  destruct (search_from fl r prev [] s) as [f|] eqn:Ef; [|reflexivity].
  apply search_from_splits in Ef. destruct Ef as [Hcut Hsuf]. simpl in Hcut.
  assert (Hlen : (List.length (before f) + List.length (matched f)
                  + List.length (after f) = List.length s)%nat).
  { rewrite <- Hcut, !length_app. lia. }
  destruct (matched f) as [|c m]; destruct (after f) as [|x rest]; simpl in Hlen;
    try reflexivity; rewrite (IH fuel2) by (simpl; lia); reflexivity.
Qed.

(** The counter of the split: above twice the length of the text, and one
    more when a piece is open. *)
Lemma split_counter_suffices (fl : flags) (r : regex) :
  forall fuel1 fuel2 prev piece s,
    (2 * List.length s + List.length (firstn 1 piece) < fuel1)%nat ->
    (2 * List.length s + List.length (firstn 1 piece) < fuel2)%nat ->
    split_loop fuel1 fl r prev piece s = split_loop fuel2 fl r prev piece s.
Proof.
  induction fuel1 as [|fuel1 IH]; intros fuel2 prev piece s H1 H2; [lia|].
  destruct fuel2 as [|fuel2]; [lia|]. cbn [split_loop].
  destruct s as [|x s']; [reflexivity|]. simpl in H1, H2.
  assert (Hstep : split_loop fuel1 fl r (Some x) (x :: piece) s'
                  = split_loop fuel2 fl r (Some x) (x :: piece) s')
    by (apply IH; simpl; lia).
  destruct (exec_at fl r prev (x :: s')) as [[rest cs]|] eqn:E; [|exact Hstep].
  apply exec_at_forward, Suffix_length in E. simpl in E.
  destruct (Nat.eqb (List.length rest) (List.length (x :: s'))) eqn:Elen;
    [apply Nat.eqb_eq in Elen | apply Nat.eqb_neq in Elen];
    destruct piece as [|c piece]; cbn [andb]; try exact Hstep;
    f_equal; apply IH; simpl in *; lia.
Qed.

(** ** The extractors return *)

Section ParserProperties.
Context `{Host}.

Lemma detect_category_returns (patterns : list (regex * category_rule)) (block : str) :
  Forall (fun p => snd p = Direct -> always_captures 1 (fst p) = true) patterns ->
  exists c, detect_category patterns block = Ok c.
Proof.
  induction 1 as [|[pattern rule] rest Hp _ IH]; simpl; [eauto|].
  destruct (str_match flag_i pattern block) as [m|] eqn:Em; [|exact IH].
  destruct rule; [|eauto].
  destruct (group_defined _ _ _ _ (Hp eq_refl) Em) as [g ->]. simpl. eauto.
Qed.

Lemma categoryPatterns_capture :
  Forall (fun p => snd p = Direct -> always_captures 1 (fst p) = true) categoryPatterns.
Proof. repeat constructor; simpl; intros; discriminate. Qed.

Lemma first_group_returns (patterns : list (flags * regex)) (dflt block : str) :
  Forall (fun p => always_captures 1 (snd p) = true) patterns ->
  exists s, first_group patterns dflt block = Ok s.
Proof.
  induction 1 as [|[fl pattern] rest Hp _ IH]; simpl; [eauto|].
  destruct (str_match fl pattern block) as [m|] eqn:Em; [|exact IH].
  destruct (group_defined _ _ _ _ Hp Em) as [g ->]. simpl. eauto.
Qed.

Lemma extract_tag_returns (block : str) (tags : tagset) (c : tagCat) :
  exists tags', extract_tag block tags c = Ok tags'.
Proof.
  unfold extract_tag.
  destruct (str_match flag_i (re_tag c) block) as [m|] eqn:Em.
  - assert (Hc : always_captures 1 (re_tag c) = true) by (destruct c; reflexivity).
    destruct (group_defined _ _ _ _ Hc Em) as [g ->]. simpl.
    match goal with |- context [tags_get ?t c] => destruct (tags_get t c) end; eauto.
  - simpl. destruct (tags_get tags c); eauto.
Qed.

Lemma extract_tags_returns (block : str) : exists tags, extract_tags block = Ok tags.
Proof.
  unfold extract_tags. generalize no_tags. induction TAG_KEYS as [|c cs IH]; intros t; simpl.
  - eauto.
  - destruct (extract_tag_returns block t c) as [t' ->]. simpl. apply IH.
Qed.

Lemma extract_ingredients_returns (block : str) :
  exists l, extract_ingredients block = Ok l.
Proof.
  unfold extract_ingredients, find_ingredients.
  destruct (str_match flag_i re_ingredients block) as [m|] eqn:E1.
  { destruct (group_defined _ re_ingredients _ _ eq_refl E1) as [g ->]. simpl. eauto. }
  destruct (str_match flag_i re_youll_need block) as [m|] eqn:E2.
  { destruct (group_defined _ re_youll_need _ _ eq_refl E2) as [g ->]. simpl. eauto. }
  destruct (str_match flag_i re_what_you_need block) as [m|] eqn:E3.
  { destruct (group_defined _ re_what_you_need _ _ eq_refl E3) as [g ->]. simpl. eauto. }
  destruct (str_match flag_im re_list block); simpl; eauto.
Qed.

Lemma find_instructions_returns (patterns : list regex) (block : str) :
  Forall (fun p => always_captures 1 p = true) patterns ->
  exists s, find_instructions patterns block = Ok s.
Proof.
  induction 1 as [|pattern rest Hp _ IH]; simpl; [eauto|].
  destruct (str_match flag_i pattern block) as [m|] eqn:Em; [|exact IH].
  destruct (group_defined _ _ _ _ Hp Em) as [g ->]. simpl. eauto.
Qed.

(** The parser as a function of what its extractors return: none of them
    throws, and the record is built exactly when there are three lines, a
    title and an ingredient. *)
Lemma parseRecipeBlock_unfold (now : number) (block : str) :
  exists category servings tags ingredients found notes,
    detect_category categoryPatterns block = Ok category
    /\ first_group servingsPatterns [] block = Ok servings
    /\ extract_tags block = Ok tags
    /\ extract_ingredients block = Ok ingredients
    /\ find_instructions instrPatterns block = Ok found
    /\ extract_notes block = Ok notes
    /\ parseRecipeBlock now block =
       Ok (if (List.length (block_lines block) <? 3)%nat then None
           else if negb (truthy (extract_title (block_lines block))) then None
           else if (0 <? List.length ingredients)%nat then
             let instructions := fallback_instructions block ingredients found in
             Some (Recipe (IdNum now) (extract_title (block_lines block)) category
                          servings ingredients
                          (if truthy instructions then instructions else NO_INSTRUCTIONS)
                          notes tags)
           else None).
Proof.
  destruct (detect_category_returns _ block categoryPatterns_capture) as [category Hc].
  destruct (first_group_returns servingsPatterns [] block) as [servings Hs].
  { repeat constructor. }
  destruct (extract_tags_returns block) as [tags Ht].
  destruct (extract_ingredients_returns block) as [ingredients Hi].
  destruct (find_instructions_returns instrPatterns block) as [found Hf].
  { repeat constructor. }
  destruct (first_group_returns notesPatterns [] block) as [notes Hn].
  { repeat constructor. }
  exists category, servings, tags, ingredients, found, notes.
  repeat (split; [assumption|]).
  unfold parseRecipeBlock, extract_notes.
  rewrite Hc; cbn [bind]. rewrite Hs; cbn [bind]. rewrite Ht; cbn [bind].
  rewrite Hi; cbn [bind]. rewrite Hf; cbn [bind]. rewrite Hn; cbn [bind].
  destruct (List.length (block_lines block) <? 3)%nat; [reflexivity|].
  destruct (truthy (extract_title (block_lines block))); cbn [negb andb]; [|reflexivity].
  destruct (0 <? List.length ingredients)%nat; reflexivity.
Qed.

End ParserProperties.

(** ** The block parser *)

Section BlockParser.
Context `{Host}.

Lemma few_lines_rejected (now : number) (block : str) :
  (List.length (block_lines block) <? 3)%nat = true ->
  parseRecipeBlock now block = Ok None.
Proof. intros Hlen. unfold parseRecipeBlock. now rewrite Hlen. Qed.

(** C10: a block with fewer than three non-empty lines (after trimming) is
    rejected by the block parser whatever it contains; no record is built
    and nothing is thrown. *)
Theorem short_block_rejected (now : number) (block : str) :
  (List.length (block_lines block) < 3)%nat ->
  parseRecipeBlock now block = Ok None.
Proof. intros Hlen. apply few_lines_rejected. now apply Nat.ltb_lt. Qed.

(** A record is built exactly from a block of three lines or more whose
    title and ingredient list are not empty; its fields are what the
    extractors return. *)
Lemma parseRecipeBlock_accepts (now : number) (block : str) (r : recipe number) :
  parseRecipeBlock now block = Ok (Some r) ->
  (3 <= List.length (block_lines block))%nat
  /\ title r = extract_title (block_lines block)
  /\ title r <> []
  /\ extract_ingredients block = Ok (ingredients r)
  /\ ingredients r <> []
  /\ exists found,
       find_instructions instrPatterns block = Ok found
       /\ instructions r =
          (if truthy (fallback_instructions block (ingredients r) found)
           then fallback_instructions block (ingredients r) found
           else NO_INSTRUCTIONS).
Proof.
  intros Hp.
  destruct (parseRecipeBlock_unfold now block)
    as (c & sv & tg & ing & found & nt & Hc & Hs & Ht & Hi & Hf & Hn & Heq).
  rewrite Heq in Hp. clear Heq.
  destruct (List.length (block_lines block) <? 3)%nat eqn:Elen; [discriminate|].
  destruct (truthy (extract_title (block_lines block))) eqn:Et; [|discriminate].
  destruct (0 <? List.length ing)%nat eqn:Ei; [|discriminate].
  cbn [negb] in Hp. inversion Hp; subst r; clear Hp. cbn [title ingredients instructions].
  apply Nat.ltb_ge in Elen. apply truthy_nonempty in Et. apply Nat.ltb_lt in Ei.
  repeat split; auto.
  - intros ->. simpl in Ei. lia.
  - exists found. split; [assumption|reflexivity].
Qed.

(** C8: the instructions of an accepted block are never empty: they are the
    recovered text (header match, else the text after the ingredients), and
    the sentinel when no text is recovered; whether text is recovered plays
    no part in acceptance, which three lines, a title and an ingredient
    decide alone. *)
Theorem instructions_never_empty (now : number) (block : str) :
  (forall r, parseRecipeBlock now block = Ok (Some r) ->
     instructions r <> []
     /\ exists found,
          find_instructions instrPatterns block = Ok found
          /\ (fallback_instructions block (ingredients r) found = [] ->
              instructions r = NO_INSTRUCTIONS)
          /\ (fallback_instructions block (ingredients r) found <> [] ->
              instructions r = fallback_instructions block (ingredients r) found))
  /\ (forall l,
        (3 <= List.length (block_lines block))%nat ->
        extract_title (block_lines block) <> [] ->
        extract_ingredients block = Ok l -> l <> [] ->
        exists r, parseRecipeBlock now block = Ok (Some r)).
Proof.
  split.
  - intros r Hp. apply parseRecipeBlock_accepts in Hp.
    destruct Hp as (_ & _ & _ & _ & _ & found & Hf & Hi).
    destruct (truthy (fallback_instructions block (ingredients r) found)) eqn:Et.
    + apply truthy_nonempty in Et. split; [congruence|].
      exists found. repeat split; auto. intros E. contradiction.
    + split; [rewrite Hi; discriminate|].
      exists found. repeat split; auto. intros E.
      apply truthy_nonempty in E. congruence.
  - intros l Hlen Ht Hi Hl.
    destruct (parseRecipeBlock_unfold now block)
      as (c & sv & tg & ing & found & nt & _ & _ & _ & Hi' & _ & _ & Heq).
    rewrite Hi in Hi'. inversion Hi'; subst ing.
    rewrite Heq.
    apply Nat.ltb_ge in Hlen. rewrite Hlen.
    apply truthy_nonempty in Ht. rewrite Ht. cbn [negb].
    destruct l; [contradiction|]. cbn [List.length Nat.ltb Nat.leb]. eauto.
Qed.

(** *** Tags *)

Lemma tags_set_invariant (P : tagCat -> str -> Prop) (t : tagset) (c : tagCat)
      (v : list str) :
  (forall c' V, In V (tags_get t c') -> P c' V) ->
  (forall V, In V v -> P c V) ->
  forall c' V, In V (tags_get (tags_set t c v) c') -> P c' V.
Proof. intros Ht Hv c' V. destruct c, c'; simpl; auto. Qed.

Lemma extract_tag_invariant (block : str) (t t' : tagset) (c : tagCat) :
  (forall c' V, In V (tags_get t c') -> option_up_to_case c' V) ->
  extract_tag block t c = Ok t' ->
  forall c' V, In V (tags_get t' c') -> option_up_to_case c' V.
Proof.
  intros Ht. unfold extract_tag.
  set (explicit := match str_match flag_i (re_tag c) block with
                   | Some m => _
                   | None => Ok t
                   end).
  assert (Hexplicit : forall t1, explicit = Ok t1 ->
            forall c' V, In V (tags_get t1 c') -> option_up_to_case c' V).
  { subst explicit. intros t1.
    destruct (str_match flag_i (re_tag c) block) as [m|];
      [|intros E; inversion E; subst t1; exact Ht].
    destruct (group 1 m) as [g|]; [|discriminate]. cbn [bind]. intros E.
    inversion E; subst t1. apply tags_set_invariant; [exact Ht|].
    intros V HV. apply filter_In in HV. destruct HV as [_ HV].
    unfold is_option in HV. apply existsb_exists in HV.
    destruct HV as (opt & Hopt & E'). apply str_eqb_eq in E'.
    exists opt. split; [exact Hopt|]. right. congruence. }
  destruct explicit as [t1|]; [|discriminate]. cbn [bind].
  specialize (Hexplicit t1 eq_refl).
  destruct (tags_get t1 c) eqn:Eempty; intros E; inversion E; subst t'; [|exact Hexplicit].
  apply tags_set_invariant; [exact Hexplicit|].
  intros V HV. simpl in HV. apply filter_In in HV. destruct HV as [HV _].
  exists V. split; [exact HV|]. now left.
Qed.

(** Every value that the block parser lists under a category is an option
    of that category, up to case: the option itself when it was found in the
    text of the block, the option in lower case when it was given on the
    line of the category. *)
Lemma tags_are_options_up_to_case (now : number) (block : str) (r : recipe number) :
  parseRecipeBlock now block = Ok (Some r) ->
  forall c V, In V (tags_get (tags r) c) -> option_up_to_case c V.
Proof.
  intros Hp.
  destruct (parseRecipeBlock_unfold now block)
    as (ct & sv & tg & ing & found & nt & _ & _ & Ht & _ & _ & _ & Heq).
  rewrite Heq in Hp. clear Heq.
  assert (Htags : tags r = tg).
  { destruct (List.length (block_lines block) <? 3)%nat; [discriminate|].
    destruct (negb (truthy (extract_title (block_lines block)))); [discriminate|].
    destruct (0 <? List.length ing)%nat; [|discriminate].
    inversion Hp. reflexivity. }
  rewrite Htags. clear Hp Htags. unfold extract_tags in Ht.
  assert (Hinit : forall c' V, In V (tags_get no_tags c') -> option_up_to_case c' V)
    by (intros [] V []).
  revert Ht Hinit. generalize no_tags. induction TAG_KEYS as [|c cs IH]; intros t Ht Hinit.
  - simpl in Ht. inversion Ht; subst. exact Hinit.
  - simpl in Ht. destruct (extract_tag block t c) as [t'|] eqn:E; [|discriminate].
    simpl in Ht. apply (IH t' Ht). eapply extract_tag_invariant; eauto.
Qed.

End BlockParser.

Lemma short_block_rejected_witness :
  (List.length (block_lines two_lines) < 3)%nat
  /\ parseRecipeBlock (H := Reference.host) 0%Z two_lines = Ok None.
Proof.
  assert (Hlen : (List.length (block_lines two_lines) < 3)%nat) by (vm_compute; lia).
  split; [exact Hlen|].
  exact (short_block_rejected (H := Reference.host) 0%Z two_lines Hlen).
Defined.

(** Both a title and an ingredient are extracted from these two lines, and
    the block is rejected all the same. *)
Example usable_two_lines_rejected :
  extract_title (H := Reference.host) (block_lines two_lines_usable) = js "You Will Need:"
  /\ extract_ingredients (H := Reference.host) two_lines_usable = Ok [js "eggs"]
  /\ parseRecipeBlock (H := Reference.host) 0%Z two_lines_usable = Ok None.
Proof. vm_compute. repeat split. Qed.

(** A block without instructions is accepted, with the sentinel. *)
Example fruit_bowl_sentinel :
  parseRecipeBlock (H := Reference.host) 0%Z fruit_bowl
  = Ok (Some (Recipe (IdNum 0%Z) (js "Fruit Bowl") (js "Main") []
                     [js "apples"; js "pears"] (js "No instructions provided") []
                     no_tags)).
Proof. vm_compute. reflexivity. Qed.

Lemma instructions_never_empty_witness :
  exists r,
    parseRecipeBlock (H := Reference.host) 0%Z fruit_bowl = Ok (Some r)
    /\ instructions r = NO_INSTRUCTIONS
    /\ instructions r <> [].
Proof.
  destruct (instructions_never_empty (H := Reference.host) 0%Z fruit_bowl) as [Hacc Hemit].
  assert (Hi : extract_ingredients (H := Reference.host) fruit_bowl
               = Ok [js "apples"; js "pears"]) by (vm_compute; reflexivity).
  assert (Hf : find_instructions instrPatterns fruit_bowl = Ok [])
    by (vm_compute; reflexivity).
  destruct (Hemit [js "apples"; js "pears"]) as [r Hr].
  - vm_compute. lia.
  - vm_compute. discriminate.
  - exact Hi.
  - discriminate.
  - exists r. destruct (Hacc r Hr) as (Hne & found & Hf' & Hsent & _).
    repeat split; [exact Hr| |exact Hne].
    apply Hsent.
    apply parseRecipeBlock_accepts in Hr. destruct Hr as (_ & _ & _ & Hi' & _).
    assert (E1 : ingredients r = [js "apples"; js "pears"]) by congruence.
    assert (E2 : found = []) by congruence.
    rewrite E1, E2. vm_compute. reflexivity.
Defined.

(** ** The splitter *)

Section SplitterProperties.
Context `{Host}.

Lemma parse_blocks_ext (p1 p2 : number -> str -> res (option (recipe number)))
      (blocks : list str) :
  (forall now b, In b blocks -> p1 now b = p2 now b) ->
  forall n, parse_blocks p1 n blocks = parse_blocks p2 n blocks.
Proof.
  induction blocks as [|b bs IH]; intros Hext n; simpl; [reflexivity|].
  rewrite (Hext (clock n) b) by (left; reflexivity).
  destruct (p2 (clock n) b) as [[r|]|e]; simpl; auto.
  - rewrite IH by (intros; apply Hext; right; assumption). reflexivity.
  - apply IH. intros; apply Hext; right; assumption.
Qed.

Lemma filter_long_Forall (threshold : nat) (pieces : list str) :
  Forall (fun b => (threshold < List.length b)%nat /\ exists piece, b = trim piece)
         (filter (fun b => (threshold <? List.length b)%nat) (map trim pieces)).
Proof.
  apply Forall_forall. intros b Hb. apply filter_In in Hb. destruct Hb as [Hin Hlen].
  apply Nat.ltb_lt in Hlen. apply in_map_iff in Hin. destruct Hin as (piece & <- & _).
  eauto.
Qed.

(** The three rules in their order: a rule is tried only when every rule
    before it left the text in one piece. *)
Lemma split_blocks_rule_order (text : str) :
  let by1 := split_re no_flags re_separator text in
  let by2 := split_re no_flags re_blank_then_title text in
  let by3 := split_re no_flags re_heading text in
  (List.length by1 <> 1%nat -> split_blocks text = by1)
  /\ (List.length by1 = 1%nat -> List.length by2 <> 1%nat -> split_blocks text = by2)
  /\ (List.length by1 = 1%nat -> List.length by2 = 1%nat -> split_blocks text = by3).
Proof.
  cbv zeta. unfold split_blocks, split_if_single.
  destruct (Nat.eqb (List.length (split_re no_flags re_separator text)) 1) eqn:E1.
  - apply Nat.eqb_eq in E1.
    destruct (Nat.eqb (List.length (split_re no_flags re_blank_then_title text)) 1) eqn:E2.
    + apply Nat.eqb_eq in E2. repeat split; intros; try congruence.
    + apply Nat.eqb_neq in E2. repeat split; intros; try congruence.
  - rewrite E1. apply Nat.eqb_neq in E1. repeat split; intros; try congruence.
Qed.

(** C7: every block handed to the block parser is a trimmed piece longer
    than the threshold, which is 30 code units (50 in the older splitter);
    shorter pieces are dropped by the splitter itself, so that the result
    of the import does not depend on what the parser would do with them. *)
Theorem short_blocks_never_parsed (text : str) :
  (30 <= MIN_BLOCK_LENGTH <= 50)%nat
  /\ Forall (fun b => (MIN_BLOCK_LENGTH < List.length b)%nat /\ exists piece, b = trim piece)
            (candidate_blocks text)
  /\ (forall p1 p2,
        (forall now b, (MIN_BLOCK_LENGTH < List.length b)%nat -> p1 now b = p2 now b) ->
        parseText_with p1 text = parseText_with p2 text)
  /\ (30 <= Legacy.MIN_BLOCK_LENGTH <= 50)%nat
  /\ Forall (fun b => (Legacy.MIN_BLOCK_LENGTH < List.length b)%nat
                      /\ exists piece, b = trim piece)
            (Legacy.candidate_blocks text)
  /\ (forall p1 p2,
        (forall now b, (Legacy.MIN_BLOCK_LENGTH < List.length b)%nat -> p1 now b = p2 now b) ->
        Legacy.parseText_with p1 text = Legacy.parseText_with p2 text).
Proof.
  assert (Hnew := filter_long_Forall MIN_BLOCK_LENGTH (split_blocks (normalize text))).
  assert (Hold := filter_long_Forall Legacy.MIN_BLOCK_LENGTH
                    (split_re no_flags Legacy.re_split (Legacy.normalize text))).
  repeat split.
  - unfold MIN_BLOCK_LENGTH. lia.
  - unfold MIN_BLOCK_LENGTH. lia.
  - exact Hnew.
  - intros p1 p2 Hext. unfold parseText_with. apply parse_blocks_ext.
    intros now b Hb. apply Hext.
    exact (proj1 (proj1 (Forall_forall _ _) Hnew b Hb)).
  - unfold Legacy.MIN_BLOCK_LENGTH. lia.
  - unfold Legacy.MIN_BLOCK_LENGTH. lia.
  - exact Hold.
  - intros p1 p2 Hext. unfold Legacy.parseText_with. apply parse_blocks_ext.
    intros now b Hb. apply Hext.
    exact (proj1 (proj1 (Forall_forall _ _) Hold b Hb)).
Qed.

End SplitterProperties.

(** ** The import paths *)

Section ImportProperties.
Context `{Host}.

Lemma parseRecipeBlock_returns (now : number) (block : str) :
  exists o, parseRecipeBlock now block = Ok o.
Proof.
  destruct (parseRecipeBlock_unfold now block)
    as (c & sv & tg & ing & found & nt & _ & _ & _ & _ & _ & _ & Heq).
  rewrite Heq. eauto.
Qed.

(** Rejection does not depend on the clock. *)
Lemma rejection_any_time (now now' : number) (block : str) :
  parseRecipeBlock now block = Ok None -> parseRecipeBlock now' block = Ok None.
Proof.
  destruct (parseRecipeBlock_unfold now block)
    as (c & sv & tg & ing & found & nt & Hc & Hs & Ht & Hi & Hf & Hn & Heq).
  destruct (parseRecipeBlock_unfold now' block)
    as (c' & sv' & tg' & ing' & found' & nt' & Hc' & Hs' & Ht' & Hi' & Hf' & Hn' & Heq').
  rewrite Heq, Heq'. rewrite Hi in Hi'. inversion Hi'; subst ing'.
  destruct (List.length (block_lines block) <? 3)%nat; [reflexivity|].
  destruct (negb (truthy (extract_title (block_lines block)))); [reflexivity|].
  destruct (0 <? List.length ing)%nat; [discriminate|reflexivity].
Qed.

Lemma parse_blocks_returns (n : nat) (blocks : list str) :
  exists rs,
    parse_blocks parseRecipeBlock n blocks = Ok rs
    /\ Forall (fun r => title r <> [] /\ ingredients r <> []) rs.
Proof.
  revert n. induction blocks as [|b bs IH]; intros n; simpl; [eauto|].
  destruct (parseRecipeBlock_returns (clock n) b) as [[r|] Hr]; rewrite Hr; simpl.
  - destruct (IH (S n)) as (rs & -> & Hrs). simpl. eexists; split; [reflexivity|].
    constructor; [|exact Hrs].
    apply parseRecipeBlock_accepts in Hr. tauto.
  - apply IH.
Qed.



Lemma recipe_value_valid (r : recipe number) :
  title r <> [] -> ingredients r <> [] -> valid_record (recipe_value r).
Proof.
  intros Ht Hi. split.
  - exists (title r). split; [reflexivity|exact Ht].
  - exists (map JStr (ingredients r)). split; [reflexivity|].
    destruct (ingredients r); [contradiction|discriminate].
Qed.

Lemma split_chr_nonempty (c : N) (s : str) : split_chr c s <> [].
Proof.
  induction s as [|x s IH]; simpl; [discriminate|].
  destruct (x =? c); [discriminate|].
  destruct (split_chr c s); discriminate.
Qed.

Lemma import_ingredients_array (v o : value) :
  import_ingredients v = Ok o ->
  exists items,
    o = JArr items /\ ((forall l, v <> JArr l) -> items <> []).
Proof.
  assert (Hsplit : forall s, exists items,
             strings (map trim (split_chr (ch ",") s)) = JArr items /\ items <> []).
  { intros s. eexists; split; [reflexivity|].
    pose proof (split_chr_nonempty (ch ",") s).
    destruct (split_chr (ch ",") s); [contradiction|discriminate]. }
  intros Hi.
  destruct v as [| |b|n|s|items|props];
    cbv beta iota delta [import_ingredients] in Hi;
    try (match type of Hi with
         | context [or_default ?a ?d] => destruct (or_default a d) as [| | | |s'| |]
         end;
         try discriminate;
         destruct (Hsplit s') as (l & Hl & Hne); rewrite Hl in Hi;
         inversion Hi; eauto; fail).
  inversion Hi; subst. exists items. split; [reflexivity|].
  intros Hn. exfalso. now apply (Hn items).
Qed.

Lemma prop_field (r v : value) (k : string) : prop r k = Ok v -> v = field k r.
Proof. destruct r; simpl; intros E; inversion E; reflexivity. Qed.

(** What [parseJSON] makes of one element: the title and the category
    with their defaults, the ingredients as [import_ingredients] leaves
    them. *)
Lemma import_record_fields (now : number) (r o : value) :
  import_record now r = Ok o ->
  field "title" o = or_default (field "title" r) (JStr (js "Untitled Recipe"))
  /\ field "category" o = or_default (field "category" r) (JStr (js "Main"))
  /\ import_ingredients (field "ingredients" r) = Ok (field "ingredients" o).
Proof.
  unfold import_record. intros Hr.
  destruct (prop r "title") as [t|] eqn:Et; [|discriminate].
  destruct (prop r "category") as [c|] eqn:Ec; [|discriminate].
  destruct (prop r "servings") as [sv|] eqn:Es; [|discriminate].
  destruct (prop r "ingredients") as [ing|] eqn:Ei; [|discriminate].
  cbn [bind] in Hr.
  destruct (import_ingredients ing) as [ing'|] eqn:Ei'; [|discriminate].
  destruct (prop r "instructions") as [ins|] eqn:Eins; [|discriminate].
  destruct (prop r "notes") as [nt|] eqn:En; [|discriminate].
  destruct (prop r "tags") as [tg|] eqn:Etg; [|discriminate].
  cbn [bind] in Hr. inversion Hr; subst o; clear Hr.
  apply prop_field in Et, Ec, Ei. subst t c ing.
  split; [reflexivity|]. split; [reflexivity|]. exact Ei'.
Qed.

Lemma or_default_truthy (v d : value) :
  js_truthy d = true -> js_truthy (or_default v d) = true.
Proof. unfold or_default. destruct (js_truthy v) eqn:E; auto. Qed.

Lemma import_records_fields (n : nat) (recipes os : list value) :
  import_records n recipes = Ok os ->
  Forall (fun o => js_truthy (field "title" o) = true
                   /\ exists items, field "ingredients" o = JArr items) os.
Proof.
  revert n os. induction recipes as [|r rs IH]; intros n os Hos; simpl in Hos.
  - inversion Hos. constructor.
  - destruct (import_record (clock n) r) as [o|] eqn:Eo; [|discriminate].
    destruct (import_records (S n) rs) as [os'|] eqn:Eos; [|discriminate].
    simpl in Hos. inversion Hos; subst os. constructor; [|eapply IH; eauto].
    apply import_record_fields in Eo. destruct Eo as (Ht & _ & Hi). split.
    + rewrite Ht. now apply or_default_truthy.
    + apply import_ingredients_array in Hi. destruct Hi as (items & Hi & _). eauto.
Qed.

(** C1 as amended: every record of the text path has a non-empty title
    and a non-empty ingredient list, and a block without a usable title or
    without ingredients gives no record and throws nothing; the JSON path
    validates nothing: the title of a record is a truthy value (the default
    when the input has none) and its ingredients are a list, which is the
    list of the input as it is. *)
Theorem text_records_valid_json_records_defaulted :
  (forall text, exists rs,
      parseText text = Ok rs
      /\ Forall (fun r => title r <> [] /\ ingredients r <> []) rs)
  /\ (forall now block,
        extract_title (block_lines block) = [] \/ extract_ingredients block = Ok [] ->
        parseRecipeBlock now block = Ok None)
  /\ (forall content, sniff_json content = false ->
        exists rs, import_payload content = Ok rs /\ Forall valid_record rs)
  /\ (forall text rs, parseJSON text = Ok rs ->
        Forall (fun o => js_truthy (field "title" o) = true
                         /\ exists items, field "ingredients" o = JArr items) rs)
  /\ (forall now r o,
        import_record now r = Ok o ->
        field "title" o = or_default (field "title" r) (JStr (js "Untitled Recipe"))
        /\ (forall items, field "ingredients" r = JArr items ->
            field "ingredients" o = JArr items)
        /\ ((forall items, field "ingredients" r <> JArr items) ->
            exists s,
              or_default (field "ingredients" r) (JStr []) = JStr s
              /\ field "ingredients" o = strings (map trim (split_chr (ch ",") s)))).
Proof.
  split; [|split; [|split; [|split]]].
  - intros text. apply parse_blocks_returns.
  - intros now block Hno.
    destruct (parseRecipeBlock_unfold now block)
      as (c & sv & tg & ing & found & nt & _ & _ & _ & Hi & _ & _ & Heq).
    rewrite Heq.
    destruct (List.length (block_lines block) <? 3)%nat; [reflexivity|].
    destruct Hno as [Ht|Hing].
    + rewrite Ht. reflexivity.
    + rewrite Hi in Hing. inversion Hing; subst ing.
      destruct (negb (truthy (extract_title (block_lines block)))); reflexivity.
  - intros content Hsniff. unfold import_payload. rewrite Hsniff.
    destruct (parse_blocks_returns 0 (candidate_blocks content)) as (rs & Hrs & Hvalid).
    unfold parseText, parseText_with. rewrite Hrs. simpl.
    eexists; split; [reflexivity|].
    apply Forall_forall. intros v Hv. apply in_map_iff in Hv.
    destruct Hv as (r & <- & Hr).
    destruct (proj1 (Forall_forall _ _) Hvalid r Hr). now apply recipe_value_valid.
  - intros text rs. unfold parseJSON.
    destruct (JSON_parse text) as [data|]; [|discriminate].
    apply import_records_fields.
  - intros now r o Hr.
    apply import_record_fields in Hr. destruct Hr as (Ht & _ & Hi).
    split; [exact Ht|]. split.
    + intros items Hitems. rewrite Hitems in Hi. simpl in Hi. congruence.
    + intros Hnot. unfold import_ingredients in Hi.
      destruct (field "ingredients" r) as [| |b|n|s|items|props] eqn:Ef;
        try (destruct (or_default _ (JStr [])) as [| | | |s'| |];
             try discriminate; exists s'; split; [reflexivity|congruence]).
      exfalso. now apply (Hnot items).
Qed.

Lemma add_to_store_accepted (accepted : nat -> bool) (imported : list value) :
  (forall n, accepted n = true) -> forall n, add_to_store accepted n imported = true.
Proof.
  intros Hall. induction imported as [|r rest IH]; intros n; cbn [add_to_store];
    [reflexivity|]. now rewrite Hall, IH.
Qed.

(** A parse failure is reported when the parser throws, and when the
    store refuses one of the records. *)
Lemma import_report_failure (payload : res (list value)) (accepted : nat -> bool) :
  import_report payload accepted = CouldNotParse
  <-> (exists e, payload = Throw e)
      \/ (exists imported, payload = Ok imported /\ add_to_store accepted 0 imported = false).
Proof.
  unfold import_report. destruct payload as [[|r rest]|e].
  - split; [discriminate|]. intros [[e He]|(imported & Hi & Hadd)]; [discriminate He|].
    injection Hi as <-. discriminate Hadd.
  - destruct (add_to_store accepted 0 (r :: rest)) eqn:E.
    + split; [discriminate|]. intros [[e He]|(imported & Hi & Hadd)]; [discriminate He|].
      injection Hi as <-. congruence.
    + split; [|reflexivity]. intros _. right. now exists (r :: rest).
  - split; [|reflexivity]. intros _. left. now exists e.
Qed.

End ImportProperties.

(** ** The scenarios on the reference host *)

Lemma short_blocks_never_parsed_witness :
  Forall (fun b => (30 < List.length b)%nat) (candidate_blocks (two_recipes "====="))
  /\ List.length (candidate_blocks (two_recipes "=====")) = 2%nat.
Proof.
  destruct (short_blocks_never_parsed (H := Reference.host) (two_recipes "====="))
    as (_ & Hlong & _).
  split.
  - eapply Forall_impl; [|exact Hlong]. intros b [Hb _]. exact Hb.
  - vm_compute. reflexivity.
Defined.

(** C1, counterexample: the JSON path returns a record whose ingredient
    list is empty. *)
Lemma json_record_without_ingredients :
  ~ (forall rs,
       import_payload (H := Reference.host) json_without_ingredients = Ok rs ->
       Forall valid_record rs).
Proof.
  intros Hclaim.
  assert (E : import_payload (H := Reference.host) json_without_ingredients
              = Ok [JObj [ (js "id", JNum 1700000000000%Z);
                           (js "title", JStr (js "Toast"));
                           (js "category", JStr (js "Main"));
                           (js "servings", JStr []);
                           (js "ingredients", JArr []);
                           (js "instructions", JStr []);
                           (js "notes", JStr []);
                           (js "tags", tags_value (H := Reference.host) no_tags) ]])
    by (vm_compute; reflexivity).
  apply Hclaim in E. inversion E as [|v l Hv _]. subst.
  destruct Hv as [_ (items & Hitems & Hne)].
  cbv in Hitems. injection Hitems as Hi. apply Hne. symmetry. exact Hi.
Qed.

Lemma text_records_valid_json_records_defaulted_witness :
  (exists rs, import_payload (H := Reference.host) tomato_soup = Ok rs
              /\ Forall valid_record rs)
  /\ parseRecipeBlock (H := Reference.host) 0%Z two_lines = Ok None.
Proof.
  destruct (text_records_valid_json_records_defaulted (H := Reference.host))
    as (_ & Hreject & Hvalid & _).
  split.
  - apply Hvalid. vm_compute. reflexivity.
  - apply Hreject. right. vm_compute. reflexivity.
Defined.

(** C3, counterexample: the record of the scenario does not have the
    category Main. *)
Lemma tomato_soup_not_main :
  ~ (exists r,
       parseText (H := Reference.host) tomato_soup = Ok [r]
       /\ title r = js "Tomato Soup"
       /\ category r = js "Main"
       /\ ingredients r = [js "tomatoes"; js "onion"; js "garlic"]
       /\ instructions r = js "Sauté onion and garlic, add tomatoes, simmer 20 minutes."
       /\ notes r = []).
Proof.
  intros (r & Hr & _ & Hc & _).
  assert (E : res_map (map category) (parseText (H := Reference.host) tomato_soup)
              = Ok [js "Soup"]) by (vm_compute; reflexivity).
  rewrite Hr in E. cbn [res_map bind map] in E. rewrite Hc in E.
  vm_compute in E. discriminate.
Qed.

(** C3 as amended: the scenario yields one record, with the title, the
    ingredients and the instructions of the text, without notes, and with
    the category Soup, since the word soup stands in the text. *)
Theorem tomato_soup_scenario :
  parseText (H := Reference.host) tomato_soup
  = Ok [Recipe (IdNum (Reference.tick 0)) (js "Tomato Soup") (js "Soup") []
               [js "tomatoes"; js "onion"; js "garlic"]
               (js "Sauté onion and garlic, add tomatoes, simmer 20 minutes.")
               [] no_tags].
Proof. vm_compute. reflexivity. Qed.

(** C2, the failing input: on the sample recipe of the import guide the
    record lists, under region, a value that is not an option of that
    category: the option in lower case. *)
Theorem guacamole_region_tag :
  res_map (map tags) (parseText (H := Reference.host) guacamole)
  = Ok [Tags [js "quick"; js "few ingredients"] [js "latin america"] [js "snack"] []]
  /\ existsb (str_eqb (js "latin america")) (options region) = false
  /\ existsb (str_eqb (js "Latin America")) (options region) = true.
Proof. vm_compute. repeat split. Qed.

(** C6, the failing input: a line of three [=] between two recipes does
    not separate them, a line of five does; the older splitter separates
    them on three. *)
Theorem three_character_rule_not_split :
  split_blocks (normalize (two_recipes "===")) = [two_recipes "==="]
  /\ res_map (map title) (parseText (H := Reference.host) (two_recipes "==="))
     = Ok [js "Tomato Soup"]
  /\ res_map (map title) (parseText (H := Reference.host) (two_recipes "---"))
     = Ok [js "Tomato Soup"]
  /\ res_map (map title) (parseText (H := Reference.host) (two_recipes "====="))
     = Ok [js "Tomato Soup"; js "Green Salad"]
  /\ List.length (Legacy.candidate_blocks (two_recipes "===")) = 2%nat.
Proof. vm_compute. repeat split. Qed.

(** ** The similarity engine *)

Section SimilarityProperties.
Context `{Host}.

Lemma insert_desc_perm (x : scored number) (l : list (scored number)) :
  Permutation (insert_desc x l) (x :: l).
Proof.
  induction l as [|y l IH]; simpl; [reflexivity|].
  destruct (Qle_bool (similarity y) (similarity x)); [reflexivity|].
  rewrite IH. apply perm_swap.
Qed.

Lemma sort_desc_perm (l : list (scored number)) : Permutation (sort_desc l) l.
Proof.
  induction l as [|x l IH]; simpl; [reflexivity|].
  rewrite insert_desc_perm. now constructor.
Qed.

Lemma insert_desc_sorted (x : scored number) (l : list (scored number)) :
  StronglySorted ranks_before l -> StronglySorted ranks_before (insert_desc x l).
Proof.
  induction 1 as [|y l Hl IH Hy]; simpl.
  - repeat constructor.
  - destruct (Qle_bool (similarity y) (similarity x)) eqn:E.
    + apply Qle_bool_iff in E. constructor.
      * now constructor.
      * constructor; [exact E|].
        eapply Forall_impl; [|exact Hy]. unfold ranks_before. intros z Hz.
        eapply Qle_trans; eauto.
    + constructor; [exact IH|].
      rewrite insert_desc_perm. constructor; [|exact Hy].
      unfold ranks_before. apply Qlt_le_weak, Qnot_le_lt.
      intros Hle. apply Qle_bool_iff in Hle. congruence.
Qed.

Lemma sort_desc_sorted (l : list (scored number)) :
  StronglySorted ranks_before (sort_desc l).
Proof.
  induction l as [|x l IH]; simpl; [constructor|]. now apply insert_desc_sorted.
Qed.

(** Stability: the items of any one score keep their order. *)
Lemma insert_desc_stable (q : Q) (x : scored number) (l : list (scored number)) :
  filter (fun y => Qeq_bool (similarity y) q) (insert_desc x l)
  = filter (fun y => Qeq_bool (similarity y) q) (x :: l).
Proof.
  induction l as [|y l IH]; [reflexivity|].
  cbn [insert_desc].
  destruct (Qle_bool (similarity y) (similarity x)) eqn:E; [reflexivity|].
  cbn [filter] in *. rewrite IH.
  destruct (Qeq_bool (similarity x) q) eqn:Ex; [|reflexivity].
  destruct (Qeq_bool (similarity y) q) eqn:Ey; [|reflexivity].
  exfalso. apply Qeq_bool_iff in Ex, Ey.
  assert (Hle : (similarity y <= similarity x)%Q) by (rewrite Ex, Ey; apply Qle_refl).
  apply Qle_bool_iff in Hle. congruence.
Qed.

Lemma sort_desc_stable (q : Q) (l : list (scored number)) :
  filter (fun y => Qeq_bool (similarity y) q) (sort_desc l)
  = filter (fun y => Qeq_bool (similarity y) q) l.
Proof.
  induction l as [|x l IH]; [reflexivity|].
  cbn [sort_desc fold_right]. fold (sort_desc l).
  rewrite insert_desc_stable. cbn [filter]. now rewrite IH.
Qed.

Lemma firstn_subset {A : Type} (n : nat) (l : list A) (x : A) :
  In x (firstn n l) -> In x l.
Proof.
  intros Hx. rewrite <- (firstn_skipn n l). apply in_or_app. now left.
Qed.

(** A list without repetition is its own set. *)
Lemma new_Set_NoDup (l : list str) : NoDup l -> new_Set l = l.
Proof.
  induction 1 as [|x l Hx Hl IH]; simpl; [reflexivity|].
  rewrite IH. f_equal.
  apply forallb_filter_id. apply forallb_forall. intros y Hy.
  apply negb_true_iff. destruct (str_eqb x y) eqn:E; [|reflexivity].
  apply str_eqb_eq in E. subst y. contradiction.
Qed.

(** The engine ranks the candidates that are not the reference and share
    two ingredients or more: they are scored, sorted by descending score
    with ties in corpus order, and cut to [maxResults]; for a candidate
    whose ingredients, compared without case, are all different, the shared
    count and the score are those of the specification. *)
Lemma findSimilarRecipes_ranking (reference : recipe number)
      (allRecipes : list (recipe number)) (maxResults : nat) :
  let mine := ingredient_set reference in
  let qualifying :=
    filter (fun item => (2 <=? sharedCount item)%nat)
      (map (score mine)
         (filter (fun r => negb (ident_eqb (id r) (id reference))) allRecipes)) in
  exists ranked,
    findSimilarRecipes (Some reference) allRecipes maxResults = firstn maxResults ranked
    /\ Permutation ranked qualifying
    /\ StronglySorted ranks_before ranked
    /\ (forall q, filter (fun y => Qeq_bool (similarity y) q) ranked
                  = filter (fun y => Qeq_bool (similarity y) q) qualifying)
    /\ (List.length (findSimilarRecipes (Some reference) allRecipes maxResults)
        <= maxResults)%nat
    /\ (forall item,
          In item (findSimilarRecipes (Some reference) allRecipes maxResults) ->
          In (scored_recipe item) allRecipes
          /\ ident_eqb (id (scored_recipe item)) (id reference) = false
          /\ (2 <= sharedCount item)%nat
          /\ sharedCount item = List.length (sharedIngredients item)
          /\ (NoDup (map toLowerCase (ingredients (scored_recipe item))) ->
              sharedCount item
              = intersection_size mine (ingredient_set (scored_recipe item))
              /\ similarity item = jaccard mine (ingredient_set (scored_recipe item)))).
Proof.
  intros mine qualifying. exists (sort_desc qualifying).
  assert (Hrun : findSimilarRecipes (Some reference) allRecipes maxResults
                 = firstn maxResults (sort_desc qualifying)).
  { unfold findSimilarRecipes. destruct allRecipes; [|reflexivity].
    simpl. now destruct maxResults. }
  rewrite Hrun.
  split; [reflexivity|]. split; [apply sort_desc_perm|].
  split; [apply sort_desc_sorted|]. split; [intros q; apply sort_desc_stable|].
  split; [rewrite length_firstn; lia|].
  intros item Hitem. apply firstn_subset in Hitem.
  apply (Permutation_in _ (sort_desc_perm qualifying)) in Hitem.
  unfold qualifying in Hitem. apply filter_In in Hitem. destruct Hitem as [Hitem Hshared].
  apply in_map_iff in Hitem. destruct Hitem as (r & <- & Hr).
  apply filter_In in Hr. destruct Hr as [Hr Hid].
  apply negb_true_iff in Hid. apply Nat.leb_le in Hshared.
  cbn [score scored_recipe sharedCount sharedIngredients similarity] in *.
  repeat (split; [solve [auto]|]).
  intros Hdistinct. subst mine.
  unfold jaccard, union_size, intersection_size, ingredient_set.
  rewrite (new_Set_NoDup _ Hdistinct). split; reflexivity.
Qed.

End SimilarityProperties.

(** C4, the failing input: a candidate that shares one ingredient with
    the reference and names it twice is kept, with a shared count of 2 and a
    score of 2/4; the two ingredient sets have one ingredient in common out
    of four. *)
Theorem repeated_ingredient_counted_twice :
  findSimilarRecipes (H := Reference.host) (Some shortbread) [shortbread; toffee]
                     DEFAULT_MAX_RESULTS
  = [Scored toffee (2 # 4) 2 [js "butter"; js "butter"]]
  /\ intersection_size (ingredient_set (H := Reference.host) shortbread)
                       (ingredient_set (H := Reference.host) toffee) = 1%nat
  /\ jaccard (ingredient_set (H := Reference.host) shortbread)
             (ingredient_set (H := Reference.host) toffee) = (1 # 4)%Q.
Proof. vm_compute. repeat split. Qed.

(** ** The JSON round trip *)

(** *** The reference codec reads back what it wrote

    Numbers first, then strings, then values: what [stringify_at] writes
    for a value, [read] reads back as that value, and stops after it. *)










(** Strings *)








(** Values *)
































Section RoundTrip.
Context `{Host}.





End RoundTrip.




(** ** What an accepted block looks like *)

Lemma trimStart_idempotent (s : str) : trimStart (trimStart s) = trimStart s.
Proof.
  induction s as [|c s IH]; simpl; [reflexivity|].
  destruct (is_space c) eqn:E; [exact IH|]. simpl. now rewrite E.
Qed.

(** [trimStart] takes white space off the front and nothing else. *)
Lemma trimStart_cut (s : str) :
  exists p, s = p ++ trimStart s /\ forallb is_space p = true.
Proof.
  induction s as [|c s (p & Hp & Hsp)]; simpl.
  - exists []. split; reflexivity.
  - destruct (is_space c) eqn:E.
    + exists (c :: p). simpl. rewrite E, Hsp. split; [now rewrite <- Hp|reflexivity].
    + exists []. split; reflexivity.
Qed.

Lemma trimStart_fixed (s : str) :
  trimStart s = s <-> match s with c :: _ => is_space c = false | [] => True end.
Proof.
  destruct s as [|c s]; simpl; [tauto|].
  destruct (is_space c) eqn:E; split; try congruence; try reflexivity.
  intros Heq. exfalso.
  destruct (trimStart_cut s) as (p & Hp & _).
  assert (Hlen : List.length s = (List.length p + List.length (trimStart s))%nat)
    by (rewrite Hp at 1; apply length_app).
  rewrite Heq in Hlen. simpl in Hlen. lia.
Qed.

Lemma trimEnd_idempotent (s : str) : trimEnd (trimEnd s) = trimEnd s.
Proof. unfold trimEnd. now rewrite rev_involutive, trimStart_idempotent. Qed.

(** Taking white space off the end leaves the front as it was. *)
Lemma trimStart_trimEnd (s : str) : trimStart s = s -> trimStart (trimEnd s) = trimEnd s.
Proof.
  intros Hs. apply trimStart_fixed. apply trimStart_fixed in Hs.
  unfold trimEnd.
  destruct (trimStart_cut (rev s)) as (p & Hp & Hsp).
  assert (Hcut : s = rev (trimStart (rev s)) ++ rev p).
  { rewrite <- rev_app_distr, <- Hp. symmetry. apply rev_involutive. }
  destruct (rev (trimStart (rev s))) as [|c t]; [exact I|].
  rewrite Hcut in Hs. exact Hs.
Qed.

Lemma trim_idempotent (s : str) : trim (trim s) = trim s.
Proof.
  unfold trim.
  rewrite (trimStart_trimEnd (trimStart s)) by apply trimStart_idempotent.
  apply trimEnd_idempotent.
Qed.

Section AcceptedBlock.
Context `{Host}.

Lemma first_title_ok (candidates : list str) :
  first_title candidates = []
  \/ (title_ok (first_title candidates) = true
      /\ exists line, In line candidates /\ first_title candidates = clean_title line).
Proof.
  induction candidates as [|line rest IH]; simpl; [now left|].
  destruct (title_ok (clean_title line)) eqn:E.
  - right. split; [exact E|]. exists line. split; [now left|reflexivity].
  - destruct IH as [IH|(Hok & l & Hl & Heq)]; [now left|].
    right. split; [exact Hok|]. exists l. split; [now right|exact Heq].
Qed.

(** The title of an accepted block is one of the first five non-empty
    lines of the block, cleaned and put in title case; it has between 3
    and 100 code units and contains none of the words [ingredient],
    [instructions] and [serves], in any case. *)
Theorem accepted_title_well_formed (now : number) (block : str) (r : recipe number) :
  parseRecipeBlock now block = Ok (Some r) ->
  (exists line, In line (firstn 5 (block_lines block)) /\ title r = clean_title line)
  /\ (3 <= List.length (title r) <= 100)%nat
  /\ includes (toLowerCase (title r)) (js "ingredient") = false
  /\ includes (toLowerCase (title r)) (js "instructions") = false
  /\ includes (toLowerCase (title r)) (js "serves") = false.
Proof.
  intros Hp. apply parseRecipeBlock_accepts in Hp.
  destruct Hp as (_ & Ht & Hne & _). rewrite Ht in *. unfold extract_title in *.
  destruct (first_title_ok (firstn 5 (block_lines block))) as [E|(Hok & Hline)];
    [contradiction|].
  split; [exact Hline|].
  unfold title_ok in Hok.
  repeat (apply andb_true_iff in Hok; destruct Hok as [Hok ?]).
  repeat match goal with
         | Hn : negb _ = true |- _ => apply negb_true_iff in Hn
         end.
  apply Nat.leb_le in Hok.
  match goal with Hl : (_ <=? 100)%nat = true |- _ => apply Nat.leb_le in Hl end.
  repeat split; assumption.
Qed.

Lemma split_chr_no_separator (c : N) (s p : str) : In p (split_chr c s) -> ~ In c p.
Proof.
  revert p. induction s as [|x s IH]; intros p; simpl.
  - intros [<-|[]] [].
  - destruct (x =? c) eqn:E.
    + intros [<-|Hp]; [intros []|now apply IH].
    + destruct (split_chr c s) as [|q qs].
      * intros [<-|[]] [->|[]]. now rewrite N.eqb_refl in E.
      * intros [<-|Hp]; [|apply IH; now right].
        intros [->|Hq]; [now rewrite N.eqb_refl in E|].
        apply (IH q); [now left|exact Hq].
Qed.

Lemma trimStart_sub (s : str) (c : N) : In c (trimStart s) -> In c s.
Proof.
  destruct (trimStart_cut s) as (p & Hp & _). intros Hc. rewrite Hp.
  apply in_or_app. now right.
Qed.

Lemma trim_sub (s : str) (c : N) : In c (trim s) -> In c s.
Proof.
  unfold trim, trimEnd. intros Hc. apply trimStart_sub.
  apply in_rev in Hc. apply trimStart_sub in Hc. now apply in_rev.
Qed.

(** What a replacement by the empty text leaves was in the text. *)
Lemma replace_empty_sub (fl : flags) (r : regex) (s : str) (c : N) :
  In c (replace fl r [] s) -> In c s.
Proof.
  unfold replace, str_match.
  destruct (search_from fl r None [] s) as [f|] eqn:Ef; [|auto].
  apply search_from_splits in Ef. destruct Ef as [Hcut _]. simpl in Hcut.
  intros Hc. rewrite <- Hcut. apply in_app_or in Hc.
  apply in_or_app. destruct Hc as [Hc|Hc]; [now left|].
  right. apply in_or_app. now right.
Qed.

Lemma clean_ingredient_sub (line : str) (c : N) :
  In c (clean_ingredient line) -> In c line.
Proof.
  unfold clean_ingredient. intros Hc.
  apply trim_sub, replace_empty_sub, replace_empty_sub in Hc. exact Hc.
Qed.

Lemma extract_ingredients_kept (block : str) (l : list str) :
  extract_ingredients block = Ok l ->
  Forall (fun i => keep_ingredient i = true
                   /\ exists line, i = clean_ingredient line /\ ~ In LF line) l.
Proof.
  unfold extract_ingredients. intros Hl.
  destruct (find_ingredients block) as [[span|e]|]; cbn [bind] in Hl;
    try discriminate; inversion Hl; subst l; [|constructor].
  apply Forall_forall. intros i Hi. apply filter_In in Hi. destruct Hi as [Hi Hk].
  apply in_map_iff in Hi. destruct Hi as (line & <- & Hline).
  apply split_chr_no_separator in Hline. eauto.
Qed.

Lemma form_safe_spec (i : str) :
  form_safe i = true <-> i <> [] /\ trim i = i /\ ~ In LF i.
Proof.
  unfold form_safe. rewrite !andb_true_iff, negb_true_iff, truthy_nonempty, str_eqb_eq.
  assert (Hlf : existsb (N.eqb LF) i = false <-> ~ In LF i).
  { rewrite <- not_true_iff_false, existsb_exists. split.
    - intros Hn Hin. apply Hn. exists LF. split; [exact Hin|apply N.eqb_refl].
    - intros Hn (x & Hx & E). apply N.eqb_eq in E. subst x. contradiction. }
  rewrite Hlf. tauto.
Qed.

(** Every ingredient of an accepted block has between 2 and 199 code
    units, has no white space at either end, is on one line, and is not a
    section header ([ingredients], [you will need], [for the], [topping],
    [what you need], with or without colons) when put in lower case. *)
Theorem accepted_ingredients_well_formed (now : number) (block : str) (r : recipe number) :
  parseRecipeBlock now block = Ok (Some r) ->
  Forall (fun i => (2 <= List.length i <= 199)%nat
                   /\ trim i = i
                   /\ ~ In LF i
                   /\ test no_flags re_ingredient_header (toLowerCase i) = false)
         (ingredients r).
Proof.
  intros Hp. apply parseRecipeBlock_accepts in Hp.
  destruct Hp as (_ & _ & _ & Hi & _).
  apply extract_ingredients_kept in Hi.
  eapply Forall_impl; [|exact Hi]. cbv beta.
  intros i (Hk & line & Hline & Hlf). unfold keep_ingredient in Hk.
  apply andb_true_iff in Hk. destruct Hk as [Hk Hhead].
  apply andb_true_iff in Hk. destruct Hk as [Hlo Hhi].
  apply Nat.ltb_lt in Hlo, Hhi. apply negb_true_iff in Hhead.
  split; [lia|]. split; [|split; [|exact Hhead]].
  - subst i. unfold clean_ingredient. apply trim_idempotent.
  - intros Hin. apply Hlf. subst i. now apply clean_ingredient_sub.
Qed.

Lemma parseRecipeBlock_id (now : number) (block : str) (r : recipe number) :
  parseRecipeBlock now block = Ok (Some r) -> id r = IdNum now.
Proof.
  intros Hp.
  destruct (parseRecipeBlock_unfold now block)
    as (c & sv & tg & ing & found & nt & _ & _ & _ & _ & _ & _ & Heq).
  rewrite Heq in Hp.
  destruct (List.length (block_lines block) <? 3)%nat; [discriminate|].
  destruct (negb (truthy (extract_title (block_lines block)))); [discriminate|].
  destruct (0 <? List.length ing)%nat; [|discriminate].
  inversion Hp. reflexivity.
Qed.

Lemma parse_blocks_ids (n : nat) (blocks : list str) (rs : list (recipe number)) :
  parse_blocks parseRecipeBlock n blocks = Ok rs ->
  map id rs = map (fun i => IdNum (clock i)) (List.seq n (List.length rs))
  /\ (List.length rs <= List.length blocks)%nat.
Proof.
  revert n rs. induction blocks as [|b bs IH]; intros n rs Hrs; simpl in Hrs.
  - inversion Hrs. split; [reflexivity|simpl; lia].
  - destruct (parseRecipeBlock (clock n) b) as [[r|]|e] eqn:Er; simpl in Hrs;
      [| |discriminate].
    + destruct (parse_blocks parseRecipeBlock (S n) bs) as [rs'|] eqn:Ers;
        [|discriminate].
      simpl in Hrs. inversion Hrs; subst rs. destruct (IH _ _ Ers) as [Hids Hlen].
      simpl. rewrite Hids, (parseRecipeBlock_id _ _ _ Er). split; [reflexivity|lia].
    + destruct (IH _ _ Hrs) as [Hids Hlen]. split; [exact Hids|simpl; lia].
Qed.

(** The text path returns at most one record per candidate block, and the
    ids of its records are the successive readings of the clock, in order:
    the ids of one import are distinct exactly when those readings are. *)
Theorem text_import_ids_are_clock_readings (text : str) :
  exists rs,
    parseText text = Ok rs
    /\ (List.length rs <= List.length (candidate_blocks text))%nat
    /\ map id rs = map (fun i => IdNum (clock i)) (List.seq 0 (List.length rs)).
Proof.
  unfold parseText, parseText_with.
  destruct (parse_blocks_returns 0 (candidate_blocks text)) as (rs & Hrs & _).
  exists rs. split; [exact Hrs|].
  apply parse_blocks_ids in Hrs. tauto.
Qed.

End AcceptedBlock.

Lemma tags_are_options_up_to_case_witness :
  exists r,
    parseRecipeBlock (H := Reference.host) 0%Z guacamole = Ok (Some r)
    /\ forall c V, In V (tags_get (tags r) c) -> option_up_to_case (H := Reference.host) c V.
Proof.
  eexists. split; [vm_compute; reflexivity|].
  apply (tags_are_options_up_to_case (H := Reference.host) 0%Z guacamole).
  vm_compute. reflexivity.
Defined.

Lemma accepted_title_well_formed_witness :
  exists r,
    parseRecipeBlock (H := Reference.host) 0%Z guacamole = Ok (Some r)
    /\ (3 <= List.length (title r) <= 100)%nat.
Proof.
  eexists. split; [vm_compute; reflexivity|].
  eapply (accepted_title_well_formed (H := Reference.host) 0%Z guacamole).
  vm_compute. reflexivity.
Defined.

Lemma accepted_ingredients_well_formed_witness :
  exists r,
    parseRecipeBlock (H := Reference.host) 0%Z guacamole = Ok (Some r)
    /\ Forall (fun i => (2 <= List.length i <= 199)%nat
                        /\ trim i = i
                        /\ ~ In LF i
                        /\ test no_flags re_ingredient_header
                                (toLowerCase (Host := Reference.host) i) = false)
              (ingredients r).
Proof.
  eexists. split; [vm_compute; reflexivity|].
  apply (accepted_ingredients_well_formed (H := Reference.host) 0%Z guacamole).
  vm_compute. reflexivity.
Defined.

(** ** Symmetry and bounds of the score *)

Section ScoreProperties.
Context `{Host}.

Lemma has_In (set : list str) (x : str) : has set x = true <-> In x set.
Proof.
  unfold has. rewrite existsb_exists. split.
  - intros (y & Hy & E). apply str_eqb_eq in E. now subst.
  - intros Hx. exists x. split; [exact Hx|]. now apply str_eqb_eq.
Qed.

Lemma new_Set_In (l : list str) (x : str) : In x (new_Set l) <-> In x l.
Proof.
  induction l as [|y l IH]; simpl; [tauto|].
  rewrite filter_In, IH. split.
  - intros [E|[Hx _]]; auto.
  - intros [E|Hx]; [now left|].
    destruct (str_eqb y x) eqn:E; [left; now apply str_eqb_eq|right; auto].
Qed.

Lemma new_Set_distinct (l : list str) : NoDup (new_Set l).
Proof.
  induction l as [|y l IH]; simpl; constructor.
  - rewrite filter_In. intros [_ E]. apply negb_true_iff in E.
    assert (E' : str_eqb y y = true) by now apply str_eqb_eq. congruence.
  - now apply NoDup_filter.
Qed.

Lemma new_Set_fixed_NoDup (l : list str) : new_Set l = l -> NoDup l.
Proof. intros <-. apply new_Set_distinct. Qed.

Lemma same_elements_same_length (a b : list str) :
  NoDup a -> NoDup b -> (forall x, In x a <-> In x b) -> List.length a = List.length b.
Proof.
  intros Ha Hb Hab. apply Nat.le_antisymm; apply NoDup_incl_length; auto;
    intros x Hx; now apply Hab.
Qed.

(** Between two recipes that each list an ingredient once (compared
    without case), the shared count and the score are the same whichever of
    the two is the reference: each recommends the other, or neither does. *)
Theorem score_symmetric (a b : recipe number) :
  NoDup (map toLowerCase (ingredients a)) ->
  NoDup (map toLowerCase (ingredients b)) ->
  sharedCount (score (ingredient_set a) b) = sharedCount (score (ingredient_set b) a)
  /\ similarity (score (ingredient_set a) b) = similarity (score (ingredient_set b) a).
Proof.
  intros Ha Hb. unfold ingredient_set, score. cbn [sharedCount similarity].
  rewrite (new_Set_NoDup _ Ha), (new_Set_NoDup _ Hb).
  set (la := map toLowerCase (ingredients a)) in *.
  set (lb := map toLowerCase (ingredients b)) in *.
  assert (Hshared : List.length (filter (has la) lb) = List.length (filter (has lb) la)).
  { apply same_elements_same_length; try now apply NoDup_filter.
    intros x. rewrite !filter_In, !has_In. tauto. }
  assert (Htotal : List.length (new_Set (la ++ lb)) = List.length (new_Set (lb ++ la))).
  { apply same_elements_same_length; try apply new_Set_distinct.
    intros x. rewrite !new_Set_In, !in_app_iff. tauto. }
  rewrite Hshared, Htotal. split; reflexivity.
Qed.

(** The shared count never exceeds the number of ingredients of the
    candidate, the score is never negative, and for a candidate that lists
    each ingredient once (compared without case) it is at most 1. *)
Theorem score_bounds (mine : list str) (r : recipe number) :
  (sharedCount (score mine r) <= List.length (ingredients r))%nat
  /\ (0 <= similarity (score mine r))%Q
  /\ (NoDup (map toLowerCase (ingredients r)) -> (similarity (score mine r) <= 1)%Q).
Proof.
  unfold score. cbn [sharedCount similarity].
  set (lb := map toLowerCase (ingredients r)).
  split; [|split].
  - rewrite <- (length_map toLowerCase (ingredients r)). fold lb. apply filter_length_le.
  - destruct (0 <? List.length (new_Set (mine ++ lb)))%nat; [|apply Qle_refl].
    unfold Qle. simpl. lia.
  - intros Hb.
    destruct (0 <? List.length (new_Set (mine ++ lb)))%nat eqn:E; [|discriminate].
    apply Nat.ltb_lt in E. unfold Qle. cbn [Qnum Qden].
    assert (Hle : (List.length (filter (has mine) lb)
                   <= List.length (new_Set (mine ++ lb)))%nat).
    { apply NoDup_incl_length; [now apply NoDup_filter|].
      intros x Hx. apply filter_In in Hx. apply new_Set_In, in_or_app. tauto. }
    rewrite Z.mul_1_r, Z.mul_1_l.
    replace (Z.pos (Pos.of_nat (List.length (new_Set (mine ++ lb)))))
      with (Z.of_nat (List.length (new_Set (mine ++ lb)))).
    + lia.
    + destruct (List.length (new_Set (mine ++ lb))) as [|n]; [lia|].
      rewrite <- Pos.of_nat_succ. now rewrite Zpos_P_of_succ_nat, Nat2Z.inj_succ.
Qed.

End ScoreProperties.

Lemma score_symmetric_witness :
  sharedCount (score (H := Reference.host) (ingredient_set (H := Reference.host) shortbread)
                     plain_toffee)
  = sharedCount (score (H := Reference.host) (ingredient_set (H := Reference.host) plain_toffee)
                       shortbread).
Proof.
  apply (score_symmetric (H := Reference.host) shortbread plain_toffee).
  - apply new_Set_fixed_NoDup. vm_compute. reflexivity.
  - apply new_Set_fixed_NoDup. vm_compute. reflexivity.
Defined.

(** ** The shape of a JSON import *)

Section JsonImport.
Context `{Host}.

Lemma import_record_throws (now : number) (r : value) (e : exn) :
  import_record now r = Throw e -> e = TypeError.
Proof.
  unfold import_record.
  assert (Hprop : forall k e', prop r k = Throw e' -> e' = TypeError)
    by (intros k e'; destruct r; simpl; congruence).
  destruct (prop r "title") as [t|e1] eqn:Et; [|apply Hprop in Et; cbn [bind]; congruence].
  destruct (prop r "category") as [c|e1] eqn:Ec; [|apply Hprop in Ec; cbn [bind]; congruence].
  destruct (prop r "servings") as [sv|e1] eqn:Es; [|apply Hprop in Es; cbn [bind]; congruence].
  destruct (prop r "ingredients") as [ing|e1] eqn:Ei;
    [|apply Hprop in Ei; cbn [bind]; congruence].
  cbn [bind].
  destruct (import_ingredients ing) as [ing'|e1] eqn:Ei'.
  - destruct (prop r "instructions") as [ins|e1] eqn:Eins;
      [|apply Hprop in Eins; cbn [bind]; congruence].
    destruct (prop r "notes") as [nt|e1] eqn:En; [|apply Hprop in En; cbn [bind]; congruence].
    destruct (prop r "tags") as [tg|e1] eqn:Etg; [|apply Hprop in Etg; cbn [bind]; congruence].
    cbn [bind]. discriminate.
  - cbn [bind]. intros E. inversion E; subst e1. clear E.
    unfold import_ingredients in Ei'.
    destruct ing; try discriminate;
      match type of Ei' with
      | context [or_default ?a ?d] => destruct (or_default a d)
      end; congruence.
Qed.

Lemma import_record_id (now : number) (r o : value) :
  import_record now r = Ok o -> field "id" o = JNum now.
Proof.
  unfold import_record. intros Hr.
  destruct (prop r "title") as [t|]; [|discriminate].
  destruct (prop r "category") as [c|]; [|discriminate].
  destruct (prop r "servings") as [sv|]; [|discriminate].
  destruct (prop r "ingredients") as [ing|]; [|discriminate].
  cbn [bind] in Hr.
  destruct (import_ingredients ing) as [ing'|]; [|discriminate].
  destruct (prop r "instructions") as [ins|]; [|discriminate].
  destruct (prop r "notes") as [nt|]; [|discriminate].
  destruct (prop r "tags") as [tg|]; [|discriminate].
  cbn [bind] in Hr. inversion Hr. reflexivity.
Qed.

Lemma import_records_shape (n : nat) (recipes os : list value) :
  import_records n recipes = Ok os ->
  List.length os = List.length recipes
  /\ map (field "id") os = map (fun i => JNum (clock i)) (List.seq n (List.length recipes)).
Proof.
  revert n os. induction recipes as [|r rs IH]; intros n os Hos; simpl in Hos.
  - inversion Hos. split; reflexivity.
  - destruct (import_record (clock n) r) as [o|] eqn:Eo; [|discriminate].
    destruct (import_records (S n) rs) as [os'|] eqn:Eos; [|discriminate].
    simpl in Hos. inversion Hos; subst os. destruct (IH _ _ Eos) as [Hlen Hids].
    cbn [List.length map List.seq]. rewrite Hlen, Hids, (import_record_id _ _ _ Eo).
    split; reflexivity.
Qed.

Lemma import_records_null (n : nat) (recipes : list value) :
  In JNull recipes -> import_records n recipes = Throw TypeError.
Proof.
  revert n. induction recipes as [|r rs IH]; intros n Hin; [destruct Hin|].
  cbn [import_records].
  destruct (import_record (clock n) r) as [o|e] eqn:Eo; cbn [bind].
  - destruct Hin as [->|Hin]; [discriminate Eo|].
    now rewrite (IH (S n) Hin).
  - apply import_record_throws in Eo. now subst e.
Qed.

(** The JSON path builds one record per element of the array, in order (one
    record when the payload is not an array), and gives them the successive
    readings of the clock as ids, whatever id the payload carried. *)
Theorem json_import_one_record_per_element (text : str) (data : value) (out : list value) :
  JSON_parse text = Some data ->
  parseJSON text = Ok out ->
  let elements := match data with JArr items => items | _ => [data] end in
  List.length out = List.length elements
  /\ map (field "id") out
     = map (fun i => JNum (clock i)) (List.seq 0 (List.length elements)).
Proof.
  intros Hdata Hout. unfold parseJSON in Hout. rewrite Hdata in Hout.
  cbv zeta. now apply import_records_shape.
Qed.

(** One [null] among the elements of the payload (or a payload that is
    [null]) makes the JSON path throw a [TypeError]: no record is returned,
    not even for the elements before it, nothing is sent to the store, and
    the file import of a signed-in user reports a parse failure. *)
Theorem json_import_null_element_throws (text : str) (data : value) :
  JSON_parse text = Some data ->
  In JNull (match data with JArr items => items | _ => [data] end) ->
  parseJSON text = Throw TypeError
  /\ (sniff_json text = true ->
      forall uid accepted, handleImport (Some uid) accepted text = Some CouldNotParse).
Proof.
  intros Hdata Hnull.
  assert (Hthrow : parseJSON text = Throw TypeError).
  { unfold parseJSON. rewrite Hdata. now apply import_records_null. }
  split; [exact Hthrow|].
  intros E uid accepted. unfold handleImport, import_payload. now rewrite E, Hthrow.
Qed.

End JsonImport.

Lemma json_import_one_record_per_element_witness :
  exists out,
    parseJSON (H := Reference.host) json_without_ingredients = Ok out
    /\ List.length out = 1%nat
    /\ map (field "id") out = [JNum (Reference.tick 0)].
Proof.
  eexists. split; [vm_compute; reflexivity|].
  apply (json_import_one_record_per_element (H := Reference.host) json_without_ingredients
           (JArr [JObj [(js "title", JStr (js "Toast")); (js "ingredients", JArr [])]])).
  - vm_compute. reflexivity.
  - vm_compute. reflexivity.
Defined.

Lemma json_import_null_element_throws_witness :
  parseJSON (H := Reference.host) json_null_element = Throw TypeError
  /\ handleImport (H := Reference.host) (Some (js "ada")) takes_all json_null_element
     = Some CouldNotParse.
Proof.
  destruct (json_import_null_element_throws (H := Reference.host) json_null_element
              (JArr [JObj [(js "title", JStr (js "Toast"))]; JNull])) as [Hthrow Hstatus].
  - vm_compute. reflexivity.
  - right. left. reflexivity.
  - split; [exact Hthrow|]. apply Hstatus. vm_compute. reflexivity.
Defined.

(** ** The recipe list *)

Lemma existsb_members {A : Type} (f : A -> bool) (l1 l2 : list A) :
  (forall x, In x l1 <-> In x l2) -> existsb f l1 = existsb f l2.
Proof.
  intros Hmem. apply eq_iff_eq_true. rewrite !existsb_exists.
  split; intros (x & Hx & Hf); exists x; split; auto; now apply Hmem.
Qed.

Lemma tags_get_set_same (t : tagset) (c : tagCat) (v : list str) :
  tags_get (tags_set t c v) c = v.
Proof. now destruct c. Qed.

Lemma tags_get_set_other (t : tagset) (c c' : tagCat) (v : list str) :
  c <> c' -> tags_get (tags_set t c v) c' = tags_get t c'.
Proof. destruct c, c'; simpl; congruence. Qed.

Lemma tagCat_eq_dec (c c' : tagCat) : {c = c'} + {c <> c'}.
Proof. decide equality. Qed.

Section ViewProperties.
Context `{Host}.

Lemma arr_includes_In (l : list str) (x : str) : arr_includes l x = true <-> In x l.
Proof.
  unfold arr_includes. rewrite existsb_exists. split.
  - intros (y & Hy & E). apply str_eqb_eq in E. now subst.
  - intros Hx. exists x. split; [exact Hx|]. now apply str_eqb_eq.
Qed.

Lemma toggle_In (tag : str) (current : list str) (x : str) :
  In x (toggle tag current)
  <-> (if arr_includes current tag then In x current /\ x <> tag
       else In x current \/ x = tag).
Proof.
  unfold toggle. destruct (arr_includes current tag).
  - rewrite filter_In, negb_true_iff. split; intros [Hx Hne]; split; auto.
    + intros ->. assert (E : str_eqb tag tag = true) by now apply str_eqb_eq. congruence.
    + destruct (str_eqb x tag) eqn:E; [|reflexivity]. apply str_eqb_eq in E. contradiction.
  - rewrite in_app_iff. simpl. intuition.
Qed.

(** Toggling flips whether the tag is selected and leaves every other
    selection as it was. *)
Lemma toggle_flips (tag : str) (current : list str) :
  arr_includes (toggle tag current) tag = negb (arr_includes current tag)
  /\ forall x, x <> tag -> (In x (toggle tag current) <-> In x current).
Proof.
  split.
  - apply eq_iff_eq_true. rewrite arr_includes_In, toggle_In.
    destruct (arr_includes current tag); simpl; split; intros Hx;
      try discriminate; try reflexivity;
      [destruct Hx as [_ Hne]; now contradiction Hne | now right].
  - intros x Hne. rewrite toggle_In. destruct (arr_includes current tag); tauto.
Qed.

Lemma toggle_twice_members (tag : str) (current : list str) (x : str) :
  In x (toggle tag (toggle tag current)) <-> In x current.
Proof.
  destruct (toggle_flips tag current) as [Hflip Hother].
  rewrite toggle_In, Hflip.
  destruct (arr_includes current tag) eqn:E; cbn [negb]; rewrite toggle_In, E.
  - apply arr_includes_In in E. split; [intros [[Hx _]| ->]; assumption|].
    intros Hx. destruct (str_eqb x tag) eqn:Ex.
    + right. now apply str_eqb_eq.
    + left. split; [exact Hx|]. intros ->.
      rewrite (proj2 (str_eqb_eq tag tag) eq_refl) in Ex. discriminate.
  - split; [tauto|]. intros Hx. split; [now left|].
    intros ->. apply arr_includes_In in Hx. congruence.
Qed.

Lemma matchesTagCategory_members (t1 t2 : tagset) (r : recipe number) (c : tagCat) :
  (forall x, In x (tags_get t1 c) <-> In x (tags_get t2 c)) ->
  matchesTagCategory t1 r c = matchesTagCategory t2 r c.
Proof.
  intros Hmem. unfold matchesTagCategory. cbv zeta.
  rewrite (existsb_members _ _ _ Hmem).
  destruct (tags_get t1 c) as [|a l1], (tags_get t2 c) as [|b l2]; try reflexivity.
  - exfalso. apply (proj2 (Hmem b)). now left.
  - exfalso. apply (proj1 (Hmem a)). now left.
Qed.

Lemma matchesTags_members (t1 t2 : tagset) (r : recipe number) :
  (forall c x, In x (tags_get t1 c) <-> In x (tags_get t2 c)) ->
  matchesTags t1 r = matchesTags t2 r.
Proof.
  intros Hmem. unfold matchesTags, TAG_KEYS. cbn [forallb].
  now rewrite !(matchesTagCategory_members t1 t2 r) by (apply Hmem).
Qed.

Lemma matchesTagCategory_spec (t : tagset) (r : recipe number) (c : tagCat) :
  matchesTagCategory t r c = true
  <-> tags_get t c = []
      \/ exists tag, In tag (tags_get t c) /\ In tag (tags_get (tags r) c).
Proof.
  unfold matchesTagCategory. cbv zeta.
  destruct (tags_get t c) as [|a l] eqn:E; cbn [List.length Nat.eqb].
  - split; auto.
  - rewrite existsb_exists. split.
    + intros (tag & Htag & Hin). right. exists tag. split; [exact Htag|].
      now apply arr_includes_In.
    + intros [Habs|(tag & Htag & Hin)]; [discriminate|].
      exists tag. split; [exact Htag|]. now apply arr_includes_In.
Qed.

(** With no search text, the category [All] and no tag selected, which is
    the state that [clearAllFilters] sets, the list shows every recipe, in
    order. *)
Theorem no_filter_shows_every_recipe (recipes : list (recipe number)) (f : filters) :
  searchQuery f = [] ->
  selectedCategory f = ALL ->
  hasActiveFilters (activeTagFilters f) = false ->
  shown recipes f = recipes.
Proof.
  intros Hq Hc Ht. unfold shown, filteredRecipes. rewrite Hq, Hc.
  apply forallb_filter_id. apply forallb_forall. intros r _.
  unfold hasActiveFilters, TAG_KEYS in Ht. cbn [existsb] in Ht.
  repeat (apply orb_false_iff in Ht; destruct Ht as [? Ht]).
  assert (Hnone : forall c, tags_get (activeTagFilters f) c = []).
  { intros c.
    assert (Hlen : (0 <? List.length (tags_get (activeTagFilters f) c))%nat = false)
      by (destruct c; assumption).
    destruct (tags_get (activeTagFilters f) c); [reflexivity|discriminate]. }
  unfold matchesTags, TAG_KEYS. cbn [forallb].
  rewrite !(proj2 (matchesTagCategory_spec _ _ _)) by (left; apply Hnone).
  reflexivity.
Qed.

Lemma matchesTags_spec (t : tagset) (r : recipe number) :
  matchesTags t r = true
  <-> forall c, tags_get t c = []
                \/ exists tag, In tag (tags_get t c) /\ In tag (tags_get (tags r) c).
Proof.
  unfold matchesTags. rewrite forallb_forall. split.
  - intros Hall c. apply matchesTagCategory_spec. apply Hall.
    destruct c; simpl; tauto.
  - intros Hall c _. now apply matchesTagCategory_spec.
Qed.

(** The tags selected in one category are alternatives, and the categories
    are conjoined: a recipe is listed exactly when it passes the search and
    the category filter and, in every tag category that has a selection,
    carries one of the selected tags, as written. *)
Theorem tag_filters_any_within_all_across (recipes : list (recipe number))
        (q cat : str) (t : tagset) (r : recipe number) :
  In r (filteredRecipes recipes q cat t)
  <-> In r recipes
      /\ matchesSearch q r = true
      /\ matchesCategory cat r = true
      /\ forall c, tags_get t c = []
                   \/ exists tag, In tag (tags_get t c) /\ In tag (tags_get (tags r) c).
Proof.
  unfold filteredRecipes. rewrite filter_In, !andb_true_iff, matchesTags_spec. tauto.
Qed.

(** Toggling a tag twice leaves the list as it was, whatever the recipes
    and the other filters; the selection holds the same tags, possibly in
    another order. *)
Theorem toggle_twice_same_list (recipes : list (recipe number)) (q cat : str)
        (c : tagCat) (tag : str) (t : tagset) :
  filteredRecipes recipes q cat (toggleTagFilter c tag (toggleTagFilter c tag t))
  = filteredRecipes recipes q cat t
  /\ forall c' x,
       In x (tags_get (toggleTagFilter c tag (toggleTagFilter c tag t)) c')
       <-> In x (tags_get t c').
Proof.
  assert (Hmem : forall c' x,
             In x (tags_get (toggleTagFilter c tag (toggleTagFilter c tag t)) c')
             <-> In x (tags_get t c')).
  { intros c' x. unfold toggleTagFilter.
    destruct (tagCat_eq_dec c c') as [<-|Hne].
    - rewrite !tags_get_set_same. apply toggle_twice_members.
    - rewrite !tags_get_set_other by assumption. reflexivity. }
  split; [|exact Hmem].
  unfold filteredRecipes. apply filter_ext. intros r.
  now rewrite (matchesTags_members _ t r Hmem).
Qed.

(** Toggling a tag selects it when it was not selected and deselects it
    when it was; the other tags of the category and the other categories
    are untouched, and a selection without repetition stays so. *)
Theorem toggle_flips_one_selection (c : tagCat) (tag : str) (t : tagset) :
  arr_includes (tags_get (toggleTagFilter c tag t) c) tag
  = negb (arr_includes (tags_get t c) tag)
  /\ (forall x, x <> tag ->
        (In x (tags_get (toggleTagFilter c tag t) c) <-> In x (tags_get t c)))
  /\ (forall c', c <> c' -> tags_get (toggleTagFilter c tag t) c' = tags_get t c')
  /\ (NoDup (tags_get t c) -> NoDup (tags_get (toggleTagFilter c tag t) c)).
Proof.
  unfold toggleTagFilter. rewrite tags_get_set_same.
  destruct (toggle_flips tag (tags_get t c)) as [Hflip Hother].
  repeat split; try assumption; try (now apply Hother).
  - intros c' Hne. now apply tags_get_set_other.
  - intros Hnd. unfold toggle.
    destruct (arr_includes (tags_get t c) tag) eqn:E; [now apply NoDup_filter|].
    apply NoDup_app; [exact Hnd|repeat constructor; intros []|].
    intros x Hx [<-|[]]. apply arr_includes_In in Hx. congruence.
Qed.

(** Selecting one more tag in a category that already has a selection never
    hides a recipe; selecting the first tag of a category never reveals
    one. *)
Theorem selecting_widens_within_narrows_across (recipes : list (recipe number))
        (q cat : str) (c : tagCat) (tag : str) (t : tagset) (r : recipe number) :
  arr_includes (tags_get t c) tag = false ->
  (tags_get t c <> [] ->
   In r (filteredRecipes recipes q cat t) ->
   In r (filteredRecipes recipes q cat (toggleTagFilter c tag t)))
  /\ (tags_get t c = [] ->
      In r (filteredRecipes recipes q cat (toggleTagFilter c tag t)) ->
      In r (filteredRecipes recipes q cat t)).
Proof.
  intros Hnew.
  assert (Hget : forall c', tags_get (toggleTagFilter c tag t) c'
                            = if tagCat_eq_dec c c' then tags_get t c ++ [tag]
                              else tags_get t c').
  { intros c'. unfold toggleTagFilter. destruct (tagCat_eq_dec c c') as [<-|Hne].
    - rewrite tags_get_set_same. unfold toggle. now rewrite Hnew.
    - now apply tags_get_set_other. }
  unfold filteredRecipes. rewrite !filter_In. split.
  - intros Hsel [Hin Hpass]. split; [exact Hin|].
    apply andb_true_iff in Hpass. destruct Hpass as [Hrest Htags].
    rewrite Hrest. cbn [andb]. apply matchesTags_spec.
    intros c'. rewrite Hget.
    pose proof (proj1 (matchesTags_spec t r) Htags c') as Hc'.
    destruct (tagCat_eq_dec c c') as [<-|Hne]; [|exact Hc'].
    right. destruct Hc' as [Hempty|(x & Hx & Hr)]; [contradiction|].
    exists x. split; [apply in_or_app; now left|exact Hr].
  - intros Hempty [Hin Hpass]. split; [exact Hin|].
    apply andb_true_iff in Hpass. destruct Hpass as [Hrest Htags].
    rewrite Hrest. cbn [andb]. apply matchesTags_spec.
    intros c'.
    pose proof (proj1 (matchesTags_spec _ r) Htags c') as Hc'.
    rewrite Hget in Hc'.
    destruct (tagCat_eq_dec c c') as [<-|Hne]; [now left|exact Hc'].
Qed.

(** The category menu is [All] followed by the categories of the recipes,
    each once, in the order of their first recipe. *)
Theorem categories_menu (recipes : list (recipe number)) :
  hd_error (categories recipes) = Some ALL
  /\ NoDup (tl (categories recipes))
  /\ (forall c, In c (tl (categories recipes))
                <-> exists r, In r recipes /\ category r = c).
Proof.
  unfold categories. cbn [hd_error tl]. split; [reflexivity|].
  split; [apply new_Set_distinct|].
  intros c. rewrite new_Set_In, in_map_iff.
  split; intros (r & Ha & Hb); exists r; split; assumption.
Qed.

End ViewProperties.

Lemma no_filter_shows_every_recipe_witness :
  shown (H := Reference.host) [shortbread; toffee] clearAllFilters = [shortbread; toffee].
Proof.
  apply (no_filter_shows_every_recipe (H := Reference.host) [shortbread; toffee]
           clearAllFilters); reflexivity.
Defined.

Lemma selecting_widens_within_narrows_across_witness :
  In quick_curry
     (filteredRecipes (H := Reference.host) [quick_curry] [] ALL
        (toggleTagFilter type (js "quick") spicy_selected)).
Proof.
  destruct (selecting_widens_within_narrows_across (H := Reference.host) [quick_curry] [] ALL
              type (js "quick") spicy_selected quick_curry) as [Hwiden _].
  - reflexivity.
  - apply Hwiden; [discriminate|]. vm_compute. left. reflexivity.
Defined.

(** ** The recipe form *)

Lemma split_chr_whole (c : N) (p : str) : ~ In c p -> split_chr c p = [p].
Proof.
  induction p as [|x p IH]; intros Hc; simpl; [reflexivity|].
  destruct (x =? c) eqn:E.
  - apply N.eqb_eq in E. subst x. exfalso. apply Hc. now left.
  - rewrite IH; [reflexivity|]. intros Hin. apply Hc. now right.
Qed.

Lemma split_chr_first (c : N) (p rest : str) :
  ~ In c p -> split_chr c (p ++ c :: rest) = p :: split_chr c rest.
Proof.
  induction p as [|x p IH]; intros Hc; simpl.
  - now rewrite N.eqb_refl.
  - destruct (x =? c) eqn:E.
    + apply N.eqb_eq in E. subst x. exfalso. apply Hc. now left.
    + rewrite IH; [reflexivity|]. intros Hin. apply Hc. now right.
Qed.

(** Splitting at the separator undoes joining with it, for pieces that do
    not contain it. *)
Lemma split_chr_join (c : N) (l : list str) :
  l <> [] -> Forall (fun p => ~ In c p) l -> split_chr c (join [c] l) = l.
Proof.
  intros Hne Hl. induction Hl as [|p l Hp Hl IH]; [contradiction|].
  destruct l as [|q l].
  - simpl. now apply split_chr_whole.
  - change (join [c] (p :: q :: l)) with (p ++ c :: join [c] (q :: l)).
    rewrite split_chr_first by assumption. f_equal. apply IH. discriminate.
Qed.

Section FormProperties.
Context `{Host}.

Lemma ingredient_lines_safe (text : str) :
  forallb form_safe (ingredient_lines text) = true.
Proof.
  apply forallb_forall. intros i Hi. unfold ingredient_lines in Hi.
  apply filter_In in Hi. destruct Hi as [Hi Hne].
  apply in_map_iff in Hi. destruct Hi as (line & <- & Hline).
  apply form_safe_spec. split; [now apply truthy_nonempty|].
  split; [apply trim_idempotent|].
  intros Hlf. apply trim_sub in Hlf. now apply (split_chr_no_separator LF text line).
Qed.

(** The lines of the joined ingredients are the ingredients. *)
Lemma ingredient_lines_join (l : list str) :
  forallb form_safe l = true -> ingredient_lines (join [LF] l) = l.
Proof.
  intros Hl. unfold ingredient_lines.
  destruct l as [|p l]; [reflexivity|].
  assert (Hall : forall i, In i (p :: l) -> i <> [] /\ trim i = i /\ ~ In LF i).
  { intros i Hi. apply form_safe_spec. now apply (proj1 (forallb_forall _ _) Hl). }
  rewrite split_chr_join; [|discriminate|].
  - rewrite (map_ext_in trim (fun i => i)) by (intros i Hi; now apply Hall).
    rewrite map_id. apply forallb_filter_id. apply forallb_forall.
    intros i Hi. apply truthy_nonempty. now apply Hall.
  - apply Forall_forall. intros i Hi. now apply Hall.
Qed.

Lemma or_missing_truthy (s : str) : or_missing truthy (Some s) [] = s.
Proof.
  unfold or_missing. destruct (truthy s) eqn:E; [reflexivity|].
  destruct s; [reflexivity|discriminate].
Qed.

(** [handleAddRecipe] changes nothing when no user is signed in, when the
    title is blank or when the store refuses the document; else it appends
    one record, which carries the id the store gave, the title as typed, as
    ingredients the non-blank lines of the field, trimmed, the token of the
    store for its creation time and the id of the user, and it empties the
    form.  The recipes that were there stay as they were. *)
Theorem add_recipe_appends_one_record (user : option str) (docRef : option str)
        (st : component number) :
  let st' := handleAddRecipe user docRef st in
  (user = None \/ trim (form_title (newRecipe st)) = [] \/ docRef = None -> st' = st)
  /\ (forall uid docId,
        user = Some uid -> trim (form_title (newRecipe st)) <> [] -> docRef = Some docId ->
        exists r,
          recipes st' = recipes st ++ [r]
          /\ Catalog.id r = IdStr docId
          /\ Catalog.title r = form_title (newRecipe st)
          /\ Catalog.ingredients r = ingredient_lines (form_ingredients (newRecipe st))
          /\ forallb form_safe (Catalog.ingredients r) = true
          /\ Catalog.createdAt r = Some ServerTimestamp
          /\ Catalog.createdBy r = Some uid
          /\ Catalog.updatedAt r = None
          /\ newRecipe st' = EMPTY_FORM).
Proof.
  cbv zeta. unfold handleAddRecipe. split.
  - intros [->|[Ht| ->]]; [reflexivity| |].
    + destruct user; [|reflexivity]. rewrite Ht. reflexivity.
    + destruct user; [|reflexivity].
      destruct (negb (truthy (trim (form_title (newRecipe st))))); reflexivity.
  - intros uid docId -> Ht ->. apply truthy_nonempty in Ht. rewrite Ht. cbn [negb].
    eexists. split; [reflexivity|].
    cbn [Catalog.id Catalog.title Catalog.ingredients Catalog.createdAt Catalog.createdBy
         Catalog.updatedAt newRecipe].
    repeat split. apply ingredient_lines_safe.
Qed.

(** Opening a recipe in the form and saving it unchanged changes nothing
    in the list of recipes but the update stamp of that recipe, which
    becomes the token of the store; when the recipe has its servings, notes
    and tags, its ingredients are not empty, have no white space at either
    end and are on one line each, and no other recipe has its id.  Nothing
    at all changes when the store refuses the update or the title is
    blank. *)
Theorem edit_then_save_changes_nothing (st : component number) (r : Catalog.recipe number)
        (uid : str) (updated : bool) :
  selectedRecipe st = Some r ->
  (forall r', In r' (recipes st) -> ident_eqb (Catalog.id r') (Catalog.id r) = true -> r' = r) ->
  forallb form_safe (Catalog.ingredients r) = true ->
  Catalog.servings r <> None -> Catalog.notes r <> None -> Catalog.tags r <> None ->
  exists st1,
    handleEditRecipe (Some uid) st = Ok st1
    /\ ingredient_lines (form_ingredients (newRecipe st1)) = Catalog.ingredients r
    /\ recipes (handleUpdateRecipe (Some uid) updated st1)
       = if updated && truthy (trim (Catalog.title r))
         then map (fun r' => if ident_eqb (Catalog.id r') (Catalog.id r)
                             then Catalog.stamped r' else r')
                  (recipes st)
         else recipes st.
Proof.
  intros Hsel Hid Hsafe Hservings Hnotes Htags. unfold handleEditRecipe. rewrite Hsel.
  eexists. split; [reflexivity|]. cbn [newRecipe form_ingredients].
  split; [now apply ingredient_lines_join|].
  unfold handleUpdateRecipe. cbn [newRecipe form_title recipes editingRecipeId].
  destruct (truthy (trim (Catalog.title r))); cbn [negb];
    [|now rewrite andb_false_r].
  rewrite andb_true_r. destruct updated; [|reflexivity]. cbn [recipes].
  apply map_ext_in. intros r' Hr'. cbn [is_edited].
  destruct (ident_eqb (Catalog.id r') (Catalog.id r)) eqn:E; [|reflexivity].
  rewrite (Hid r' Hr' E). unfold merge_update, Catalog.stamped.
  cbn [form_title form_category form_servings form_ingredients form_instructions
       form_notes form_tags].
  rewrite (ingredient_lines_join _ Hsafe).
  destruct r as [i t c sv ing ins nt tg ca cb ua].
  cbn [Catalog.id Catalog.title Catalog.category Catalog.servings Catalog.ingredients
       Catalog.instructions Catalog.notes Catalog.tags Catalog.createdAt Catalog.createdBy]
    in Hservings, Hnotes, Htags |- *.
  destruct sv as [sv|]; [|congruence].
  destruct nt as [nt|]; [|congruence].
  destruct tg as [tg|]; [|congruence].
  rewrite !or_missing_truthy. reflexivity.
Qed.

(** [handleUpdateRecipe] never changes the number of recipes, their order
    or their ids, and leaves every recipe but the edited one as it was. *)
Theorem update_keeps_ids_and_other_recipes (user : option str) (updated : bool)
        (st : component number) :
  let st' := handleUpdateRecipe user updated st in
  map Catalog.id (recipes st') = map Catalog.id (recipes st)
  /\ forall n r,
       nth_error (recipes st) n = Some r ->
       is_edited (editingRecipeId st) r = false ->
       nth_error (recipes st') n = Some r.
Proof.
  cbv zeta. unfold handleUpdateRecipe.
  destruct user; [|split; auto].
  destruct (negb (truthy (trim (form_title (newRecipe st))))); [split; auto|].
  destruct updated; [|split; auto]. cbn [recipes]. split.
  - rewrite map_map. apply map_ext. intros r.
    destruct (is_edited (editingRecipeId st) r); reflexivity.
  - intros n r Hn Hr. rewrite nth_error_map, Hn. cbn [option_map]. now rewrite Hr.
Qed.

(** Deleting the recipe that was just added gives back the list of
    recipes as it was before, when the id that the store gave is new. *)
Theorem add_then_delete_restores_recipes (uid docId : str) (st : component number) :
  trim (form_title (newRecipe st)) <> [] ->
  (forall r, In r (recipes st) -> ident_eqb (Catalog.id r) (IdStr docId) = false) ->
  recipes (handleDeleteRecipe (Some uid) true true (IdStr docId)
             (handleAddRecipe (Some uid) (Some docId) st))
  = recipes st.
Proof.
  intros Ht Hnew. unfold handleAddRecipe, handleDeleteRecipe.
  apply truthy_nonempty in Ht. rewrite Ht. cbn [negb recipes].
  rewrite filter_app. cbn [filter Catalog.id ident_eqb].
  rewrite (proj2 (str_eqb_eq docId docId) eq_refl). cbn [negb].
  rewrite app_nil_r. apply forallb_filter_id. apply forallb_forall.
  intros r Hr. now rewrite (Hnew r Hr).
Qed.

(** The pasted text always takes the text path, on which the parser never
    throws: nobody signed in, the paste import sets no status; else it
    reports a failure exactly when the store refuses one of the records, and
    it reports what the file import reports, for the same answers of the
    store, on every text that does not start like JSON. *)
Theorem paste_import_takes_text_path (user : option str) (accepted : nat -> bool)
        (pasteText : str) :
  (user = None -> handlePasteImport user accepted pasteText = None)
  /\ (forall uid, user = Some uid ->
        exists rs,
          parseText pasteText = Ok rs
          /\ handlePasteImport user accepted pasteText
             = Some (import_report (Ok (map recipe_value rs)) accepted)
          /\ (handlePasteImport user accepted pasteText = Some CouldNotParse
              <-> add_to_store accepted 0 (map recipe_value rs) = false)
          /\ ((forall n, accepted n = true) ->
              handlePasteImport user accepted pasteText <> Some CouldNotParse))
  /\ (sniff_json pasteText = false ->
      handlePasteImport user accepted pasteText = handleImport user accepted pasteText).
Proof.
  unfold handlePasteImport, handleImport, import_payload, parseText, parseText_with.
  destruct (parse_blocks_returns 0 (candidate_blocks pasteText)) as (rs & Hrs & _).
  rewrite Hrs. cbn [bind].
  assert (Hiff : import_report (Ok (map recipe_value rs)) accepted = CouldNotParse
                 <-> add_to_store accepted 0 (map recipe_value rs) = false).
  { rewrite import_report_failure. split.
    - intros [[e He]|(imported & Hi & Hadd)]; [discriminate He|]. now injection Hi as <-.
    - intros Hadd. right. now eexists. }
  split; [now intros ->|]. split.
  - intros uid ->. exists rs. split; [reflexivity|]. split; [reflexivity|]. split.
    + split; [intros E; injection E as E; now apply Hiff|].
      intros Hadd. f_equal. now apply Hiff.
    + intros Hall E. injection E as E. apply Hiff in E.
      now rewrite add_to_store_accepted in E.
  - intros ->. reflexivity.
Qed.

End FormProperties.

Lemma edit_then_save_changes_nothing_witness :
  exists st1,
    handleEditRecipe (H := Reference.host) (Some (js "ada")) shortbread_open = Ok st1
    /\ ingredient_lines (form_ingredients (newRecipe st1)) = ingredients shortbread
    /\ recipes (handleUpdateRecipe (H := Reference.host) (Some (js "ada")) true st1)
       = [Catalog.stamped (kept "doc1" "ada" shortbread); kept "doc2" "ada" toffee].
Proof.
  apply (edit_then_save_changes_nothing (H := Reference.host) shortbread_open
           (kept "doc1" "ada" shortbread) (js "ada") true).
  - reflexivity.
  - intros r' [<-|[<-|[]]]; [reflexivity|]. vm_compute. discriminate.
  - vm_compute. reflexivity.
  - discriminate.
  - discriminate.
  - discriminate.
Defined.

Lemma add_then_delete_restores_recipes_witness :
  recipes (handleDeleteRecipe (H := Reference.host) (Some (js "ada")) true true
             (IdStr (js "doc7"))
             (handleAddRecipe (H := Reference.host) (Some (js "ada")) (Some (js "doc7"))
                porridge_typed))
  = [kept "doc1" "ada" shortbread; kept "doc2" "ada" toffee].
Proof.
  apply (add_then_delete_restores_recipes (H := Reference.host) (js "ada") (js "doc7")
           porridge_typed).
  - vm_compute. discriminate.
  - intros r [<-|[<-|[]]]; reflexivity.
Defined.

(** ** Replacing single code units *)

Lemma replace_loop_with_constant (fl : flags) (r : regex) (by_ : str) :
  forall fuel prev s,
    replace_loop_with fuel fl r (fun _ => by_) prev s = replace_loop fuel fl r by_ prev s.
Proof.
  induction fuel as [|fuel IH]; intros prev s; cbn [replace_loop_with replace_loop];
    [reflexivity|].
  destruct (search_from fl r prev [] s) as [f|]; [|reflexivity].
  destruct (matched f), (after f); now rewrite ?IH.
Qed.

Section SingleUnit.

(** A pattern that matches one code unit, those that [p] accepts, and
    nothing else. *)
Variables (fl : flags) (r : regex) (p : N -> bool).
Hypothesis Hhere :
  forall prev x s, exec_at fl r prev (x :: s) = if p x then Some (s, []) else None.
Hypothesis Hend : forall prev, exec_at fl r prev [] = None.

Lemma search_single_none (s : str) :
  forall prev acc,
    forallb (fun c => negb (p c)) s = true -> search_from fl r prev acc s = None.
Proof.
  induction s as [|x s IH]; intros prev acc Hs; cbn [search_from].
  - now rewrite Hend.
  - cbn [forallb] in Hs. apply andb_true_iff in Hs. destruct Hs as [Hx Hs].
    apply negb_true_iff in Hx. rewrite Hhere, Hx. now apply IH.
Qed.

Lemma search_single_some (pre : str) (x : N) (rest : str) :
  forall prev acc,
    forallb (fun c => negb (p c)) pre = true -> p x = true ->
    search_from fl r prev acc (pre ++ x :: rest)
    = Some (Found (rev acc ++ pre) [x] [] rest).
Proof.
  induction pre as [|y pre IH]; intros prev acc Hpre Hx.
  - cbn [List.app search_from]. rewrite Hhere, Hx, app_nil_r.
    replace (List.length (x :: rest) - List.length rest)%nat with 1%nat
      by (cbn [List.length]; lia).
    reflexivity.
  - cbn [forallb] in Hpre. apply andb_true_iff in Hpre. destruct Hpre as [Hy Hpre].
    apply negb_true_iff in Hy.
    change ((y :: pre) ++ x :: rest) with (y :: (pre ++ x :: rest)).
    cbn [search_from]. rewrite Hhere, Hy, (IH _ _ Hpre Hx).
    cbn [rev]. now rewrite <- app_assoc.
Qed.

Lemma first_accepted (s : str) :
  forallb (fun c => negb (p c)) s = true
  \/ exists pre x rest,
       s = pre ++ x :: rest /\ forallb (fun c => negb (p c)) pre = true /\ p x = true.
Proof.
  induction s as [|y s IH]; [now left|].
  destruct (p y) eqn:Ey.
  - right. exists [], y, s. repeat split. exact Ey.
  - destruct IH as [IH|(pre & x & rest & -> & Hpre & Hx)].
    + left. cbn [forallb]. now rewrite Ey, IH.
    + right. exists (y :: pre), x, rest. repeat split; [|exact Hx].
      cbn [forallb]. now rewrite Ey, Hpre.
Qed.

Lemma flat_map_rejected (by_ : str -> str) (s : str) :
  forallb (fun c => negb (p c)) s = true ->
  flat_map (fun c => if p c then by_ [c] else [c]) s = s.
Proof.
  induction s as [|x s IH]; intros Hs; [reflexivity|].
  cbn [forallb] in Hs. apply andb_true_iff in Hs. destruct Hs as [Hx Hs].
  apply negb_true_iff in Hx. cbn [flat_map]. now rewrite Hx, IH.
Qed.

(** The global replacement rewrites the accepted code units one by one. *)
Lemma replace_single_units (by_ : str -> str) :
  forall fuel prev s,
    (List.length s < fuel)%nat ->
    replace_loop_with fuel fl r by_ prev s
    = flat_map (fun c => if p c then by_ [c] else [c]) s.
Proof.
  induction fuel as [|fuel IH]; intros prev s Hfuel; [lia|].
  cbn [replace_loop_with].
  destruct (first_accepted s) as [Hnone|(pre & x & rest & -> & Hpre & Hx)].
  - now rewrite search_single_none, flat_map_rejected.
  - rewrite (search_single_some pre x rest prev [] Hpre Hx).
    cbn [matched after before rev List.app].
    rewrite IH by (rewrite length_app in Hfuel; cbn [List.length] in Hfuel; lia).
    rewrite flat_map_app. cbn [flat_map]. now rewrite Hx, (flat_map_rejected by_ pre Hpre).
Qed.

End SingleUnit.

Lemma replaceAll_unit (c : N) (by_ : str) (s : str) :
  replaceAll no_flags (RChar c) by_ s = flat_map (fun x => if x =? c then by_ else [x]) s.
Proof.
  unfold replaceAll. rewrite <- replace_loop_with_constant.
  apply (replace_single_units no_flags (RChar c) (fun x => x =? c)); [| |lia].
  - intros prev x s'. reflexivity.
  - intros prev. reflexivity.
Qed.

(** ** The RTF exporter *)

Lemma flat_map_flat_map {A B C : Type} (f : A -> list B) (g : B -> list C) (l : list A) :
  flat_map g (flat_map f l) = flat_map (fun a => flat_map g (f a)) l.
Proof.
  induction l as [|a l IH]; [reflexivity|].
  cbn [flat_map]. now rewrite flat_map_app, IH.
Qed.

(** [escapeRTF] code unit by code unit: a backslash before each backslash
    and brace, [\line ] for each line feed. *)
Lemma escapeRTF_units (text : str) :
  escapeRTF text
  = flat_map (fun c => if rtf_special c then [BACKSLASH; c]
                       else if c =? LF then js "\line " else [c]) text.
Proof.
  unfold escapeRTF. rewrite replaceAll_unit. unfold replaceAll_with.
  rewrite (replace_single_units no_flags _ rtf_special); [| | |lia].
  - rewrite flat_map_flat_map. apply flat_map_ext. intros c.
    destruct (rtf_special c) eqn:E; [|cbn [flat_map]; now rewrite app_nil_r].
    cbn [flat_map]. rewrite app_nil_r.
    assert (Hc : (c =? LF) = false).
    { unfold rtf_special, BACKSLASH, OPEN_BRACE, CLOSE_BRACE in E.
      destruct (c =? LF) eqn:Elf; [|reflexivity].
      apply N.eqb_eq in Elf. subst c. discriminate. }
    now rewrite Hc.
  - intros prev x s. unfold exec_at. cbn [rmatch one_of xorb in_set existsb in_item ignoreCase
                                           no_flags andb orb].
    unfold rtf_special. rewrite !(N.eqb_sym x), !orb_false_r, orb_assoc. reflexivity.
  - intros prev. reflexivity.
Qed.

Lemma rtf_depth_app (s1 s2 : str) :
  forall d d1, rtf_depth d s1 = Some d1 -> rtf_depth d (s1 ++ s2) = rtf_depth d1 s2.
Proof.
  assert (Hn : forall n s1, (List.length s1 <= n)%nat ->
                 forall d d1, rtf_depth d s1 = Some d1 ->
                              rtf_depth d (s1 ++ s2) = rtf_depth d1 s2).
  { induction n as [|n IH]; intros s Hlen d d1 Hs.
    - destruct s; [|simpl in Hlen; lia]. simpl in Hs. now inversion Hs.
    - destruct s as [|c s]; [simpl in Hs; now inversion Hs|].
      cbn [rtf_depth List.app] in *.
      destruct (c =? BACKSLASH).
      + destruct s as [|e s]; [discriminate|]. cbn [List.app].
        apply IH; [simpl in Hlen; lia|exact Hs].
      + destruct (c =? OPEN_BRACE); [apply IH; [simpl in Hlen; lia|exact Hs]|].
        destruct (c =? CLOSE_BRACE); [|apply IH; [simpl in Hlen; lia|exact Hs]].
        destruct d; [discriminate|]. apply IH; [simpl in Hlen; lia|exact Hs]. }
  intros d d1. now apply (Hn (List.length s1)).
Qed.

Lemma rtf_depth_then (s1 s2 : str) (d d1 : nat) (res : option nat) :
  rtf_depth d s1 = Some d1 -> rtf_depth d1 s2 = res -> rtf_depth d (s1 ++ s2) = res.
Proof. intros H1 H2. now rewrite (rtf_depth_app _ _ _ _ H1). Qed.

(** An escaped text opens no group and closes none. *)
Lemma rtf_depth_escaped (text : str) (d : nat) : rtf_depth d (escapeRTF text) = Some d.
Proof.
  rewrite escapeRTF_units. induction text as [|c text IH]; [reflexivity|].
  cbn [flat_map]. apply (rtf_depth_then _ _ d d); [|exact IH].
  destruct (rtf_special c) eqn:E; [reflexivity|].
  destruct (c =? LF); [reflexivity|].
  unfold rtf_special in E. apply orb_false_iff in E. destruct E as [E E3].
  apply orb_false_iff in E. destruct E as [E1 E2].
  cbn [rtf_depth]. now rewrite E1, E2, E3.
Qed.

Lemma escapeRTF_one_line (text : str) : ~ In LF (escapeRTF text).
Proof.
  rewrite escapeRTF_units. rewrite in_flat_map. intros (c & _ & Hc).
  destruct (rtf_special c) eqn:E.
  - destruct Hc as [Hc|[Hc|[]]]; [discriminate|]. subst c. discriminate.
  - destruct (c =? LF) eqn:Elf.
    + vm_compute in Hc. repeat destruct Hc as [Hc|Hc]; try discriminate. exact Hc.
    + destruct Hc as [Hc|[]]. subst c. discriminate.
Qed.

Section RtfProperties.
Context `{Host}.

Lemma rtf_depth_ingredients (l : list str) (d : nat) :
  rtf_depth d (flat_map (fun i => js "{\f1\fs22 \bullet  " ++ escapeRTF i ++ js "}\par ") l)
  = Some d.
Proof.
  induction l as [|i l IH]; [reflexivity|].
  cbn [flat_map]. apply (rtf_depth_then _ _ d d); [|exact IH].
  apply (rtf_depth_then _ _ d (S d)); [reflexivity|].
  apply (rtf_depth_then _ _ (S d) (S d)); [apply rtf_depth_escaped|reflexivity].
Qed.

Lemma rtf_depth_group (opening : str) (text : str) (d : nat) :
  rtf_depth d opening = Some (S d) ->
  rtf_depth d (opening ++ escapeRTF text ++ js "}\par ") = Some d.
Proof.
  intros Hopen. apply (rtf_depth_then _ _ d (S d)); [exact Hopen|].
  apply (rtf_depth_then _ _ (S d) (S d)); [apply rtf_depth_escaped|reflexivity].
Qed.

Lemma rtf_depth_recipe (r : recipe number) (d : nat) : rtf_depth d (rtf_recipe r) = Some d.
Proof.
  unfold rtf_recipe.
  apply (rtf_depth_then _ _ d (S d)); [reflexivity|].
  apply (rtf_depth_then _ _ (S d) (S d)); [apply rtf_depth_escaped|].
  apply (rtf_depth_then _ _ (S d) d); [reflexivity|].
  apply (rtf_depth_then _ _ d (S d)); [reflexivity|].
  apply (rtf_depth_then _ _ (S d) (S d)); [apply rtf_depth_escaped|].
  apply (rtf_depth_then _ _ (S d) d); [reflexivity|].
  apply (rtf_depth_then _ _ d d).
  { cbv zeta. destruct (truthy (rtf_tagText (tags r))); [|reflexivity].
    now apply rtf_depth_group. }
  apply (rtf_depth_then _ _ d d); [reflexivity|].
  apply (rtf_depth_then _ _ d d); [apply rtf_depth_ingredients|].
  apply (rtf_depth_then _ _ d d); [reflexivity|].
  apply (rtf_depth_then _ _ d (S d)); [reflexivity|].
  apply (rtf_depth_then _ _ (S d) (S d)); [apply rtf_depth_escaped|].
  apply (rtf_depth_then _ _ (S d) d); [reflexivity|].
  apply (rtf_depth_then _ _ d d); [|reflexivity].
  destruct (truthy (notes r)); [|reflexivity].
  now apply rtf_depth_group.
Qed.

(** The text of a recipe cannot break the group structure of the exported
    RTF document, whatever backslashes, braces and line feeds it holds: an
    escaped text opens no group, closes none and is on one line, and in the
    document every group that is opened is closed, the last one by the last
    code unit. *)
Theorem rtf_export_groups_balanced (recipes : list (recipe number)) :
  rtf_depth 0 (toRTF recipes) = Some 0%nat
  /\ (forall text d, rtf_depth d (escapeRTF text) = Some d)
  /\ (forall text, ~ In LF (escapeRTF text)).
Proof.
  split; [|split; [intros; apply rtf_depth_escaped|apply escapeRTF_one_line]].
  unfold toRTF.
  apply (rtf_depth_then _ _ 0 1); [reflexivity|].
  apply (rtf_depth_then _ _ 1 1); [reflexivity|].
  apply (rtf_depth_then _ _ 1 1); [|reflexivity].
  induction recipes as [|r rs IH]; [reflexivity|].
  cbn [flat_map]. apply (rtf_depth_then _ _ 1 1); [apply rtf_depth_recipe|exact IH].
Qed.

End RtfProperties.

(** ** Line ends *)

Lemma search_from_eq (fl : flags) (r : regex) (prev : option N) (acc s : str) :
  search_from fl r prev acc s
  = match exec_at fl r prev s with
    | Some (s', cs) =>
        Some (Found (rev acc) (firstn (List.length s - List.length s') s) cs s')
    | None =>
        match s with
        | [] => None
        | x :: s' => search_from fl r (Some x) (x :: acc) s'
        end
    end.
Proof. destruct s; reflexivity. Qed.

(** [/\r\n/] *)
Lemma crlf_here (prev : option N) (s : str) :
  exec_at no_flags (seq [RChar CR; RChar LF]) prev s
  = match s with
    | x :: y :: s' => if (x =? CR) && (y =? LF) then Some (s', []) else None
    | _ => None
    end.
Proof.
  destruct s as [|x [|y s']]; unfold exec_at; cbn [seq fold_right rmatch canon no_flags
                                                    ignoreCase andb]; try reflexivity.
  - now destruct (x =? CR).
  - destruct (x =? CR); [|reflexivity]. now destruct (y =? LF).
Qed.

Lemma crlf_not_here (prev : option N) (x : N) (s : str) :
  (x =? CR) = false -> exec_at no_flags (seq [RChar CR; RChar LF]) prev (x :: s) = None.
Proof. intros Hx. rewrite crlf_here. destruct s; [reflexivity|]. now rewrite Hx. Qed.

(** No pair to replace in a text without carriage return, nor in one
    without line feed. *)
Lemma crlf_absent (s : str) :
  ~ In CR s \/ ~ In LF s ->
  forall prev acc, search_from no_flags (seq [RChar CR; RChar LF]) prev acc s = None.
Proof.
  induction s as [|x s IH]; intros Hs prev acc; rewrite search_from_eq, crlf_here;
    [reflexivity|].
  assert (Hrest : ~ In CR s \/ ~ In LF s)
    by (destruct Hs as [Hs|Hs]; [left|right]; intros Hin; apply Hs; now right).
  destruct s as [|y s']; [now apply IH|].
  destruct ((x =? CR) && (y =? LF)) eqn:E; [|now apply IH].
  exfalso. apply andb_true_iff in E. destruct E as [Ex Ey].
  apply N.eqb_eq in Ex, Ey. subst x y.
  destruct Hs as [Hs|Hs]; apply Hs; [now left|right; now left].
Qed.

Lemma crlf_found (pre rest : str) :
  ~ In CR pre ->
  forall prev acc,
    search_from no_flags (seq [RChar CR; RChar LF]) prev acc (pre ++ CR :: LF :: rest)
    = Some (Found (rev acc ++ pre) [CR; LF] [] rest).
Proof.
  induction pre as [|x pre IH]; intros Hpre prev acc.
  - cbn [List.app]. rewrite search_from_eq, crlf_here, !N.eqb_refl. cbn [andb].
    rewrite app_nil_r.
    replace (List.length (CR :: LF :: rest) - List.length rest)%nat with 2%nat
      by (cbn [List.length]; lia).
    reflexivity.
  - change ((x :: pre) ++ CR :: LF :: rest) with (x :: (pre ++ CR :: LF :: rest)).
    assert (Hx : (x =? CR) = false).
    { apply N.eqb_neq. intros ->. apply Hpre. now left. }
    rewrite search_from_eq, (crlf_not_here _ _ _ Hx).
    rewrite IH by (intros Hin; apply Hpre; now right).
    cbn [rev]. now rewrite <- app_assoc.
Qed.

Lemma with_line_end_plain (line_end : str) (s : str) :
  forallb (fun c => negb (c =? LF)) s = true -> with_line_end line_end s = s.
Proof.
  intros Hs. unfold with_line_end.
  exact (flat_map_rejected (fun c => c =? LF) (fun _ => line_end) s Hs).
Qed.

Lemma crlf_undone (text : str) :
  ~ In CR text ->
  replaceAll no_flags (seq [RChar CR; RChar LF]) [LF] (with_line_end [CR; LF] text) = text.
Proof.
  unfold replaceAll.
  assert (Hloop : forall fuel prev t,
             ~ In CR t -> (List.length (with_line_end [CR; LF] t) < fuel)%nat ->
             replace_loop fuel no_flags (seq [RChar CR; RChar LF]) [LF] prev
                          (with_line_end [CR; LF] t) = t).
  { induction fuel as [|fuel IH]; intros prev t Ht Hfuel; [lia|].
    cbn [replace_loop].
    destruct (first_accepted (fun c => c =? LF) t)
      as [Hnone|(pre & x & rest & -> & Hpre & Hx)].
    - rewrite (with_line_end_plain _ _ Hnone). now rewrite crlf_absent by (now left).
    - apply N.eqb_eq in Hx. subst x.
      assert (Hpre' : ~ In CR pre) by (intros Hin; apply Ht, in_or_app; now left).
      assert (Hrest : ~ In CR rest)
        by (intros Hin; apply Ht, in_or_app; right; now right).
      assert (Hcut : with_line_end [CR; LF] (pre ++ LF :: rest)
                     = pre ++ CR :: LF :: with_line_end [CR; LF] rest).
      { unfold with_line_end at 1. rewrite flat_map_app. cbn [flat_map].
        fold (with_line_end [CR; LF] pre). fold (with_line_end [CR; LF] rest).
        now rewrite (with_line_end_plain _ _ Hpre). }
      rewrite Hcut in *. rewrite (crlf_found _ _ Hpre').
      cbn [matched after before rev List.app].
      rewrite IH; [reflexivity|exact Hrest|].
      rewrite length_app in Hfuel. cbn [List.length] in Hfuel. lia. }
  intros Ht. apply Hloop; [exact Ht|lia].
Qed.

Lemma cr_undone (text : str) :
  ~ In CR text ->
  replaceAll no_flags (RChar CR) [LF] (with_line_end [CR] text) = text.
Proof.
  rewrite replaceAll_unit. unfold with_line_end. rewrite flat_map_flat_map.
  induction text as [|c text IH]; intros Ht; [reflexivity|].
  cbn [flat_map]. rewrite IH by (intros Hin; apply Ht; now right).
  destruct (c =? LF) eqn:E.
  - apply N.eqb_eq in E. subst c. reflexivity.
  - cbn [flat_map]. rewrite app_nil_r.
    assert (Hcr : (c =? CR) = false) by (apply N.eqb_neq; intros ->; apply Ht; now left).
    now rewrite Hcr.
Qed.

Lemma with_line_end_no_line_feed (text : str) : ~ In LF (with_line_end [CR] text).
Proof.
  unfold with_line_end. rewrite in_flat_map. intros (c & _ & Hc).
  destruct (c =? LF) eqn:E.
  - destruct Hc as [Hc|[]]. discriminate.
  - destruct Hc as [Hc|[]]. subst c. discriminate.
Qed.

Lemma replace_loop_sub (fl : flags) (r : regex) (by_ : str) (c : N) :
  forall fuel prev s,
    In c (replace_loop fuel fl r by_ prev s) -> In c s \/ In c by_.
Proof.
  induction fuel as [|fuel IH]; intros prev s Hc; cbn [replace_loop] in Hc; [now left|].
  destruct (search_from fl r prev [] s) as [f|] eqn:Ef; [|now left].
  apply search_from_splits in Ef. destruct Ef as [Hcut _]. cbn [rev List.app] in Hcut.
  assert (Hbefore : In c (before f) -> In c s)
    by (intros Hin; rewrite <- Hcut; apply in_or_app; now left).
  assert (Hafter : In c (after f) -> In c s)
    by (intros Hin; rewrite <- Hcut; apply in_or_app; right; apply in_or_app; now right).
  destruct (matched f) as [|m ms]; destruct (after f) as [|x rest];
    repeat (apply in_app_or in Hc; destruct Hc as [Hc|Hc]); auto;
    try (destruct Hc as [<-|Hc]; [left; apply Hafter; now left|]);
    try (apply IH in Hc; destruct Hc as [Hc|Hc]; [left; apply Hafter|right]; auto;
         try (now right)).
Qed.

Section LineEnds.
Context `{Host}.

(** A text imports the same whether its lines end in a line feed, in a
    carriage return and a line feed, or in a carriage return alone. *)
Theorem line_ends_do_not_matter (text : str) :
  ~ In CR text ->
  normalize (with_line_end [CR; LF] text) = normalize text
  /\ normalize (with_line_end [CR] text) = normalize text
  /\ parseText (with_line_end [CR; LF] text) = parseText text
  /\ parseText (with_line_end [CR] text) = parseText text.
Proof.
  intros Ht.
  assert (Hplain : replaceAll no_flags (RChar CR) [LF]
                     (replaceAll no_flags (seq [RChar CR; RChar LF]) [LF] text) = text).
  { assert (H1 : replaceAll no_flags (seq [RChar CR; RChar LF]) [LF] text = text).
    { unfold replaceAll. cbn [replace_loop]. now rewrite crlf_absent by (now left). }
    rewrite H1, replaceAll_unit.
    apply (flat_map_rejected (fun x => x =? CR) (fun _ => [LF])).
    apply forallb_forall. intros c Hc. apply negb_true_iff, N.eqb_neq.
    intros ->. contradiction. }
  assert (Hcrlf : normalize (with_line_end [CR; LF] text) = normalize text).
  { unfold normalize. rewrite Hplain, (crlf_undone _ Ht).
    assert (H2 : replaceAll no_flags (RChar CR) [LF] text = text).
    { rewrite replaceAll_unit.
      apply (flat_map_rejected (fun x => x =? CR) (fun _ => [LF])).
      apply forallb_forall. intros c Hc. apply negb_true_iff, N.eqb_neq.
      intros ->. contradiction. }
    now rewrite H2. }
  assert (Hcr : normalize (with_line_end [CR] text) = normalize text).
  { unfold normalize. rewrite Hplain.
    assert (H1 : replaceAll no_flags (seq [RChar CR; RChar LF]) [LF]
                   (with_line_end [CR] text) = with_line_end [CR] text).
    { unfold replaceAll. cbn [replace_loop].
      now rewrite crlf_absent by (right; apply with_line_end_no_line_feed). }
    now rewrite H1, (cr_undone _ Ht). }
  repeat split; try assumption;
    unfold parseText, parseText_with, candidate_blocks; congruence.
Qed.

(** No carriage return is left in the text that the splitter works on. *)
Theorem normalized_text_has_no_carriage_return (text : str) : ~ In CR (normalize text).
Proof.
  unfold normalize, replaceAll at 1. intros Hc.
  apply replace_loop_sub in Hc. destruct Hc as [Hc|Hc].
  - rewrite replaceAll_unit in Hc. apply in_flat_map in Hc.
    destruct Hc as (c & _ & Hc). destruct (c =? CR) eqn:E.
    + destruct Hc as [Hc|[]]. discriminate.
    + destruct Hc as [Hc|[]]. subst c. discriminate.
  - repeat destruct Hc as [Hc|Hc]; try discriminate. exact Hc.
Qed.

End LineEnds.

Lemma line_ends_do_not_matter_witness :
  parseText (H := Reference.host) (with_line_end [CR; LF] tomato_soup)
  = parseText (H := Reference.host) tomato_soup.
Proof.
  apply (line_ends_do_not_matter (H := Reference.host) tomato_soup).
  vm_compute. intros Hin. repeat destruct Hin as [Hin|Hin]; try discriminate. exact Hin.
Defined.

(** ** Links in a text *)

(** A pattern that is one capturing group captures the text it matched. *)
Lemma whole_match_captured (fl : flags) (a : regex) (prev : option N) (s rest : str)
      (cs : caps) :
  exec_at fl (RGroup 1 a) prev s = Some (rest, cs) ->
  cap 1 cs = Some (firstn (List.length s - List.length rest) s).
Proof.
  unfold exec_at. cbn [rmatch]. intros Hrun.
  apply (rmatch_captures 0 fl a) in Hrun. destruct Hrun as (p' & s1 & cs1 & Hk & _).
  inversion Hk; subst. now rewrite cap_set_cap.
Qed.

(** The pieces and the captures of such a split, put end to end, are the
    text. *)
Lemma split_captures_lossless (fl : flags) (a : regex) :
  forall fuel prev piece s,
    exists pieces,
      split_captures_loop fuel fl (RGroup 1 a) 1 prev piece s = map Some pieces
      /\ List.concat pieces = rev piece ++ s.
Proof.
  induction fuel as [|fuel IH]; intros prev piece s; cbn [split_captures_loop].
  - exists [rev piece ++ s]. split; [reflexivity|]. cbn [List.concat]. apply app_nil_r.
  - destruct s as [|x s'].
    + exists [rev piece]. split; [reflexivity|]. cbn [List.concat]. reflexivity.
    + assert (Hstep : exists pieces,
                 split_captures_loop fuel fl (RGroup 1 a) 1 (Some x) (x :: piece) s'
                 = map Some pieces
                 /\ List.concat pieces = rev piece ++ x :: s').
      { destruct (IH (Some x) (x :: piece) s') as (pieces & Heq & Hcat).
        exists pieces. split; [exact Heq|]. rewrite Hcat. cbn [rev].
        now rewrite <- app_assoc. }
      destruct (exec_at fl (RGroup 1 a) prev (x :: s')) as [[rest cs]|] eqn:E;
        [|exact Hstep].
      destruct (Nat.eqb (List.length rest) (List.length (x :: s'))
                && match piece with [] => true | _ => false end); [exact Hstep|].
      destruct (IH (last_of prev (firstn (List.length (x :: s') - List.length rest)
                                         (x :: s'))) [] rest)
        as (pieces & Heq & Hcat).
      exists (rev piece :: firstn (List.length (x :: s') - List.length rest) (x :: s')
                :: pieces).
      split.
      * cbn [List.seq map List.app]. now rewrite (whole_match_captured _ _ _ _ _ _ E), Heq.
      * cbn [List.concat]. rewrite Hcat. cbn [rev List.app].
        apply exec_at_forward in E. now rewrite (Suffix_split _ _ E).
Qed.

Lemma linkify_parts (pieces : list str) :
  exists parts,
    map_res linkify_part (map Some pieces) = Ok parts /\ map part_text parts = pieces.
Proof.
  induction pieces as [|p pieces (parts & Hparts & Htext)].
  - exists []. split; reflexivity.
  - cbn [map map_res linkify_part bind]. rewrite Hparts. cbn [bind].
    eexists. split; [reflexivity|]. cbn [map]. rewrite Htext.
    now destruct (test no_flags urlRegex p).
Qed.

(** [linkifyText] returns, and what it returns displays the text it was
    given: the parts, links included, put end to end are the text. *)
Theorem linkify_keeps_the_text (text : str) :
  exists out, linkifyText text = Ok out /\ displayed out = text.
Proof.
  unfold linkifyText. destruct text as [|c text]; [exists (AsIs []); split; reflexivity|].
  cbn [truthy str_eqb negb]. unfold split_captures, urlRegex.
  destruct (split_captures_lossless no_flags
              (seq [lit "http"; opt (lit "s"); lit "://"; plus (none_of [CSpace])])
              (2 * List.length (c :: text) + 2) None [] (c :: text))
    as (pieces & -> & Hcat).
  destruct (linkify_parts pieces) as (parts & Hparts & Htext).
  fold urlRegex. rewrite Hparts. cbn [bind].
  exists (Parts parts). split; [reflexivity|]. cbn [displayed]. now rewrite Htext.
Qed.

(** ** The older block parser *)

Section LegacyParserProperties.
Context `{Host}.

Lemma legacy_extract_ingredients_returns (block : str) :
  exists l,
    LegacyParser.extract_ingredients block = Ok l
    /\ Forall (fun i => (1 <= List.length i <= 149)%nat /\ trim i = i) l.
Proof.
  assert (Hkept : forall span,
             Forall (fun i => (1 <= List.length i <= 149)%nat /\ trim i = i)
                    (filter LegacyParser.keep_ingredient
                            (map LegacyParser.clean_ingredient (split_chr LF span)))).
  { intros span. apply Forall_forall. intros i Hi. apply filter_In in Hi.
    destruct Hi as [Hi Hk]. apply in_map_iff in Hi. destruct Hi as (line & <- & _).
    unfold LegacyParser.keep_ingredient in Hk.
    apply andb_true_iff in Hk. destruct Hk as [Hk _].
    apply andb_true_iff in Hk. destruct Hk as [Hlo Hhi].
    apply Nat.ltb_lt in Hlo, Hhi. split; [lia|].
    unfold LegacyParser.clean_ingredient. apply trim_idempotent. }
  unfold LegacyParser.extract_ingredients, LegacyParser.find_ingredients.
  destruct (str_match flag_i LegacyParser.re_ingredients block) as [m|] eqn:E1.
  { destruct (group_defined _ LegacyParser.re_ingredients _ _ eq_refl E1) as [g ->].
    cbn [bind]. eauto. }
  destruct (str_match flag_i LegacyParser.re_youll_need block) as [m|] eqn:E2.
  { destruct (group_defined _ LegacyParser.re_youll_need _ _ eq_refl E2) as [g ->].
    cbn [bind]. eauto. }
  destruct (str_match flag_im LegacyParser.re_list block); cbn [bind]; eauto.
Qed.

Lemma legacy_find_instructions_returns (patterns : list regex) (block : str) :
  Forall (fun p => always_captures 1 p = true) patterns ->
  exists s, LegacyParser.find_instructions patterns block = Ok s.
Proof.
  induction 1 as [|pattern rest Hp _ IH]; simpl; [eauto|].
  destruct (str_match flag_i pattern block) as [m|] eqn:Em; [|exact IH].
  destruct (group_defined _ _ _ _ Hp Em) as [g ->]. simpl. eauto.
Qed.

(** What the older parser returns for a block: nothing is thrown, and a
    record has a title, ingredients and instructions. *)
Lemma legacy_parseRecipeBlock_returns (now : number) (block : str) :
  exists o,
    LegacyParser.parseRecipeBlock now block = Ok o
    /\ forall r, o = Some r ->
         LegacyParser.id r = IdNum now
         /\ LegacyParser.title r <> []
         /\ LegacyParser.ingredients r <> []
         /\ LegacyParser.instructions r <> []
         /\ Forall (fun i => (1 <= List.length i <= 149)%nat /\ trim i = i)
                   (LegacyParser.ingredients r).
Proof.
  destruct (detect_category_returns _ block categoryPatterns_capture) as [category Hc].
  destruct (extract_tags_returns block) as [tags Ht].
  destruct (legacy_extract_ingredients_returns block) as (ingredients & Hi & Hing).
  destruct (legacy_find_instructions_returns LegacyParser.instrPatterns block) as [found Hf].
  { repeat constructor. }
  destruct (first_group_returns notesPatterns [] block) as [notes Hn].
  { repeat constructor. }
  unfold LegacyParser.parseRecipeBlock, extract_notes.
  rewrite Hc; cbn [bind]. rewrite Ht; cbn [bind]. rewrite Hi; cbn [bind].
  rewrite Hf; cbn [bind]. rewrite Hn; cbn [bind].
  destruct (List.length (block_lines block) <? 3)%nat;
    [eexists; split; [reflexivity|discriminate]|].
  destruct (truthy (extract_title (block_lines block))) eqn:Etitle; cbn [negb andb];
    [|eexists; split; [reflexivity|discriminate]].
  destruct (0 <? List.length ingredients)%nat eqn:Elen;
    [|eexists; split; [reflexivity|discriminate]].
  eexists. split; [reflexivity|]. intros r Hr. inversion Hr; subst r; clear Hr.
  cbn [LegacyParser.id LegacyParser.title LegacyParser.ingredients
       LegacyParser.instructions].
  apply truthy_nonempty in Etitle. apply Nat.ltb_lt in Elen.
  repeat split; auto.
  - intros ->. simpl in Elen. lia.
  - destruct (truthy found) eqn:Efound; [now apply truthy_nonempty|discriminate].
Qed.

Lemma legacy_parse_blocks_returns (n : nat) (blocks : list str) :
  exists rs,
    LegacyParser.parse_blocks n blocks = Ok rs
    /\ (List.length rs <= List.length blocks)%nat
    /\ Forall (fun r =>
                 LegacyParser.title r <> []
                 /\ LegacyParser.ingredients r <> []
                 /\ LegacyParser.instructions r <> []
                 /\ Forall (fun i => (1 <= List.length i <= 149)%nat /\ trim i = i)
                           (LegacyParser.ingredients r)) rs.
Proof.
  revert n. induction blocks as [|b bs IH]; intros n; cbn [LegacyParser.parse_blocks].
  - exists []. split; [reflexivity|]. split; [simpl; lia|constructor].
  - destruct (legacy_parseRecipeBlock_returns (clock n) b) as ([r|] & -> & Hr); cbn [bind].
    + destruct (IH (S n)) as (rs & -> & Hlen & Hrs). cbn [bind].
      exists (r :: rs). split; [reflexivity|]. split; [simpl; lia|].
      constructor; [|exact Hrs]. destruct (Hr r eq_refl) as (_ & Hvalid). exact Hvalid.
    + destruct (IH n) as (rs & -> & Hlen & Hrs).
      exists rs. split; [reflexivity|]. split; [simpl; lia|exact Hrs].
Qed.

(** The text path of the older copy always returns, with at most one
    record per candidate block; every record has a title, instructions and
    at least one ingredient, and every ingredient has between 1 and 149 code
    units and no white space at either end. *)
Theorem legacy_text_records_valid (text : str) :
  exists rs,
    LegacyParser.parseText text = Ok rs
    /\ (List.length rs <= List.length (Legacy.candidate_blocks text))%nat
    /\ Forall (fun r =>
                 LegacyParser.title r <> []
                 /\ LegacyParser.ingredients r <> []
                 /\ LegacyParser.instructions r <> []
                 /\ Forall (fun i => (1 <= List.length i <= 149)%nat /\ trim i = i)
                           (LegacyParser.ingredients r)) rs.
Proof. unfold LegacyParser.parseText. apply legacy_parse_blocks_returns. Qed.

End LegacyParserProperties.

(** The older copy on the sample recipe of the import guide: the blank
    lines cut the text before the ingredients, and two records come out,
    neither of which is the recipe. *)
Example legacy_guacamole :
  res_map (map (fun r => (LegacyParser.title r, LegacyParser.ingredients r)))
          (LegacyParser.parseText (H := Reference.host) guacamole)
  = Ok [(js "Classic Guacamole", [js "Region: Latin America"]);
        (js "3 Ripe Avocados",
         [js "ripe avocados"; js "lime, juiced"; js "/2 teaspoon salt";
          js "tablespoons cilantro"; js "tomato, diced"])].
Proof. vm_compute. reflexivity. Qed.

(** ** The importer and its failures *)

Section ImporterFailures.
Context `{Host}.



End ImporterFailures.


(** ** Extracted text is text of the block *)

Lemma Infix_refl (s : str) : Infix s s.
Proof. exists [], []. now rewrite app_nil_r. Qed.

Lemma Infix_nil (s : str) : Infix [] s.
Proof. exists [], s. reflexivity. Qed.

Lemma Infix_trans (a b c : str) : Infix a b -> Infix b c -> Infix a c.
Proof.
  intros (a1 & a2 & ->) (b1 & b2 & ->). exists (b1 ++ a1), (a2 ++ b2).
  now rewrite !app_assoc.
Qed.

Lemma Suffix_Infix (a b : str) : Suffix a b -> Infix a b.
Proof. intros (p & ->). exists p, []. now rewrite app_nil_r. Qed.

Lemma Prefix_Infix (a b : str) : Infix a (a ++ b).
Proof. exists [], b. reflexivity. Qed.

(** What a match consumed is a run of the text. *)
Lemma consumed_Infix (input s s' : str) :
  Suffix s input -> Suffix s' s -> Infix (firstn (List.length s - List.length s') s) input.
Proof.
  intros Hs Hs'. apply (Infix_trans _ s); [|now apply Suffix_Infix].
  rewrite <- (Suffix_split _ _ Hs') at 3. apply Prefix_Infix.
Qed.

Lemma trimStart_Suffix (s : str) : Suffix (trimStart s) s.
Proof. destruct (trimStart_cut s) as (p & Hp & _). now exists p. Qed.

Lemma trim_Infix (s : str) : Infix (trim s) s.
Proof.
  apply (Infix_trans _ (trimStart s)); [|apply Suffix_Infix, trimStart_Suffix].
  unfold trim, trimEnd.
  destruct (trimStart_Suffix (rev (trimStart s))) as (p & Hp).
  exists [], (rev p). cbn [List.app].
  rewrite <- rev_app_distr, <- Hp. symmetry. apply rev_involutive.
Qed.

Lemma split_chr_first_is_prefix (c : N) (s : str) :
  match split_chr c s with
  | q :: _ => exists rest, s = q ++ rest
  | [] => True
  end.
Proof.
  induction s as [|x s IH]; cbn [split_chr]; [now exists []|].
  destruct (x =? c); [now exists (x :: s)|].
  destruct (split_chr c s) as [|q qs]; [now exists s|].
  destruct IH as (rest & ->). now exists rest.
Qed.

Lemma split_chr_Infix (c : N) (s p : str) : In p (split_chr c s) -> Infix p s.
Proof.
  revert p. induction s as [|x s IH]; intros p; cbn [split_chr].
  - intros [<-|[]]. apply Infix_refl.
  - destruct (x =? c).
    + intros [<-|Hp]; [apply Infix_nil|].
      apply (Infix_trans _ s); [now apply IH|]. apply Suffix_Infix, Suffix_tail.
    + destruct (split_chr c s) as [|q qs] eqn:E.
      * intros [<-|[]]. exists [], s. reflexivity.
      * intros [<-|Hp].
        -- pose proof (split_chr_first_is_prefix c s) as Hpre. rewrite E in Hpre.
           destruct Hpre as (rest & ->). exists [], rest. reflexivity.
        -- apply (Infix_trans _ s); [apply IH; now right|].
           apply Suffix_Infix, Suffix_tail.
Qed.

Lemma captures_within_clear (input : str) (gs : list nat) (cs : caps) :
  captures_within input cs -> captures_within input (clear_caps gs cs).
Proof.
  unfold captures_within, clear_caps. rewrite !Forall_forall.
  intros Hcs c Hc. apply filter_In in Hc. now apply Hcs.
Qed.

Lemma captures_within_set (input : str) (i : nat) (t : str) (cs : caps) :
  Infix t input -> captures_within input cs -> captures_within input (set_cap i t cs).
Proof.
  unfold captures_within, set_cap. intros Ht Hcs. constructor; [exact Ht|].
  rewrite Forall_forall in *. intros c Hc. apply filter_In in Hc. now apply Hcs.
Qed.

Lemma cap_within (input : str) (i : nat) (t : str) (cs : caps) :
  captures_within input cs -> cap i cs = Some t -> Infix t input.
Proof.
  induction 1 as [|[j u] cs Hu _ IH]; cbn [cap]; [discriminate|].
  destruct (Nat.eqb i j); [|exact IH]. intros E. inversion E; subst. exact Hu.
Qed.

Lemma repeat_matcher_within (input : str) (m : matcher) (gs : list nat) (greedy : bool)
      (k : mcont) :
  stays_within input m ->
  forall fuel min max prev s cs res,
    Suffix s input -> captures_within input cs ->
    repeat_matcher m gs greedy k fuel min max prev s cs = Some res ->
    exists p' s' cs',
      k p' s' cs' = Some res /\ Suffix s' s /\ captures_within input cs'.
Proof.
  intros Hm. induction fuel as [|fuel IH]; intros min max prev s cs res Hs Hcs Hrun;
    [discriminate|].
  assert (Hstop : k prev s cs = Some res ->
                  exists p' s' cs',
                    k p' s' cs' = Some res /\ Suffix s' s /\ captures_within input cs').
  { intros Hk. exists prev, s, cs. repeat split; auto. apply Suffix_refl. }
  simpl in Hrun.
  match type of Hrun with
  | context [m prev s ?c ?k'] => set (it := m prev s c k') in *
  end.
  assert (Hiter : it = Some res ->
            exists p' s' cs',
              k p' s' cs' = Some res /\ Suffix s' s /\ captures_within input cs').
  { intros Hit. apply Hm in Hit; [|exact Hs|now apply captures_within_clear].
    destruct Hit as (p1 & s1 & cs1 & Hk & Hs1 & Hcs1).
    destruct (Nat.eqb min 0 && Nat.eqb (List.length s1) (List.length s));
      [discriminate|].
    apply IH in Hk; [|eapply Suffix_trans; eauto|exact Hcs1].
    destruct Hk as (p2 & s2 & cs2 & Hk & Hs2 & Hcs2).
    exists p2, s2, cs2. repeat split; auto. eapply Suffix_trans; eauto. }
  clearbody it.
  destruct max as [[|mx]|]; [apply Hstop; auto| |];
    (destruct (Nat.eqb min 0); simpl in Hrun; [|apply Hiter, Hrun]);
    (destruct greedy; unfold or_else in Hrun;
     [ destruct it; [apply Hiter; exact Hrun | apply Hstop; auto]
     | destruct (k prev s cs); [apply Hstop; auto | apply Hiter, Hrun] ]).
Qed.

Lemma rmatch_within (input : str) (fl : flags) (r : regex) :
  stays_within input (rmatch fl r).
Proof.
  unfold stays_within.
  induction r as [ | c | neg items | | a IHa b IHb | a IHa b IHb
                 | min max greedy a IHa | j a IHa | a IHa | | ];
    intros prev s cs k res Hs Hcs Hrun; cbn [rmatch] in Hrun.
  - exists prev, s, cs. repeat split; auto. apply Suffix_refl.
  - destruct s as [|x s']; [discriminate|].
    destruct (canon fl x =? canon fl c); [|discriminate].
    exists (Some x), s', cs. repeat split; auto. apply Suffix_tail.
  - destruct s as [|x s']; [discriminate|].
    destruct (xorb neg (in_set fl items x)); [|discriminate].
    exists (Some x), s', cs. repeat split; auto. apply Suffix_tail.
  - destruct s as [|x s']; [discriminate|].
    destruct (is_line_terminator x); [discriminate|].
    exists (Some x), s', cs. repeat split; auto. apply Suffix_tail.
  - apply IHa in Hrun; [|exact Hs|exact Hcs].
    destruct Hrun as (p1 & s1 & cs1 & Hb & Hs1 & Hcs1).
    apply IHb in Hb; [|eapply Suffix_trans; eauto|exact Hcs1].
    destruct Hb as (p2 & s2 & cs2 & Hk & Hs2 & Hcs2).
    exists p2, s2, cs2. repeat split; auto. eapply Suffix_trans; eauto.
  - unfold or_else in Hrun.
    destruct (rmatch fl a prev s cs k) eqn:Ea.
    + rewrite <- Hrun in *. now apply IHa in Ea.
    + now apply IHb in Hrun.
  - eapply repeat_matcher_within in Hrun; eauto.
  - apply IHa in Hrun; [|exact Hs|exact Hcs].
    destruct Hrun as (p1 & s1 & cs1 & Hk & Hs1 & Hcs1).
    eexists _, _, _. split; [exact Hk|]. split; [exact Hs1|].
    apply captures_within_set; [|exact Hcs1]. now apply consumed_Infix.
  - destruct (rmatch fl a prev s cs (fun _ s' cs' => Some (s', cs'))) as [[s1 cs1]|] eqn:Ea;
      [|discriminate].
    apply IHa in Ea; [|exact Hs|exact Hcs].
    destruct Ea as (p2 & s2 & cs2 & Heq & Hs2 & Hcs2).
    inversion Heq; subst. exists prev, s, cs1. repeat split; auto. apply Suffix_refl.
  - destruct (at_bol fl prev); [|discriminate].
    exists prev, s, cs. repeat split; auto. apply Suffix_refl.
  - destruct (at_eol fl s); [|discriminate].
    exists prev, s, cs. repeat split; auto. apply Suffix_refl.
Qed.

(** What a search finds in a text is text of it: the match and every
    capture. *)
Lemma search_from_within (input : str) (fl : flags) (r : regex) (s : str) :
  forall prev acc f,
    Suffix s input ->
    search_from fl r prev acc s = Some f ->
    Infix (matched f) input /\ captures_within input (groups f).
Proof.
  assert (Hhere : forall prev s s' cs,
             Suffix s input -> exec_at fl r prev s = Some (s', cs) ->
             Infix (firstn (List.length s - List.length s') s) input
             /\ captures_within input cs).
  { intros prev s0 s' cs Hs E. unfold exec_at in E.
    apply (rmatch_within input) in E; [|exact Hs|constructor].
    destruct E as (p1 & s1 & cs1 & Hk & Hs1 & Hcs1). inversion Hk; subst.
    split; [now apply consumed_Infix|exact Hcs1]. }
  induction s as [|x s IH]; intros prev acc f Hs Hf; rewrite search_from_eq in Hf.
  - destruct (exec_at fl r prev []) as [[s' cs]|] eqn:E; [|discriminate].
    injection Hf as <-. exact (Hhere prev [] s' cs Hs E).
  - destruct (exec_at fl r prev (x :: s)) as [[s' cs]|] eqn:E.
    + injection Hf as <-. exact (Hhere prev (x :: s) s' cs Hs E).
    + eapply IH; [|exact Hf]. eapply Suffix_trans; [apply Suffix_tail|exact Hs].
Qed.

Lemma group_within (fl : flags) (r : regex) (s : str) (f : found) (i : nat) (t : str) :
  str_match fl r s = Some f -> group i f = Ok t -> Infix t s /\ Infix (matched f) s.
Proof.
  unfold str_match, group. intros Hf Ht.
  apply (search_from_within s) in Hf; [|apply Suffix_refl].
  destruct Hf as [Hm Hcs]. split; [|exact Hm].
  destruct (cap i (groups f)) as [u|] eqn:E; [|discriminate].
  inversion Ht; subst. eapply cap_within; eauto.
Qed.

(** A pattern that starts with [^], without the [m] flag, is tried at the
    start of the text only: replacing its match by nothing leaves the rest
    of the text. *)
Lemma anchored_search_none (fl : flags) (r : regex) (s : str) :
  multiline fl = false ->
  forall x acc, search_from fl (RSeq RBol r) (Some x) acc s = None.
Proof.
  intros Hfl.
  assert (Hexec : forall x s', exec_at fl (RSeq RBol r) (Some x) s' = None).
  { intros x s'. unfold exec_at. cbn [rmatch at_bol]. now rewrite Hfl. }
  induction s as [|y s IH]; intros x acc; rewrite search_from_eq, Hexec;
    [reflexivity|apply IH].
Qed.

Lemma anchored_replace_Suffix (fl : flags) (r : regex) (s : str) :
  multiline fl = false -> Suffix (replace fl (RSeq RBol r) [] s) s.
Proof.
  intros Hfl. unfold replace, str_match. rewrite search_from_eq.
  destruct (exec_at fl (RSeq RBol r) None s) as [[s' cs]|] eqn:E.
  - cbn [before after rev List.app]. now apply exec_at_forward in E.
  - destruct s as [|x s]; [apply Suffix_refl|].
    rewrite anchored_search_none by exact Hfl. apply Suffix_refl.
Qed.

Lemma split_loop_Infix (fl : flags) (r : regex) :
  forall fuel prev piece s p,
    In p (split_loop fuel fl r prev piece s) -> Infix p (rev piece ++ s).
Proof.
  induction fuel as [|fuel IH]; intros prev piece s p Hp; cbn [split_loop] in Hp.
  - destruct Hp as [<-|[]]. apply Infix_refl.
  - destruct s as [|x s'].
    + destruct Hp as [<-|[]]. rewrite app_nil_r. apply Infix_refl.
    + assert (Hstep : In p (split_loop fuel fl r (Some x) (x :: piece) s') ->
                      Infix p (rev piece ++ x :: s')).
      { intros Hin. apply IH in Hin. cbn [rev] in Hin. now rewrite <- app_assoc in Hin. }
      destruct (exec_at fl r prev (x :: s')) as [[rest cs]|] eqn:E; [|now apply Hstep].
      destruct (Nat.eqb (List.length rest) (List.length (x :: s'))
                && match piece with [] => true | _ => false end); [now apply Hstep|].
      destruct Hp as [<-|Hp]; [apply Prefix_Infix|].
      apply IH in Hp. cbn [rev List.app] in Hp.
      apply (Infix_trans _ rest); [exact Hp|].
      apply exec_at_forward in E. apply Suffix_Infix.
      eapply Suffix_trans; [exact E|]. now exists (rev piece).
Qed.

Lemma split_re_Infix (fl : flags) (r : regex) (s p : str) :
  In p (split_re fl r s) -> Infix p s.
Proof.
  unfold split_re. destruct s as [|x s].
  - destruct (exec_at fl r None []); [intros []|]. intros [<-|[]]. apply Infix_refl.
  - intros Hp. now apply split_loop_Infix in Hp.
Qed.

Section Provenance.
Context `{Host}.

Lemma clean_ingredient_Infix (line : str) : Infix (clean_ingredient line) line.
Proof.
  unfold clean_ingredient.
  eapply Infix_trans; [apply trim_Infix|].
  eapply Infix_trans; apply Suffix_Infix;
    [unfold re_quantity|unfold re_marker]; cbn [seq fold_right];
    now apply anchored_replace_Suffix.
Qed.

Lemma extract_ingredients_Infix (block : str) (l : list str) :
  extract_ingredients block = Ok l -> Forall (fun i => Infix i block) l.
Proof.
  assert (Hspan : forall span, Infix span block ->
             Forall (fun i => Infix i block)
                    (filter keep_ingredient (map clean_ingredient (split_chr LF span)))).
  { intros span Hspan. apply Forall_forall. intros i Hi. apply filter_In in Hi.
    destruct Hi as [Hi _]. apply in_map_iff in Hi. destruct Hi as (line & <- & Hline).
    eapply Infix_trans; [apply clean_ingredient_Infix|].
    eapply Infix_trans; [eapply split_chr_Infix; exact Hline|exact Hspan]. }
  unfold extract_ingredients, find_ingredients.
  destruct (str_match flag_i re_ingredients block) as [m|] eqn:E1.
  { destruct (group 1 m) as [g|] eqn:Eg; cbn [bind]; [|discriminate].
    intros Hl. inversion Hl. apply Hspan. eapply group_within; eauto. }
  destruct (str_match flag_i re_youll_need block) as [m|] eqn:E2.
  { destruct (group 1 m) as [g|] eqn:Eg; cbn [bind]; [|discriminate].
    intros Hl. inversion Hl. apply Hspan. eapply group_within; eauto. }
  destruct (str_match flag_i re_what_you_need block) as [m|] eqn:E3.
  { destruct (group 1 m) as [g|] eqn:Eg; cbn [bind]; [|discriminate].
    intros Hl. inversion Hl. apply Hspan. eapply group_within; eauto. }
  destruct (str_match flag_im re_list block) as [m|] eqn:E4; cbn [bind];
    intros Hl; inversion Hl; [|constructor].
  apply Hspan. unfold str_match in E4.
  apply (search_from_within block) in E4; [tauto|apply Suffix_refl].
Qed.

Lemma first_group_Infix (patterns : list (flags * regex)) (block s : str) :
  first_group patterns [] block = Ok s -> Infix s block.
Proof.
  induction patterns as [|[fl pattern] rest IH]; cbn [first_group].
  - intros E. inversion E. apply Infix_nil.
  - destruct (str_match fl pattern block) as [m|] eqn:Em; [|exact IH].
    destruct (group 1 m) as [g|] eqn:Eg; cbn [bind]; [|discriminate].
    intros E. inversion E. eapply Infix_trans; [apply trim_Infix|].
    eapply group_within; eauto.
Qed.

Lemma detect_category_Infix (patterns : list (regex * category_rule)) (block c : str) :
  detect_category patterns block = Ok c ->
  Infix c block \/ c = js "Main" \/ exists cat, In (Keyword cat) (map snd patterns) /\ c = js cat.
Proof.
  induction patterns as [|[pattern rule] rest IH]; cbn [detect_category].
  - intros E. inversion E. right. now left.
  - destruct (str_match flag_i pattern block) as [m|] eqn:Em.
    + destruct rule as [|cat].
      * destruct (group 1 m) as [g|] eqn:Eg; cbn [bind]; [|discriminate].
        intros E. inversion E. left. eapply Infix_trans; [apply trim_Infix|].
        eapply group_within; eauto.
      * intros E. inversion E. right. right. exists cat. split; [now left|reflexivity].
    + intros E. destruct (IH E) as [Hi|[Hm|(cat & Hcat & Hc)]]; auto.
      right. right. exists cat. split; [now right|exact Hc].
Qed.

Lemma parseRecipeBlock_fields (now : number) (block : str) (r : recipe number) :
  parseRecipeBlock now block = Ok (Some r) ->
  detect_category categoryPatterns block = Ok (category r)
  /\ first_group servingsPatterns [] block = Ok (servings r)
  /\ extract_ingredients block = Ok (ingredients r)
  /\ extract_notes block = Ok (notes r).
Proof.
  intros Hp.
  destruct (parseRecipeBlock_unfold now block)
    as (c & sv & tg & ing & found & nt & Hc & Hs & Ht & Hi & Hf & Hn & Heq).
  rewrite Heq in Hp.
  destruct (List.length (block_lines block) <? 3)%nat; [discriminate|].
  destruct (negb (truthy (extract_title (block_lines block)))); [discriminate|].
  destruct (0 <? List.length ing)%nat; [|discriminate].
  inversion Hp; subst r. cbn [category servings ingredients notes]. auto.
Qed.

(** The block parser copies, it does not invent: every ingredient of an
    accepted block, its servings and its notes are runs of consecutive code
    units of the block, and so is its category unless it is [Main] or one of
    the six categories that keywords stand for. *)
Theorem extracted_text_is_text_of_the_block (now : number) (block : str)
        (r : recipe number) :
  parseRecipeBlock now block = Ok (Some r) ->
  Forall (fun i => Infix i block) (ingredients r)
  /\ Infix (servings r) block
  /\ Infix (notes r) block
  /\ (Infix (category r) block
      \/ In (category r)
            (map js ["Main"; "Breakfast"; "Dessert"; "Soup"; "Salad"; "Snack";
                     "Drink"]%string)).
Proof.
  intros Hp. apply parseRecipeBlock_fields in Hp. destruct Hp as (Hc & Hs & Hi & Hn).
  split; [now apply extract_ingredients_Infix|].
  split; [now apply first_group_Infix in Hs|].
  split; [now apply first_group_Infix in Hn|].
  apply detect_category_Infix in Hc.
  destruct Hc as [Hc|[Hc|(cat & Hcat & Hc)]]; [now left|right; now left|].
  right. rewrite Hc. cbn [categoryPatterns map snd In] in Hcat.
  repeat destruct Hcat as [Hcat|Hcat]; try discriminate; try contradiction;
    inversion Hcat; subst cat; cbn [map In]; tauto.
Qed.

(** The blocks that the splitter hands to the block parser are runs of
    consecutive code units of the normalized text, in both copies of the
    program. *)
Theorem candidate_blocks_are_runs_of_the_text (text : str) :
  Forall (fun b => Infix b (normalize text)) (candidate_blocks text)
  /\ Forall (fun b => Infix b (Legacy.normalize text)) (Legacy.candidate_blocks text).
Proof.
  assert (Htrim : forall (pieces : list str) (whole : str) (threshold : nat),
             (forall p, In p pieces -> Infix p whole) ->
             Forall (fun b => Infix b whole)
                    (filter (fun b => (threshold <? List.length b)%nat) (map trim pieces))).
  { intros pieces whole threshold Hpieces. apply Forall_forall. intros b Hb.
    apply filter_In in Hb. destruct Hb as [Hb _]. apply in_map_iff in Hb.
    destruct Hb as (p & <- & Hp). eapply Infix_trans; [apply trim_Infix|auto]. }
  split.
  - apply Htrim. intros p. unfold split_blocks, split_if_single.
    repeat match goal with
           | |- context [if ?c then _ else _] => destruct c
           end; apply split_re_Infix.
  - apply Htrim. intros p. apply split_re_Infix.
Qed.

End Provenance.

Lemma extracted_text_is_text_of_the_block_witness :
  exists r,
    parseRecipeBlock (H := Reference.host) 0%Z guacamole = Ok (Some r)
    /\ Forall (fun i => Infix i guacamole) (ingredients r)
    /\ Infix (servings r) guacamole
    /\ Infix (notes r) guacamole
    /\ (Infix (category r) guacamole
        \/ In (category r)
              (map js ["Main"; "Breakfast"; "Dessert"; "Soup"; "Salad"; "Snack";
                       "Drink"]%string)).
Proof.
  eexists. split; [vm_compute; reflexivity|].
  apply (extracted_text_is_text_of_the_block (H := Reference.host) 0%Z guacamole).
  vm_compute. reflexivity.
Defined.


(** ** Instructions are one line *)

(** [\s+] matches wherever a white space code unit stands, and what it
    matches is not empty. *)
Lemma white_space_run_found (prev : option N) (x : N) (s : str) :
  is_space x = true -> exec_at no_flags (plus ws) prev (x :: s) <> None.
Proof.
  intros Hx. unfold exec_at, plus, ws, one_of.
  cbn [rmatch repeat_matcher Nat.eqb negb groups_of clear_caps filter xorb in_set existsb
       in_item ignoreCase no_flags andb Nat.add List.length Nat.pred option_map].
  rewrite Hx. cbn [orb].
  match goal with
  | |- or_else ?a _ <> None => destruct a
  end; discriminate.
Qed.

Lemma white_space_run_not_empty (prev : option N) (s s' : str) (cs : caps) :
  exec_at no_flags (plus ws) prev s = Some (s', cs) ->
  (List.length s' < List.length s)%nat.
Proof.
  unfold exec_at, plus, ws, one_of.
  cbn [rmatch repeat_matcher Nat.eqb negb groups_of clear_caps filter].
  destruct s as [|x s]; [discriminate|].
  destruct (xorb false (in_set no_flags [CSpace] x)); [|discriminate].
  cbn [andb]. intros Hrun.
  apply (repeat_matcher_within s (rmatch no_flags (RSet false [CSpace])) [] true _
           (rmatch_within s no_flags _)) in Hrun; [|apply Suffix_refl|constructor].
  destruct Hrun as (p1 & s1 & cs1 & Hk & Hs1 & _). inversion Hk; subst.
  apply Suffix_length in Hs1. simpl. lia.
Qed.

(** What a search finds was found by an attempt at some place of the
    text. *)
Lemma search_from_found (fl : flags) (r : regex) (s : str) :
  forall prev acc f,
    search_from fl r prev acc s = Some f ->
    exists prev0 s0,
      exec_at fl r prev0 s0 = Some (after f, groups f)
      /\ matched f = firstn (List.length s0 - List.length (after f)) s0.
Proof.
  induction s as [|x s IH]; intros prev acc f Hf; rewrite search_from_eq in Hf.
  - destruct (exec_at fl r prev []) as [[s' cs]|] eqn:E; [|discriminate].
    injection Hf as <-. exists prev, []. split; [exact E|reflexivity].
  - destruct (exec_at fl r prev (x :: s)) as [[s' cs]|] eqn:E.
    + injection Hf as <-. exists prev, (x :: s). split; [exact E|reflexivity].
    + eapply IH; eauto.
Qed.

Lemma white_space_absent (s : str) :
  forall prev acc,
    search_from no_flags (plus ws) prev acc s = None ->
    forall c, In c s -> is_space c = false.
Proof.
  induction s as [|x s IH]; intros prev acc Hs c Hc; [destruct Hc|].
  rewrite search_from_eq in Hs.
  destruct (exec_at no_flags (plus ws) prev (x :: s)) as [[s' cs]|] eqn:E; [discriminate|].
  destruct Hc as [<-|Hc]; [|eapply IH; eauto].
  destruct (is_space x) eqn:Ex; [|reflexivity].
  exfalso. now apply (white_space_run_found prev x s Ex).
Qed.

Lemma white_space_before (s : str) :
  forall prev acc f,
    search_from no_flags (plus ws) prev acc s = Some f ->
    (forall c, In c acc -> is_space c = false) ->
    forall c, In c (before f) -> is_space c = false.
Proof.
  induction s as [|x s IH]; intros prev acc f Hf Hacc c Hc; rewrite search_from_eq in Hf.
  - destruct (exec_at no_flags (plus ws) prev []) as [[s' cs]|]; [|discriminate].
    injection Hf as <-. cbn [before] in Hc. apply in_rev in Hc. auto.
  - destruct (exec_at no_flags (plus ws) prev (x :: s)) as [[s' cs]|] eqn:E.
    + injection Hf as <-. cbn [before] in Hc. apply in_rev in Hc. auto.
    + apply (IH _ _ _ Hf); [|exact Hc].
      intros d [Hd|Hd]; [subst d|auto].
      destruct (is_space x) eqn:Ex; [|reflexivity].
      exfalso. now apply (white_space_run_found prev x s Ex).
Qed.

(** After [replace(/\s+/g, ' ')] the only white space left is the space. *)
Lemma white_space_collapsed (s : str) :
  plain_spaces (replaceAll no_flags (plus ws) (js " ") s).
Proof.
  unfold replaceAll.
  assert (Hloop : forall fuel prev t,
             (List.length t < fuel)%nat ->
             plain_spaces (replace_loop fuel no_flags (plus ws) (js " ") prev t)).
  { induction fuel as [|fuel IH]; intros prev t Hlen c Hc Hsp; [lia|].
    cbn [replace_loop] in Hc.
    destruct (search_from no_flags (plus ws) prev [] t) as [f|] eqn:Ef.
    - pose proof (white_space_before _ _ _ _ Ef (fun c (Hin : In c []) => match Hin with end))
        as Hbefore.
      destruct (search_from_found _ _ _ _ _ _ Ef) as (prev0 & s0 & Hexec & Hm).
      apply white_space_run_not_empty in Hexec.
      apply search_from_splits in Ef. destruct Ef as [Hcut _]. cbn [rev List.app] in Hcut.
      assert (Hlens : (List.length (before f) + List.length (matched f)
                       + List.length (after f) = List.length t)%nat)
        by (rewrite <- Hcut, !length_app; lia).
      assert (Hpos : (0 < List.length (matched f))%nat)
        by (rewrite Hm, length_firstn; lia).
      destruct (matched f) as [|m ms]; [simpl in Hpos; lia|].
      apply in_app_or in Hc. destruct Hc as [Hc|Hc];
        [rewrite (Hbefore c Hc) in Hsp; discriminate|].
      apply in_app_or in Hc. destruct Hc as [[<-|[]]|Hc]; [reflexivity|].
      eapply IH; [|exact Hc|exact Hsp]. simpl in Hlens. lia.
    - rewrite (white_space_absent _ _ _ Ef c Hc) in Hsp. discriminate. }
  apply Hloop. lia.
Qed.

Lemma plain_spaces_sub (s t : str) :
  (forall c, In c s -> In c t) -> plain_spaces t -> plain_spaces s.
Proof. intros Hsub Ht c Hc. apply Ht. now apply Hsub. Qed.

Lemma replaceAll_empty_sub (fl : flags) (r : regex) (s : str) (c : N) :
  In c (replaceAll fl r [] s) -> In c s.
Proof.
  unfold replaceAll. intros Hc. apply replace_loop_sub in Hc. now destruct Hc.
Qed.

Section OneLine.
Context `{Host}.

Lemma tidy_instructions_plain (span : str) : plain_spaces (tidy_instructions span).
Proof.
  unfold tidy_instructions. cbv zeta.
  eapply plain_spaces_sub; [|apply white_space_collapsed].
  intros c Hc. apply trim_sub in Hc. apply replaceAll_empty_sub in Hc. exact Hc.
Qed.

Lemma find_instructions_plain (patterns : list regex) (block found : str) :
  find_instructions patterns block = Ok found -> plain_spaces found.
Proof.
  induction patterns as [|pattern rest IH]; cbn [find_instructions].
  - intros E. inversion E. intros c [].
  - destruct (str_match flag_i pattern block) as [m|]; [|exact IH].
    destruct (group 1 m) as [span|]; cbn [bind]; [|discriminate].
    intros E. inversion E. apply tidy_instructions_plain.
Qed.

Lemma fallback_instructions_plain (block : str) (ingredients : list str) (found : str) :
  plain_spaces found -> plain_spaces (fallback_instructions block ingredients found).
Proof.
  intros Hfound. unfold fallback_instructions.
  destruct (negb (truthy found) && (0 <? List.length ingredients)%nat); [|exact Hfound].
  destruct (nth_error (split_re flag_i re_after_ingredients block) 1) as [after|];
    [|exact Hfound].
  destruct (truthy after); [|exact Hfound].
  destruct (remaining_lines after) as [|l ls]; [exact Hfound|].
  eapply plain_spaces_sub; [|apply white_space_collapsed].
  intros c Hc. apply trim_sub in Hc. exact Hc.
Qed.

(** The instructions of an accepted block are one line: they hold no line
    break and no tab, the only white space in them is the space. *)
Theorem instructions_are_one_line (now : number) (block : str) (r : recipe number) :
  parseRecipeBlock now block = Ok (Some r) ->
  plain_spaces (instructions r) /\ ~ In LF (instructions r).
Proof.
  intros Hp. apply parseRecipeBlock_accepts in Hp.
  destruct Hp as (_ & _ & _ & _ & _ & found & Hf & Hi).
  assert (Hplain : plain_spaces (instructions r)).
  { rewrite Hi.
    destruct (truthy (fallback_instructions block (ingredients r) found)).
    - apply fallback_instructions_plain. eapply find_instructions_plain; eauto.
    - intros c Hc Hsp. vm_compute in Hc.
      repeat (destruct Hc as [<-|Hc]; [try reflexivity; discriminate Hsp|]).
      destruct Hc. }
  split; [exact Hplain|].
  intros Hlf. specialize (Hplain LF Hlf eq_refl). discriminate.
Qed.

End OneLine.

Lemma instructions_are_one_line_witness :
  exists r,
    parseRecipeBlock (H := Reference.host) 0%Z tomato_soup = Ok (Some r)
    /\ plain_spaces (instructions r) /\ ~ In LF (instructions r).
Proof.
  eexists. split; [vm_compute; reflexivity|].
  apply (instructions_are_one_line (H := Reference.host) 0%Z tomato_soup).
  vm_compute. reflexivity.
Defined.

(** ** The filter count *)

Lemma activeFilterCount_sum (t : tagset) :
  activeFilterCount t
  = (List.length (tags_type t) + List.length (tags_region t)
     + List.length (tags_meal t) + List.length (tags_source t))%nat.
Proof.
  unfold activeFilterCount, TAG_KEYS. cbn [map List.concat tags_get].
  rewrite !length_app. cbn [List.length]. lia.
Qed.

(** The filter button is highlighted exactly when it shows a count, the
    count is the number of selected tags, and selecting one more tag raises
    it by one. *)
Theorem filter_count_and_highlight (t : tagset) :
  hasActiveFilters t = (0 <? activeFilterCount t)%nat
  /\ forall c tag,
       arr_includes (tags_get t c) tag = false ->
       activeFilterCount (toggleTagFilter c tag t) = S (activeFilterCount t).
Proof.
  split.
  - rewrite activeFilterCount_sum. unfold hasActiveFilters, TAG_KEYS.
    cbn [existsb tags_get]. destruct t as [a b c d]. cbn [tags_type tags_region tags_meal
                                                          tags_source].
    destruct a, b, c, d; reflexivity.
  - intros c tag Hnew. rewrite !activeFilterCount_sum. unfold toggleTagFilter, toggle.
    rewrite Hnew. destruct t as [a b c' d]; destruct c;
      cbn [tags_set tags_get tags_type tags_region tags_meal tags_source];
      rewrite length_app; cbn [List.length]; lia.
Qed.

(** ** Records without ingredients *)

Section MissingIngredients.
Context `{Host}.

(** A JSON record whose ingredients are absent, [null], [false], a number
    that counts as false or the empty string is imported with exactly one
    ingredient, the empty string. *)
Theorem json_missing_ingredients_become_one_empty_entry (now : number) (r o : value) :
  import_record now r = Ok o ->
  js_truthy (field "ingredients" r) = false ->
  field "ingredients" o = JArr [JStr []].
Proof.
  intros Hr Hfalse. apply import_record_fields in Hr. destruct Hr as (_ & _ & Hi).
  unfold import_ingredients in Hi.
  destruct (field "ingredients" r) as [| |b|n|s|items|props] eqn:E;
    try discriminate Hfalse;
    unfold or_default in Hi; rewrite Hfalse in Hi; cbn [split_chr map trim] in Hi;
    inversion Hi; reflexivity.
Qed.

End MissingIngredients.

Lemma json_missing_ingredients_become_one_empty_entry_witness :
  exists o,
    import_record (H := Reference.host) 0%Z (JObj [(js "title", JStr (js "Toast"))]) = Ok o
    /\ field "ingredients" o = JArr [JStr []].
Proof.
  eexists. split; [vm_compute; reflexivity|].
  apply (json_missing_ingredients_become_one_empty_entry (H := Reference.host) 0%Z
           (JObj [(js "title", JStr (js "Toast"))])).
  - vm_compute. reflexivity.
  - reflexivity.
Defined.
